(** * A shallow embedding of the chess legality engine (Chess.py)

    The Python program keeps a board of pieces, derives the squares each
    piece threatens or may move to, and validates every move on a deep copy
    of the board before it touches the live one.  The embedding below follows
    the classes of the source one by one: [ChessPosition], [MoveCommand],
    the [Piece] hierarchy, [ChessBoard] and [ChessGame].

    Python objects are mutable; here every method that mutates [self] takes
    the old value and returns the new one.  Python calls that can raise or
    loop forever return a [result]. *)

From Stdlib Require Import ZArith List Bool String Ascii Lia.
Import ListNotations.
Open Scope Z_scope.

(** ** Outcomes of a Python computation *)

Inductive exn : Type :=
| AttributeError
| IndexError
| ValueError
| RuntimeError
| OverflowError.

(** [Diverge] stands for a [while] loop that never leaves its body. *)
Inductive result (A : Type) : Type :=
| Ok (a : A)
| Raise (e : exn)
| Diverge.

Arguments Ok {A} a.
Arguments Raise {A} e.
Arguments Diverge {A}.

Definition bind {A B : Type} (m : result A) (k : A -> result B) : result B :=
  match m with
  | Ok a => k a
  | Raise e => Raise e
  | Diverge => Diverge
  end.

Notation "x <- m ;; k" := (bind m (fun x => k))
  (at level 61, m at next level, right associativity).

(** ** Value types: positions and colours *)

Record ChessPosition : Type := mkPos { x_coord : Z; y_coord : Z }.

(** [ChessPosition.__eq__] *)
Definition pos_eqb (a b : ChessPosition) : bool :=
  (x_coord a =? x_coord b) && (y_coord a =? y_coord b).

(** [Piece.WHITE] and [Piece.BLACK]; no other colour is ever constructed. *)
Inductive Color : Type := WHITE | BLACK.

Definition color_eqb (a b : Color) : bool :=
  match a, b with
  | WHITE, WHITE | BLACK, BLACK => true
  | _, _ => false
  end.

(** Modelled from the spec: the [constants] module is not part of the
    sources.  [PieceType] is the closed variant set
    {King, Queen, Rook, Bishop, Knight, Pawn} of the specification. *)
Inductive PieceType : Type := KING | QUEEN | KNIGHT | ROOK | BISHOP | PAWN.

Definition is_king (t : PieceType) : bool :=
  match t with KING => true | _ => false end.

Definition is_pawn (t : PieceType) : bool :=
  match t with PAWN => true | _ => false end.

(** Modelled from the spec: the board is 8 by 8. *)
Definition CHESS_BOARD_SIZE : Z := 8.

(** Modelled from the spec: the fixed initial layout is the standard chess
    opening position.  The list holds White's sixteen pieces as
    (type, column, row); [_initialize_pieces] derives Black's from it. *)
Definition INITIAL_PIECE_SET_SINGLE : list (PieceType * Z * Z) :=
  [ (ROOK, 0, 0); (KNIGHT, 1, 0); (BISHOP, 2, 0); (QUEEN, 3, 0);
    (KING, 4, 0); (BISHOP, 5, 0); (KNIGHT, 6, 0); (ROOK, 7, 0);
    (PAWN, 0, 1); (PAWN, 1, 1); (PAWN, 2, 1); (PAWN, 3, 1);
    (PAWN, 4, 1); (PAWN, 5, 1); (PAWN, 6, 1); (PAWN, 7, 1) ].

(** ** Pieces

    One record for the whole class hierarchy: [kind] is the subclass,
    [moved] is [Pawn._moved] (only a pawn's [move] writes it and only
    [Pawn.get_moveable_positions] reads it). *)
Record Piece : Type := mkPiece {
  kind : PieceType;
  position : ChessPosition;
  color : Color;
  moved : bool
}.

(** [PieceFactory.create] *)
Definition PieceFactory_create (piece_type : PieceType)
    (pos : ChessPosition) (c : Color) : Piece :=
  mkPiece piece_type pos c false.

(** [Piece.move], with the override of [Pawn.move].  What [King.move] adds,
    the call to the board's [register_king_position], is done where the
    board is at hand, in [execute_move]. *)
Definition move (p : Piece) (target_position : ChessPosition) : Piece :=
  {| kind := kind p;
     position := target_position;
     color := color p;
     moved := if is_pawn (kind p) then true else moved p |}.

(** ** The board *)

Record ChessBoard : Type := mkBoard {
  size : Z;
  pieces : list Piece;
  white_king_position : option ChessPosition;
  black_king_position : option ChessPosition
}.

Definition set_pieces (b : ChessBoard) (l : list Piece) : ChessBoard :=
  {| size := size b;
     pieces := l;
     white_king_position := white_king_position b;
     black_king_position := black_king_position b |}.

(** [ChessBoard.register_king_position]; its [RuntimeError] branch needs a
    colour that is neither white nor black. *)
Definition register_king_position (b : ChessBoard) (pos : ChessPosition)
    (c : Color) : ChessBoard :=
  match c with
  | WHITE => {| size := size b;
                pieces := pieces b;
                white_king_position := Some pos;
                black_king_position := black_king_position b |}
  | BLACK => {| size := size b;
                pieces := pieces b;
                white_king_position := white_king_position b;
                black_king_position := Some pos |}
  end.

(** [King.set_board_handle]: the handle itself is not stored, every king is
    created by [_initialize_pieces] and handed its own board, and [deepcopy]
    of a board redirects the handle to the copy. *)
Definition set_board_handle (b : ChessBoard) (king : Piece) : ChessBoard :=
  register_king_position b (position king) (color king).

(** One round of the loop of [ChessBoard._initialize_pieces]. *)
Definition initialize_piece (b : ChessBoard) (piece_tuple : PieceType * Z * Z)
    : ChessBoard :=
  let '(type, x, y) := piece_tuple in
  let piece_white := PieceFactory_create type (mkPos x y) WHITE in
  let b1 := if is_king type then set_board_handle b piece_white else b in
  let b2 := set_pieces b1 (pieces b1 ++ [piece_white]) in
  let piece_black :=
    PieceFactory_create type
      (mkPos (size b2 - x - 1) (size b2 - y - 1)) BLACK in
  let b3 := if is_king type then set_board_handle b2 piece_black else b2 in
  set_pieces b3 (pieces b3 ++ [piece_black]).

Definition initialize_pieces (b : ChessBoard)
    (pieces_setup : list (PieceType * Z * Z)) : ChessBoard :=
  fold_left initialize_piece pieces_setup b.

(** [ChessBoard.__init__] *)
Definition ChessBoard_init (sz : Z) : ChessBoard :=
  initialize_pieces (mkBoard sz [] None None) INITIAL_PIECE_SET_SINGLE.

(** [ChessBoard.get_piece]: the first piece standing on [pos]. *)
Definition get_piece (b : ChessBoard) (pos : ChessPosition) : option Piece :=
  find (fun piece => pos_eqb (position piece) pos) (pieces b).

(** The guard of the [while] loop of [beam_search_threat]. *)
Definition in_bounds (b : ChessBoard) (x y : Z) : bool :=
  (x >=? 0) && (y >=? 0) && (x <? size b) && (y <? size b).

(** The [while] loop of [beam_search_threat], one iteration per unit of
    fuel; the guard is tested before the body runs. *)
Fixpoint beam_loop (fuel : nat) (b : ChessBoard) (own_color : Color)
    (increment_x increment_y : Z) (curr_x curr_y : Z)
    (threatened_positions : list ChessPosition)
    : result (list ChessPosition) :=
  match fuel with
  | O => Diverge
  | S fuel' =>
      if in_bounds b curr_x curr_y then
        let curr_position := mkPos curr_x curr_y in
        match get_piece b curr_position with
        | Some curr_piece =>
            if negb (color_eqb (color curr_piece) own_color)
            then Ok (threatened_positions ++ [curr_position])
            else Ok threatened_positions
        | None =>
            beam_loop fuel' b own_color increment_x increment_y
              (curr_x + increment_x) (curr_y + increment_y)
              (threatened_positions ++ [curr_position])
        end
      else Ok threatened_positions
  end.

(** [ChessBoard.beam_search_threat].  A walk in a nonzero direction tests
    its guard at most [size + 1] times; with the zero direction the loop
    either stops at once or never. *)
Definition beam_search_threat (b : ChessBoard) (start_position : ChessPosition)
    (own_color : Color) (increment_x increment_y : Z)
    : result (list ChessPosition) :=
  beam_loop (S (Z.to_nat (size b))) b own_color increment_x increment_y
    (x_coord start_position + increment_x)
    (y_coord start_position + increment_y) [].

(** [ChessBoard.spot_search_threat] *)
Definition spot_search_threat (b : ChessBoard) (start_position : ChessPosition)
    (own_color : Color) (increment_x increment_y : Z)
    (threat_only free_only : bool) : option ChessPosition :=
  let curr_x := x_coord start_position + increment_x in
  let curr_y := y_coord start_position + increment_y in
  if (curr_x >=? size b) || (curr_y >=? size b)
     || (curr_x <? 0) || (curr_y <? 0)
  then None
  else
    let curr_position := mkPos curr_x curr_y in
    match get_piece b curr_position with
    | Some curr_piece =>
        if free_only then None
        else if negb (color_eqb (color curr_piece) own_color)
             then Some curr_position
             else None
    | None => if negb threat_only then Some curr_position else None
    end.

(** The first piece on [pos] leaves the list: the [for] loop with [del] and
    [break] of [execute_move]. *)
Fixpoint delete_first_at (pos : ChessPosition) (l : list Piece) : list Piece :=
  match l with
  | [] => []
  | target_piece :: rest =>
      if pos_eqb (position target_piece) pos then rest
      else target_piece :: delete_first_at pos rest
  end.

(** The first piece on [pos] is replaced by [f] of it: a method call on the
    object that [get_piece pos] returns. *)
Fixpoint update_first_at (pos : ChessPosition) (f : Piece -> Piece)
    (l : list Piece) : list Piece :=
  match l with
  | [] => []
  | piece :: rest =>
      if pos_eqb (position piece) pos then f piece :: rest
      else piece :: update_first_at pos f rest
  end.

(** ** Movement rules of the six piece classes *)

Definition King_SPOT_INCREMENTS : list (Z * Z) :=
  [(1, -1); (1, 0); (1, 1); (0, 1); (-1, 1); (-1, 0); (-1, -1); (0, -1)].

Definition Queen_BEAM_INCREMENTS : list (Z * Z) :=
  [(1, 1); (1, -1); (-1, 1); (-1, -1); (0, 1); (0, -1); (1, 0); (-1, 0)].

Definition Knight_SPOT_INCREMENTS : list (Z * Z) :=
  [(2, 1); (2, -1); (-2, 1); (-2, -1); (1, 2); (1, -2); (-1, 2); (-1, -2)].

Definition Rook_BEAM_INCREMENTS : list (Z * Z) :=
  [(0, 1); (0, -1); (1, 0); (-1, 0)].

Definition Bishop_BEAM_INCREMENTS : list (Z * Z) :=
  [(1, 1); (1, -1); (-1, 1); (-1, -1)].

Definition Pawn_SPOT_INCREMENTS_MOVE : list (Z * Z) := [(0, 1)].
Definition Pawn_SPOT_INCREMENTS_MOVE_FIRST : list (Z * Z) := [(0, 1); (0, 2)].
Definition Pawn_SPOT_INCREMENTS_TAKE : list (Z * Z) := [(-1, 1); (1, 1)].

(** [[x for x in positions if x is not None]] *)
Fixpoint drop_none {A : Type} (l : list (option A)) : list A :=
  match l with
  | [] => []
  | Some a :: rest => a :: drop_none rest
  | None :: rest => drop_none rest
  end.

(** The [for increment in ...: positions.append(spot_search_threat ...)]
    loop of King and Knight. *)
Definition spot_scan (b : ChessBoard) (p : Piece) (increments : list (Z * Z))
    : list (option ChessPosition) :=
  map (fun increment =>
         spot_search_threat b (position p) (color p)
           (fst increment) (snd increment) false false)
      increments.

(** [increment[1] if self.color == Piece.WHITE else (-1) * increment[1]] *)
Definition pawn_dy (p : Piece) (dy : Z) : Z :=
  if color_eqb (color p) WHITE then dy else (-1) * dy.

(** The same loop in the Pawn class, where the row increment is mirrored
    for Black and the probe mode is passed on. *)
Definition pawn_scan (b : ChessBoard) (p : Piece) (increments : list (Z * Z))
    (threat_only free_only : bool) : list (option ChessPosition) :=
  map (fun increment =>
         spot_search_threat b (position p) (color p)
           (fst increment) (pawn_dy p (snd increment)) threat_only free_only)
      increments.

(** The [for increment in ...: positions += beam_search_threat ...] loop of
    Queen, Rook and Bishop. *)
Fixpoint beam_scan (b : ChessBoard) (p : Piece) (increments : list (Z * Z))
    : result (list ChessPosition) :=
  match increments with
  | [] => Ok []
  | increment :: rest =>
      ray <- beam_search_threat b (position p) (color p)
               (fst increment) (snd increment) ;;
      positions <- beam_scan b p rest ;;
      Ok (ray ++ positions)
  end.

(** [get_threatened_positions], dispatched on the class of the piece. *)
Definition get_threatened_positions (p : Piece) (b : ChessBoard)
    : result (list ChessPosition) :=
  match kind p with
  | KING => Ok (drop_none (spot_scan b p King_SPOT_INCREMENTS))
  | QUEEN => beam_scan b p Queen_BEAM_INCREMENTS
  | KNIGHT => Ok (drop_none (spot_scan b p Knight_SPOT_INCREMENTS))
  | ROOK => beam_scan b p Rook_BEAM_INCREMENTS
  | BISHOP => beam_scan b p Bishop_BEAM_INCREMENTS
  | PAWN => Ok (drop_none (pawn_scan b p Pawn_SPOT_INCREMENTS_TAKE false false))
  end.

(** [Pawn.get_moveable_positions]: both loops append to one list, which is
    filtered at the end. *)
Definition Pawn_get_moveable_positions (p : Piece) (b : ChessBoard)
    : list ChessPosition :=
  let increments :=
    if moved p then Pawn_SPOT_INCREMENTS_MOVE
    else Pawn_SPOT_INCREMENTS_MOVE_FIRST in
  drop_none (pawn_scan b p increments false true
             ++ pawn_scan b p Pawn_SPOT_INCREMENTS_TAKE true false).

(** [get_moveable_positions]: every class but Pawn returns its threatened
    positions. *)
Definition get_moveable_positions (p : Piece) (b : ChessBoard)
    : result (list ChessPosition) :=
  match kind p with
  | PAWN => Ok (Pawn_get_moveable_positions p b)
  | _ => get_threatened_positions p b
  end.

(** ** Move commands and their text form *)

Record MoveCommand : Type := mkMove { src : ChessPosition; dst : ChessPosition }.

Definition ord (c : ascii) : Z := Z.of_nat (nat_of_ascii c).

(** Python's [int(text)] on text of code points below 256: white space
    around the number, an optional sign, decimal digits with single
    underscores between them.  The white space that [int] strips is tab to
    carriage return, the space, and of the code points above 127 the two
    that are spaces, U+0085 and U+00A0; the separators U+001C to U+001F are
    not stripped. *)
Definition is_space (c : ascii) : bool :=
  let n := ord c in
  ((9 <=? n) && (n <=? 13)) || (n =? 32) || (n =? 133) || (n =? 160).

Definition digit_value (c : ascii) : option Z :=
  let n := ord c in
  if (48 <=? n) && (n <=? 57) then Some (n - 48) else None.

Fixpoint all_space (s : string) : bool :=
  match s with
  | EmptyString => true
  | String c rest => is_space c && all_space rest
  end.

Fixpoint lstrip (s : string) : string :=
  match s with
  | EmptyString => EmptyString
  | String c rest => if is_space c then lstrip rest else s
  end.

(** The digits after the first one; [acc] is the value read so far. *)
Fixpoint int_digits (s : string) (acc : Z) : option Z :=
  match s with
  | EmptyString => Some acc
  | String c rest =>
      match digit_value c with
      | Some d => int_digits rest (acc * 10 + d)
      | None =>
          if (ord c =? 95)
          then match rest with
               | EmptyString => None
               | String c' rest' =>
                   match digit_value c' with
                   | Some d => int_digits rest' (acc * 10 + d)
                   | None => None
                   end
               end
          else if all_space s then Some acc else None
      end
  end.

Definition int_unsigned (s : string) : option Z :=
  match s with
  | EmptyString => None
  | String c rest =>
      match digit_value c with
      | Some d => int_digits rest d
      | None => None
      end
  end.

(** [sys.int_max_str_digits] at its default: CPython 3.11 and later refuse
    to convert between text and an integer of more decimal digits. *)
Definition int_max_str_digits : Z := 4300.

(** The number of decimal digits in a text. *)
Fixpoint count_digits (s : string) : Z :=
  match s with
  | EmptyString => 0
  | String c rest =>
      match digit_value c with
      | Some _ => 1 + count_digits rest
      | None => count_digits rest
      end
  end.

Definition int (text : string) : result Z :=
  let parsed :=
    match lstrip text with
    | EmptyString => None
    | String c rest =>
        if ord c =? 43 then int_unsigned rest
        else if ord c =? 45 then option_map Z.opp (int_unsigned rest)
        else int_unsigned (String c rest)
    end in
  match parsed with
  | Some n =>
      if int_max_str_digits <? count_digits text then Raise ValueError
      else Ok n
  | None => Raise ValueError
  end.

(** [ChessPosition.from_string]: [string[0]] raises on the empty string,
    [int] on text that is no number; no other failure exists and no range
    is checked. *)
Definition ChessPosition_from_string (s : string) : result ChessPosition :=
  match s with
  | EmptyString => Raise IndexError
  | String c rest =>
      n <- int rest ;;
      Ok (mkPos (ord c - ord "a") (n - 1))
  end.

(** [string.split(" ")]: cut at every single space, empty pieces kept. *)
Fixpoint split_space (s : string) : list string :=
  match s with
  | EmptyString => [EmptyString]
  | String c rest =>
      if ord c =? 32 then EmptyString :: split_space rest
      else match split_space rest with
           | token :: tokens => String c token :: tokens
           | [] => [String c EmptyString]
           end
  end.

(** [MoveCommand.from_string].  The test [src is None or dst is None] is
    kept out: [ChessPosition.from_string] returns a position or raises, so
    the test never holds. *)
Definition MoveCommand_from_string (s : string) : result (option MoveCommand) :=
  match split_space s with
  | [token0; token1] =>
      src_pos <- ChessPosition_from_string token0 ;;
      dst_pos <- ChessPosition_from_string token1 ;;
      Ok (Some (mkMove src_pos dst_pos))
  | _ => Ok None
  end.

(** [ChessBoard.execute_move].  [get_piece] yields the first piece on the
    source square, the loop deletes the first piece on the destination
    square, then [move] is called on the source piece.  When the two squares
    differ the source piece is still the first one on its square after the
    deletion; when they are equal the source piece is the deleted one, and
    moving it no longer shows in the list.  [None.move] raises. *)
Definition execute_move (b : ChessBoard) (command : MoveCommand)
    : result ChessBoard :=
  match get_piece b (src command) with
  | None => Raise AttributeError
  | Some source_piece =>
      let remaining := delete_first_at (dst command) (pieces b) in
      let relocated :=
        if pos_eqb (src command) (dst command) then remaining
        else update_first_at (src command)
               (fun piece => move piece (dst command)) remaining in
      let b1 := set_pieces b relocated in
      Ok (if is_king (kind source_piece)
          then register_king_position b1 (dst command) (color source_piece)
          else b1)
  end.

(** ** The game *)

Inductive Status : Type :=
| STATUS_WHITE_MOVE
| STATUS_BLACK_MOVE
| STATUS_WHITE_VICTORY
| STATUS_BLACK_VICTORY.

Record ChessGame : Type := mkGame {
  finished : bool;
  board : ChessBoard;
  status : Status
}.

(** [ChessGame.__init__] *)
Definition ChessGame_init : ChessGame :=
  mkGame false (ChessBoard_init CHESS_BOARD_SIZE) STATUS_WHITE_MOVE.

(** [copy.deepcopy]: the copy shares nothing with the original, so what is
    done to it is never seen on the original; on values that is the
    identity. *)
Definition deepcopy {A : Type} (a : A) : A := a.

(** [king_position in positions] where the king position may still be
    [None]: comparing a position with [None] reads [None.x_coord]. *)
Definition position_in (pos : option ChessPosition) (l : list ChessPosition)
    : result bool :=
  match pos with
  | Some p => Ok (existsb (fun q => pos_eqb q p) l)
  | None => match l with
            | [] => Ok false
            | _ :: _ => Raise AttributeError
            end
  end.

(** The [for piece in board_copy.pieces] loop of [_try_move]; it returns
    [false] as soon as a piece threatens the mover's king and [true] when
    the loop runs to its end. *)
Fixpoint king_scan (st : Status) (board_copy : ChessBoard) (l : list Piece)
    : result bool :=
  match l with
  | [] => Ok true
  | piece :: rest =>
      match st with
      | STATUS_WHITE_MOVE =>
          threatened <- get_threatened_positions piece board_copy ;;
          hit <- position_in (white_king_position board_copy) threatened ;;
          if hit then Ok false else king_scan st board_copy rest
      | STATUS_BLACK_MOVE =>
          threatened <- get_threatened_positions piece board_copy ;;
          hit <- position_in (black_king_position board_copy) threatened ;;
          if hit then Ok false else king_scan st board_copy rest
      | _ => king_scan st board_copy rest
      end
  end.

(** The first colour test of [_try_move]. *)
Definition wrong_color (st : Status) (c : Color) : bool :=
  match st, c with
  | STATUS_WHITE_MOVE, BLACK => true
  | STATUS_BLACK_MOVE, WHITE => true
  | _, _ => false
  end.

(** [command.dst not in moveable and command.dst not in threatened], with
    the second list computed only when the first test holds. *)
Definition dst_unreachable (src_piece : Piece) (board_copy : ChessBoard)
    (command : MoveCommand) : result bool :=
  moveable <- get_moveable_positions src_piece board_copy ;;
  if negb (existsb (fun q => pos_eqb q (dst command)) moveable)
  then
    threatened <- get_threatened_positions src_piece board_copy ;;
    Ok (negb (existsb (fun q => pos_eqb q (dst command)) threatened))
  else Ok false.

(** [ChessGame._try_move] *)
Definition try_move (g : ChessGame) (command : MoveCommand) : result bool :=
  let board_copy := deepcopy (board g) in
  match get_piece board_copy (src command) with
  | None => Ok false
  | Some src_piece =>
      if wrong_color (status g) (color src_piece) then Ok false
      else
        unreachable <- dst_unreachable src_piece board_copy command ;;
        if unreachable then Ok false
        else
          moved_copy <- execute_move board_copy command ;;
          king_scan (status g) moved_copy (pieces (deepcopy moved_copy))
  end.

(** The status update at the end of a round of [run]. *)
Definition next_status (st : Status) : Status :=
  match st with
  | STATUS_WHITE_MOVE => STATUS_BLACK_MOVE
  | STATUS_BLACK_MOVE => STATUS_WHITE_MOVE
  | other => other
  end.

(** One round of the loop of [ChessGame.run] once the command is parsed.
    The renderer only receives deep copies and prints; it is left out. *)
Definition run_command (g : ChessGame) (command : option MoveCommand)
    : result ChessGame :=
  match command with
  | None => Ok g
  | Some c =>
      accepted <- try_move g c ;;
      if negb accepted then Ok g
      else
        moved_board <- execute_move (board g) c ;;
        Ok (mkGame (finished g) moved_board (next_status (status g)))
  end.

(** One round of the loop of [ChessGame.run] on a line of input. *)
Definition run_iteration (g : ChessGame) (input_ : string) : result ChessGame :=
  command <- MoveCommand_from_string input_ ;;
  run_command g command.

(** The games that [run] can be in: the fresh game, and every game reached
    from one of them by a round that returns. *)
Inductive reachable : ChessGame -> Prop :=
| reachable_init : reachable ChessGame_init
| reachable_step : forall g command g',
    reachable g -> run_command g command = Ok g' -> reachable g'.

(** [ChessGame.run] on the lines that [input()] returns, one round per
    line, until the lines are used up. *)
Fixpoint run (g : ChessGame) (lines : list string) : result ChessGame :=
  match lines with
  | [] => Ok g
  | input_ :: rest => g' <- run_iteration g input_ ;; run g' rest
  end.

(** ** Text of a position *)

(** Python's [chr]: an argument that does not fit a C int (32 bits) raises
    [OverflowError], one outside [range(0x110000)] raises [ValueError]; the
    strings of this development hold the code points below 256, and [None]
    stands for a character beyond them. *)
Definition chr (n : Z) : result (option ascii) :=
  if (n <? -2147483648) || (2147483647 <? n) then Raise OverflowError
  else if (n <? 0) || (1114111 <? n) then Raise ValueError
  else if n <? 256 then Ok (Some (ascii_of_nat (Z.to_nat n)))
  else Ok None.

Definition digit_char (d : Z) : ascii := ascii_of_nat (Z.to_nat (48 + d)).

(** The decimal digits of a natural number put in front of [tail], last
    digit first; a number below 2 ^ fuel is written out in full. *)
Fixpoint str_digits (fuel : nat) (n : Z) (tail : string) : string :=
  match fuel with
  | O => tail
  | S fuel' =>
      if n <? 10 then String (digit_char n) tail
      else str_digits fuel' (n / 10) (String (digit_char (n mod 10)) tail)
  end.

(** The decimal text of an integer: a minus sign for a negative one, then
    the digits of its absolute value. *)
Definition decimal (n : Z) : string :=
  if n <? 0
  then String "-" (str_digits (S (Z.to_nat (Z.log2 (- n)))) (- n) EmptyString)
  else str_digits (S (Z.to_nat (Z.log2 n))) n EmptyString.

(** Python's [str] of an integer; an integer of more than
    [int_max_str_digits] digits raises. *)
Definition str (n : Z) : result string :=
  if 10 ^ int_max_str_digits <=? Z.abs n then Raise ValueError
  else Ok (decimal n).

(** [ChessPosition.__str__]: the letter is computed first, then the row. *)
Definition ChessPosition_str (p : ChessPosition) : result (option string) :=
  letter <- chr (ord "a" + x_coord p) ;;
  row <- str (y_coord p + 1) ;;
  Ok (option_map (fun c => String c row) letter).

(** ** Drawing a square *)

(** [_symbol_impl] of the six classes. *)
Definition symbol_impl (k : PieceType) : string :=
  match k with
  | KING => "KI"
  | QUEEN => "QU"
  | KNIGHT => "KN"
  | ROOK => "RO"
  | BISHOP => "BI"
  | PAWN => "PA"
  end.

(** The escape character U+001B. *)
Definition esc : ascii := ascii_of_nat 27.

(** [Piece.symbol] *)
Definition symbol (p : Piece) : string :=
  let black_color_prefix := String esc "[31;1m" in
  let white_color_prefix := String esc "[34;1m" in
  let color_suffix := String esc "[0m" in
  let retval := symbol_impl (kind p) in
  if color_eqb (color p) BLACK
  then String.append black_color_prefix (String.append retval color_suffix)
  else String.append white_color_prefix (String.append retval color_suffix).

(** The inner loop of [ConsoleRender._draw_board_line]: every piece on the
    square overwrites [contents] with its symbol, and the loop does not stop
    at the first one. *)
Fixpoint square_contents (l : list Piece) (curr_position : ChessPosition)
    (contents : string) : string :=
  match l with
  | [] => contents
  | piece :: rest =>
      square_contents rest curr_position
        (if pos_eqb curr_position (position piece) then symbol piece
         else contents)
  end.

(** ** Vocabulary of the statements *)

(** The square one step of (dx, dy) away from [start]. *)
Definition probe_square (start : ChessPosition) (dx dy : Z) : ChessPosition :=
  mkPos (x_coord start + dx) (y_coord start + dy).

Definition square_in_bounds (b : ChessBoard) (q : ChessPosition) : bool :=
  in_bounds b (x_coord q) (y_coord q).

(** The row direction in which a pawn of colour [c] advances. *)
Definition forward (c : Color) : Z :=
  match c with WHITE => 1 | BLACK => -1 end.

(** A square of the board on which no piece stands. *)
Definition free_square (b : ChessBoard) (q : ChessPosition) : Prop :=
  square_in_bounds b q = true /\ get_piece b q = None.

(** A square of the board on which a piece of another colour stands. *)
Definition enemy_square (b : ChessBoard) (own : Color) (q : ChessPosition)
    : Prop :=
  square_in_bounds b q = true /\
  exists occupant, get_piece b q = Some occupant /\ color occupant <> own.

(** The [i]-th square of the ray that leaves [start] in direction
    (dx, dy); the ray scan begins at the first one. *)
Definition ray_square (start : ChessPosition) (dx dy : Z) (i : nat)
    : ChessPosition :=
  probe_square start (Z.of_nat i * dx) (Z.of_nat i * dy).

(** What the ray scan appends for the occupied square at which it stops. *)
Definition ray_stop (b : ChessBoard) (own : Color) (sq : ChessPosition)
    : list ChessPosition :=
  match get_piece b sq with
  | Some occupant => if negb (color_eqb (color occupant) own) then [sq] else []
  | None => []
  end.

(** The colour whose turn it is; the two victory states have none. *)
Definition side_to_move (st : Status) : option Color :=
  match st with
  | STATUS_WHITE_MOVE => Some WHITE
  | STATUS_BLACK_MOVE => Some BLACK
  | _ => None
  end.

(** The board's king-position index, read by colour. *)
Definition king_position (b : ChessBoard) (c : Color) : option ChessPosition :=
  match c with
  | WHITE => white_king_position b
  | BLACK => black_king_position b
  end.

Definition other (c : Color) : Color :=
  match c with WHITE => BLACK | BLACK => WHITE end.

(** The pieces standing on a square. *)
Definition occupants (b : ChessBoard) (sq : ChessPosition) : list Piece :=
  filter (fun piece => pos_eqb (position piece) sq) (pieces b).

(** The placement invariant: no square holds two pieces. *)
Definition one_piece_per_square (b : ChessBoard) : Prop :=
  forall sq, (List.length (occupants b sq) <= 1)%nat.

(** The king index of colour [c] agrees with the board: exactly one king
    of that colour is on the board, and the index holds its square. *)
Definition king_index_consistent (b : ChessBoard) (c : Color) : Prop :=
  exists king,
    In king (pieces b) /\ kind king = KING /\ color king = c /\
    king_position b c = Some (position king) /\
    forall k', In k' (pieces b) -> kind k' = KING -> color k' = c -> k' = king.

(** No piece on the board threatens the square recorded for the king of
    colour [c]. *)
Definition king_safe (b : ChessBoard) (c : Color) : Prop :=
  forall q th k,
    In q (pieces b) -> get_threatened_positions q b = Ok th ->
    king_position b c = Some k -> ~ In k th.

(** What holds of every game that [run] can be in. *)
Definition game_inv (g : ChessGame) : Prop :=
  exists side,
    side_to_move (status g) = Some side /\
    NoDup (map position (pieces (board g))) /\
    (forall c, king_index_consistent (board g) c) /\
    king_safe (board g) (other side).

(** The number of spaces of a line. *)
Fixpoint count_space (s : string) : nat :=
  match s with
  | EmptyString => O
  | String c rest => if ord c =? 32 then S (count_space rest)
                     else count_space rest
  end.

(** A square on which a piece of colour [own] may land: on the board, and
    free or held by the other colour. *)
Definition landing (b : ChessBoard) (own : Color) (q : ChessPosition) : Prop :=
  square_in_bounds b q = true /\
  forall occupant, get_piece b q = Some occupant -> color occupant <> own.

(** [q] is reached from the square of [p] by sliding in one of the
    directions, over free squares only. *)
Definition slides_to (b : ChessBoard) (p : Piece) (increments : list (Z * Z))
    (q : ChessPosition) : Prop :=
  exists increment k,
    In increment increments /\ (1 <= k)%nat /\
    q = ray_square (position p) (fst increment) (snd increment) k /\
    (forall i, (1 <= i < k)%nat ->
       free_square b
         (ray_square (position p) (fst increment) (snd increment) i)) /\
    landing b (color p) q.

(** [q] is one single step of the list away from the square of [p]. *)
Definition steps_to (b : ChessBoard) (p : Piece) (increments : list (Z * Z))
    (q : ChessPosition) : Prop :=
  exists increment,
    In increment increments /\
    q = probe_square (position p) (fst increment) (snd increment) /\
    landing b (color p) q.

Definition kind_eqb (a b : PieceType) : bool :=
  match a, b with
  | KING, KING | QUEEN, QUEEN | KNIGHT, KNIGHT
  | ROOK, ROOK | BISHOP, BISHOP | PAWN, PAWN => true
  | _, _ => false
  end.

(** How many pieces of a kind and colour a list holds. *)
Definition count_pieces (k : PieceType) (c : Color) (l : list Piece) : nat :=
  List.length
    (filter (fun p => kind_eqb (kind p) k && color_eqb (color p) c) l).

(** The two pieces that one tuple of a setup puts on a board of size [sz]. *)
Definition setup_pair (sz : Z) (piece_tuple : PieceType * Z * Z) : list Piece :=
  let '(type, x, y) := piece_tuple in
  [ mkPiece type (mkPos x y) WHITE false;
    mkPiece type (mkPos (sz - x - 1) (sz - y - 1)) BLACK false ].

(** The directions in which the three sliding classes scan. *)
Definition beam_increments (k : PieceType) : list (Z * Z) :=
  match k with
  | QUEEN => Queen_BEAM_INCREMENTS
  | ROOK => Rook_BEAM_INCREMENTS
  | BISHOP => Bishop_BEAM_INCREMENTS
  | _ => []
  end.

(** * Properties *)

(** ** Basic facts *)

(** Two equal positions have equal columns and equal rows. *)
Ltac pos_coords H :=
  let Hx := fresh "Hx" in
  let Hy := fresh "Hy" in
  assert (Hx := f_equal x_coord H);
  assert (Hy := f_equal y_coord H);
  cbn [x_coord y_coord] in Hx, Hy.

Lemma Ok_inj {A : Type} (a b : A) : Ok a = Ok b -> a = b.
Proof. intros H. injection H as H. exact H. Qed.

Lemma pos_eqb_eq (a b : ChessPosition) : pos_eqb a b = true <-> a = b.
Proof.
  unfold pos_eqb. destruct a as [ax ay], b as [bx by']. simpl.
  rewrite andb_true_iff, !Z.eqb_eq. split.
  - intros [-> ->]. reflexivity.
  - intros H. injection H as -> ->. split; reflexivity.
Qed.

Lemma pos_eqb_refl (a : ChessPosition) : pos_eqb a a = true.
Proof. apply pos_eqb_eq. reflexivity. Qed.

Lemma pos_eqb_neq (a b : ChessPosition) : pos_eqb a b = false <-> a <> b.
Proof.
  rewrite <- pos_eqb_eq. destruct (pos_eqb a b); split; congruence.
Qed.

Lemma pos_eqb_sym (a b : ChessPosition) : pos_eqb a b = pos_eqb b a.
Proof.
  unfold pos_eqb. rewrite (Z.eqb_sym (x_coord a)), (Z.eqb_sym (y_coord a)).
  reflexivity.
Qed.

Lemma color_eqb_eq (a b : Color) : color_eqb a b = true <-> a = b.
Proof. destruct a, b; simpl; split; congruence. Qed.

Lemma color_eqb_neq (a b : Color) : color_eqb a b = false <-> a <> b.
Proof. destruct a, b; simpl; split; congruence. Qed.

Lemma existsb_pos_In (d : ChessPosition) (l : list ChessPosition) :
  existsb (fun q => pos_eqb q d) l = true <-> In d l.
Proof.
  rewrite existsb_exists. split.
  - intros [q [Hin Heq]]. apply pos_eqb_eq in Heq. subst. exact Hin.
  - intros Hin. exists d. split; [exact Hin | apply pos_eqb_refl].
Qed.

Lemma get_piece_position (b : ChessBoard) (pos : ChessPosition) (p : Piece) :
  get_piece b pos = Some p -> position p = pos /\ In p (pieces b).
Proof.
  unfold get_piece. intros H. apply find_some in H. destruct H as [Hin Heq].
  apply pos_eqb_eq in Heq. split; assumption.
Qed.

Lemma get_piece_none (b : ChessBoard) (pos : ChessPosition) :
  get_piece b pos = None <-> (forall p, In p (pieces b) -> position p <> pos).
Proof.
  unfold get_piece. split.
  - intros H p Hin. apply pos_eqb_neq. exact (find_none _ _ H p Hin).
  - intros H. destruct (find _ _) as [p|] eqn:E; [|reflexivity].
    apply find_some in E. destruct E as [Hin Heq]. apply pos_eqb_eq in Heq.
    exfalso. exact (H p Hin Heq).
Qed.

Lemma in_drop_none {A : Type} (a : A) (l : list (option A)) :
  In a (drop_none l) <-> In (Some a) l.
Proof.
  induction l as [|[x|] l IH]; simpl.
  - tauto.
  - rewrite IH. split; intros [H|H]; auto; left; congruence.
  - rewrite IH. split; [auto | intros [H|H]; [discriminate | exact H]].
Qed.

(** The guard of [spot_search_threat] is the negation of the loop guard of
    [beam_search_threat]. *)
Lemma spot_guard_in_bounds (b : ChessBoard) (x y : Z) :
  (x >=? size b) || (y >=? size b) || (x <? 0) || (y <? 0)
  = negb (in_bounds b x y).
Proof.
  unfold in_bounds.
  destruct (x >=? size b) eqn:E1, (y >=? size b) eqn:E2,
           (x <? 0) eqn:E3, (y <? 0) eqn:E4,
           (x >=? 0) eqn:E5, (y >=? 0) eqn:E6,
           (x <? size b) eqn:E7, (y <? size b) eqn:E8; simpl; try reflexivity;
    exfalso; lia.
Qed.

(** ** The step probe *)

(** What [spot_search_threat] returns, case by case. *)
Lemma spot_search_threat_cases b start own dx dy threat_only free_only :
  spot_search_threat b start own dx dy threat_only free_only =
  let sq := probe_square start dx dy in
  if square_in_bounds b sq then
    match get_piece b sq with
    | Some occupant =>
        if free_only || color_eqb (color occupant) own then None else Some sq
    | None => if threat_only then None else Some sq
    end
  else None.
Proof.
  unfold spot_search_threat, probe_square, square_in_bounds. cbn [x_coord y_coord].
  rewrite spot_guard_in_bounds.
  destruct (in_bounds b (x_coord start + dx) (y_coord start + dy)); simpl;
    [|reflexivity].
  destruct (get_piece b _) as [occupant|].
  - destruct free_only, (color_eqb (color occupant) own); reflexivity.
  - destruct threat_only; reflexivity.
Qed.

(** C7. The step probe looks at the single square start + (dx, dy): its
    answer is that square or nothing, and it is the same on any board of the
    same size with the same occupant there.  It answers nothing when the
    square is out of bounds or holds a piece of the own colour; with
    [free_only] it never answers an occupied square, with [threat_only]
    never an empty one; in every other case it answers the square. *)
Theorem spot_search_threat_spec :
  forall b start own dx dy threat_only free_only,
    let sq := probe_square start dx dy in
    let answer :=
      spot_search_threat b start own dx dy threat_only free_only in
    (answer = None \/ answer = Some sq) /\
    (forall b', size b' = size b -> get_piece b' sq = get_piece b sq ->
       spot_search_threat b' start own dx dy threat_only free_only = answer) /\
    (square_in_bounds b sq = false -> answer = None) /\
    (forall occupant, get_piece b sq = Some occupant ->
       color occupant = own -> answer = None) /\
    (free_only = true -> forall r, answer = Some r -> get_piece b r = None) /\
    (threat_only = true ->
       forall r, answer = Some r -> get_piece b r <> None) /\
    (square_in_bounds b sq = true ->
     (forall occupant, get_piece b sq = Some occupant ->
        color occupant <> own /\ free_only = false) ->
     (get_piece b sq = None -> threat_only = false) ->
     answer = Some sq).
Proof.
  intros b start own dx dy threat_only free_only sq answer.
  assert (Hcases := spot_search_threat_cases b start own dx dy
                      threat_only free_only).
  fold sq in Hcases. fold answer in Hcases. cbv zeta in Hcases.
  repeat split.
  - rewrite Hcases. destruct (square_in_bounds b sq); [|auto].
    destruct (get_piece b sq) as [occupant|].
    + destruct (free_only || color_eqb (color occupant) own); auto.
    + destruct threat_only; auto.
  - intros b' Hsize Hocc. rewrite Hcases.
    rewrite spot_search_threat_cases. fold sq. cbv zeta.
    unfold square_in_bounds, in_bounds. rewrite Hsize, Hocc. reflexivity.
  - intros Hout. rewrite Hcases, Hout. reflexivity.
  - intros occupant Hocc Hcol. rewrite Hcases, Hocc.
    apply color_eqb_eq in Hcol. rewrite Hcol, orb_true_r.
    destruct (square_in_bounds b sq); reflexivity.
  - intros -> r. rewrite Hcases.
    destruct (square_in_bounds b sq); [|discriminate].
    destruct (get_piece b sq) as [occupant|] eqn:Hocc; simpl; [discriminate|].
    destruct threat_only; [discriminate|]. intros H. injection H as <-.
    exact Hocc.
  - intros -> r. rewrite Hcases.
    destruct (square_in_bounds b sq); [|discriminate].
    destruct (get_piece b sq) as [occupant|] eqn:Hocc; [|discriminate].
    destruct (free_only || color_eqb (color occupant) own); [discriminate|].
    intros H. injection H as <-. rewrite Hocc. discriminate.
  - intros Hin Hocc Hfree. rewrite Hcases, Hin.
    destruct (get_piece b sq) as [occupant|].
    + destruct (Hocc occupant eq_refl) as [Hcol ->].
      apply color_eqb_neq in Hcol. rewrite Hcol. reflexivity.
    + rewrite (Hfree eq_refl). reflexivity.
Qed.

Lemma spot_search_threat_some b start own dx dy threat_only free_only r :
  spot_search_threat b start own dx dy threat_only free_only = Some r <->
  r = probe_square start dx dy /\
  square_in_bounds b r = true /\
  match get_piece b r with
  | Some occupant => free_only = false /\ color occupant <> own
  | None => threat_only = false
  end.
Proof.
  rewrite spot_search_threat_cases. cbv zeta.
  set (sq := probe_square start dx dy). split.
  - destruct (square_in_bounds b sq) eqn:Hin; [|discriminate].
    destruct (get_piece b sq) as [occupant|] eqn:Hocc.
    + destruct free_only; simpl; [discriminate|].
      destruct (color_eqb (color occupant) own) eqn:Hcol; [discriminate|].
      intros H. injection H as <-. rewrite Hin, Hocc.
      apply color_eqb_neq in Hcol. auto.
    + destruct threat_only; [discriminate|].
      intros H. injection H as <-. rewrite Hin, Hocc. auto.
  - intros [-> [Hin Hocc]]. rewrite Hin.
    destruct (get_piece b sq) as [occupant|].
    + destruct Hocc as [-> Hcol]. apply color_eqb_neq in Hcol.
      rewrite Hcol. reflexivity.
    + rewrite Hocc. reflexivity.
Qed.

(** ** Pawns *)

Lemma pawn_dy_forward (p : Piece) (dy : Z) :
  pawn_dy p dy = forward (color p) * dy.
Proof. unfold pawn_dy, forward. destruct (color p); unfold color_eqb; lia. Qed.

Lemma free_probe b start own dx dy r :
  spot_search_threat b start own dx dy false true = Some r <->
  r = probe_square start dx dy /\ free_square b r.
Proof.
  rewrite spot_search_threat_some. unfold free_square.
  destruct (get_piece b r) as [occupant|]; intuition congruence.
Qed.

Lemma threat_probe b start own dx dy r :
  spot_search_threat b start own dx dy true false = Some r <->
  r = probe_square start dx dy /\ enemy_square b own r.
Proof.
  rewrite spot_search_threat_some. unfold enemy_square.
  destruct (get_piece b r) as [occupant|].
  - split.
    + intros [-> [Hin [_ Hcol]]]. repeat split; auto. exists occupant. auto.
    + intros [-> [Hin [o [Ho Hcol]]]]. injection Ho as <-. auto.
  - split.
    + intros [_ [_ H]]. discriminate.
    + intros [_ [_ [o [Ho _]]]]. discriminate.
Qed.

Lemma normal_probe_empty b start own dx dy :
  let sq := probe_square start dx dy in
  free_square b sq ->
  spot_search_threat b start own dx dy false false = Some sq.
Proof.
  intros sq [Hin Hocc]. apply spot_search_threat_some.
  fold sq. rewrite Hocc. auto.
Qed.

Lemma Pawn_moveable_in b p q :
  In q (Pawn_get_moveable_positions p b) <->
  (q = probe_square (position p) 0 (forward (color p)) /\ free_square b q) \/
  (moved p = false /\
   q = probe_square (position p) 0 (2 * forward (color p)) /\
   free_square b q) \/
  ((q = probe_square (position p) (-1) (forward (color p)) \/
    q = probe_square (position p) 1 (forward (color p))) /\
   enemy_square b (color p) q).
Proof.
  unfold Pawn_get_moveable_positions. rewrite in_drop_none, in_app_iff.
  unfold pawn_scan, Pawn_SPOT_INCREMENTS_MOVE, Pawn_SPOT_INCREMENTS_MOVE_FIRST,
    Pawn_SPOT_INCREMENTS_TAKE.
  destruct (moved p); cbn [map In fst snd]; rewrite !pawn_dy_forward;
    try replace (forward (color p) * 1) with (forward (color p)) by lia;
    try replace (forward (color p) * 2) with (2 * forward (color p)) by lia;
    rewrite ?free_probe, ?threat_probe;
    intuition congruence.
Qed.

Lemma Pawn_threatened_in b p q :
  In q (drop_none (pawn_scan b p Pawn_SPOT_INCREMENTS_TAKE false false)) ->
  q = probe_square (position p) (-1) (forward (color p)) \/
  q = probe_square (position p) 1 (forward (color p)).
Proof.
  rewrite in_drop_none.
  unfold pawn_scan, Pawn_SPOT_INCREMENTS_TAKE.
  cbn [map In fst snd]. rewrite !pawn_dy_forward.
  replace (forward (color p) * 1) with (forward (color p)) by lia.
  rewrite !spot_search_threat_some.
  intuition.
Qed.

(** ** What [execute_move] does to the list of pieces *)

Lemma delete_first_at_incl pos l q :
  In q (delete_first_at pos l) -> In q l.
Proof.
  induction l as [|a l IH]; simpl; [tauto|].
  destruct (pos_eqb (position a) pos); simpl; intuition.
Qed.

Lemma update_first_at_in pos f l q :
  In q (update_first_at pos f l) ->
  In q l \/
  exists p, find (fun piece => pos_eqb (position piece) pos) l = Some p /\
            q = f p.
Proof.
  induction l as [|a l IH]; simpl; [tauto|].
  destruct (pos_eqb (position a) pos); simpl.
  - intros [<-|H]; [right; exists a|]; auto.
  - intros [<-|H]; auto. destruct (IH H) as [H'|H']; auto.
Qed.

Lemma find_delete_first_at_other s d l :
  pos_eqb s d = false ->
  find (fun piece => pos_eqb (position piece) s) (delete_first_at d l)
  = find (fun piece => pos_eqb (position piece) s) l.
Proof.
  intros Hsd. induction l as [|a l IH]; simpl; [reflexivity|].
  destruct (pos_eqb (position a) d) eqn:Had.
  - destruct (pos_eqb (position a) s) eqn:Has; [|reflexivity].
    apply pos_eqb_eq in Had, Has. rewrite <- Has, Had in Hsd.
    rewrite pos_eqb_refl in Hsd. discriminate.
  - simpl. destruct (pos_eqb (position a) s); [reflexivity | exact IH].
Qed.

Lemma pieces_register_king_position b pos c :
  pieces (register_king_position b pos c) = pieces b.
Proof. destruct c; reflexivity. Qed.

Lemma size_register_king_position b pos c :
  size (register_king_position b pos c) = size b.
Proof. destruct c; reflexivity. Qed.

(** The list of pieces after a move that returns. *)
Lemma execute_move_pieces b c b' :
  execute_move b c = Ok b' ->
  exists source_piece,
    get_piece b (src c) = Some source_piece /\
    pieces b' =
      (if pos_eqb (src c) (dst c)
       then delete_first_at (dst c) (pieces b)
       else update_first_at (src c) (fun piece => move piece (dst c))
              (delete_first_at (dst c) (pieces b))).
Proof.
  unfold execute_move. destruct (get_piece b (src c)) as [sp|]; [|discriminate].
  intros H. injection H as <-. exists sp. split; [reflexivity|].
  destruct (is_king (kind sp)); rewrite ?pieces_register_king_position;
    reflexivity.
Qed.

(** Every piece on the board after a move stood there before, unchanged,
    or is the moved source piece. *)
Lemma execute_move_in b c b' q :
  execute_move b c = Ok b' -> In q (pieces b') ->
  In q (pieces b) \/
  exists source_piece,
    get_piece b (src c) = Some source_piece /\ q = move source_piece (dst c).
Proof.
  intros Hex Hin. destruct (execute_move_pieces _ _ _ Hex) as [sp [Hsp Hpieces]].
  rewrite Hpieces in Hin. destruct (pos_eqb (src c) (dst c)) eqn:Hsd.
  - left. eapply delete_first_at_incl; eassumption.
  - apply update_first_at_in in Hin. destruct Hin as [Hin|[p [Hp ->]]].
    + left. eapply delete_first_at_incl; eassumption.
    + right. exists sp. split; [exact Hsp|].
      rewrite (find_delete_first_at_other _ _ _ Hsd) in Hp.
      unfold get_piece in Hsp. congruence.
Qed.

(** C8. A pawn's moveable squares are exactly: the square one row forward
    when free; the square two rows forward when the pawn has not moved and
    that square is free; each of the two forward-diagonal squares on which an
    enemy stands.  Forward is +1 row for White and -1 for Black.  A move
    sets the flag and no later move clears it: after any executed move every
    piece of the board is an old piece unchanged or the relocated piece,
    which if a pawn has the flag set.  A pawn on e2 asked to go to e5 is
    rejected in every game. *)
Theorem Pawn_moveable_spec :
  forall b p,
    kind p = PAWN ->
    (exists l,
       get_moveable_positions p b = Ok l /\
       forall q,
         In q l <->
         (q = probe_square (position p) 0 (forward (color p)) /\
          free_square b q) \/
         (moved p = false /\
          q = probe_square (position p) 0 (2 * forward (color p)) /\
          free_square b q) \/
         ((q = probe_square (position p) (-1) (forward (color p)) \/
           q = probe_square (position p) 1 (forward (color p))) /\
          enemy_square b (color p) q)) /\
    forward WHITE = 1 /\ forward BLACK = -1 /\
    (forall target target',
       moved (move p target) = true /\
       moved (move (move p target) target') = true) /\
    (forall c b' q,
       execute_move b c = Ok b' -> In q (pieces b') ->
       In q (pieces b) \/
       (position q = dst c /\ (kind q = PAWN -> moved q = true))) /\
    (forall g,
       get_piece (board g) (mkPos 4 1) = Some p ->
       try_move g (mkMove (mkPos 4 1) (mkPos 4 4)) = Ok false).
Proof.
  intros b p Hkind. repeat split.
  - exists (Pawn_get_moveable_positions p b). split.
    + unfold get_moveable_positions. rewrite Hkind. reflexivity.
    + intros q. apply Pawn_moveable_in.
  - unfold move. simpl. rewrite Hkind. reflexivity.
  - unfold move. simpl. rewrite Hkind. reflexivity.
  - intros c b' q Hex Hin.
    destruct (execute_move_in _ _ _ _ Hex Hin) as [Hold|[sp [Hsp ->]]];
      [left; exact Hold|].
    right. split; [reflexivity|]. unfold move. simpl. intros ->. reflexivity.
  - intros g Hget. unfold try_move, deepcopy. cbn [src dst]. rewrite Hget.
    destruct (wrong_color (status g) (color p)); [reflexivity|].
    destruct (get_piece_position _ _ _ Hget) as [Hpos _].
    assert (Hfwd : forward (color p) = 1 \/ forward (color p) = -1)
      by (destruct (color p); simpl; auto).
    unfold dst_unreachable, get_moveable_positions, get_threatened_positions.
    rewrite Hkind. cbn [bind dst].
    destruct (existsb _ (Pawn_get_moveable_positions p (board g))) eqn:Hmv.
    { exfalso. apply existsb_pos_In, Pawn_moveable_in in Hmv.
      unfold probe_square in Hmv. rewrite Hpos in Hmv.
      cbn [x_coord y_coord] in Hmv.
      destruct Hmv as [[H _]|[[_ [H _]]|[[H|H] _]]];
        pos_coords H; lia. }
    cbn [negb bind].
    destruct (existsb _ (drop_none _)) eqn:Hth; [|reflexivity].
    exfalso. apply existsb_pos_In, Pawn_threatened_in in Hth.
    unfold probe_square in Hth. rewrite Hpos in Hth.
    cbn [x_coord y_coord] in Hth.
    destruct Hth as [H|H]; pos_coords H; lia.
Qed.

Lemma Pawn_moveable_spec_witness :
  kind (mkPiece PAWN (mkPos 4 1) WHITE false) = PAWN /\
  try_move ChessGame_init (mkMove (mkPos 4 1) (mkPos 4 4)) = Ok false.
Proof.
  split; [reflexivity|].
  apply (Pawn_moveable_spec (board ChessGame_init)
           (mkPiece PAWN (mkPos 4 1) WHITE false) eq_refl).
  reflexivity.
Defined.

(** C10. For a pawn that has not moved, the square two rows forward is among
    its moveable squares as soon as that square is on the board and free;
    nothing is asked of the square in between. *)
Theorem Pawn_two_step_ignores_intermediate :
  forall b p,
    kind p = PAWN ->
    moved p = false ->
    let target := probe_square (position p) 0 (2 * forward (color p)) in
    free_square b target ->
    exists l, get_moveable_positions p b = Ok l /\ In target l.
Proof.
  intros b p Hkind Hmoved target Hfree.
  exists (Pawn_get_moveable_positions p b). split.
  - unfold get_moveable_positions. rewrite Hkind. reflexivity.
  - apply Pawn_moveable_in. right. left. auto.
Qed.

Lemma Pawn_two_step_ignores_intermediate_witness :
  let b := mkBoard 8 [ mkPiece PAWN (mkPos 4 1) WHITE false;
                       mkPiece KNIGHT (mkPos 4 2) BLACK false ] None None in
  let p := mkPiece PAWN (mkPos 4 1) WHITE false in
  get_piece b (mkPos 4 2) = Some (mkPiece KNIGHT (mkPos 4 2) BLACK false) /\
  exists l, get_moveable_positions p b = Ok l /\ In (mkPos 4 3) l.
Proof.
  intros b p. split; [reflexivity|].
  apply (@Pawn_two_step_ignores_intermediate b p eq_refl eq_refl).
  split; reflexivity.
Defined.

(** A pawn threatens its forward-diagonal squares when they are empty. *)
Lemma Pawn_threatens_empty_diagonal b p dx :
  kind p = PAWN -> dx = -1 \/ dx = 1 ->
  free_square b (probe_square (position p) dx (forward (color p))) ->
  exists th,
    get_threatened_positions p b = Ok th /\
    In (probe_square (position p) dx (forward (color p))) th.
Proof.
  intros Hkind Hdx Hfree. unfold get_threatened_positions. rewrite Hkind.
  eexists. split; [reflexivity|]. apply in_drop_none.
  unfold pawn_scan, Pawn_SPOT_INCREMENTS_TAKE. cbn [map In fst snd].
  rewrite !pawn_dy_forward.
  replace (forward (color p) * 1) with (forward (color p)) by lia.
  destruct Hdx as [-> | ->]; [left | right; left];
    apply normal_probe_empty; exact Hfree.
Qed.

(** C9. A pawn's threatened squares contain its forward-diagonal squares
    when these are empty, and the destination test of the validation accepts
    any threatened square: in the opening position the request e2 to d3, a
    diagonal step of a White pawn onto an empty square, passes validation
    and is applied, and no piece leaves the board. *)
Theorem pawn_moves_to_empty_diagonal :
  (forall b p dx,
     kind p = PAWN -> dx = -1 \/ dx = 1 ->
     free_square b (probe_square (position p) dx (forward (color p))) ->
     exists th,
       get_threatened_positions p b = Ok th /\
       In (probe_square (position p) dx (forward (color p))) th) /\
  exists g c p,
    reachable g /\
    get_piece (board g) (src c) = Some p /\
    kind p = PAWN /\
    dst c = probe_square (src c) (-1) (forward (color p)) /\
    get_piece (board g) (dst c) = None /\
    try_move g c = Ok true /\
    exists g',
      run_command g (Some c) = Ok g' /\
      get_piece (board g') (dst c) = Some (move p (dst c)) /\
      get_piece (board g') (src c) = None /\
      List.length (pieces (board g')) = List.length (pieces (board g)).
Proof.
  split; [exact Pawn_threatens_empty_diagonal|].
  exists ChessGame_init, (mkMove (mkPos 4 1) (mkPos 3 2)),
    (mkPiece PAWN (mkPos 4 1) WHITE false).
  split; [constructor|].
  do 5 (split; [vm_compute; reflexivity|]).
  eexists. split; [vm_compute; reflexivity|].
  repeat split; vm_compute; reflexivity.
Qed.

(** ** Text of a move request *)

(** C3, evaluated on the code.  The text a9 parses to the position (0, 8),
    which is outside the 8 by 8 board, and the line a1 a9 parses to a move
    command; the request gets as far as the destination test of the
    validation, which is what turns it down.  Text that is no number makes
    the parser raise instead of yielding no command. *)
Theorem from_string_accepts_out_of_range :
  ChessPosition_from_string "a9"%string = Ok (mkPos 0 8) /\
  square_in_bounds (board ChessGame_init) (mkPos 0 8) = false /\
  MoveCommand_from_string "a1 a9"%string
    = Ok (Some (mkMove (mkPos 0 0) (mkPos 0 8))) /\
  (exists rook,
     get_piece (deepcopy (board ChessGame_init)) (mkPos 0 0) = Some rook /\
     wrong_color (status ChessGame_init) (color rook) = false /\
     dst_unreachable rook (board ChessGame_init)
       (mkMove (mkPos 0 0) (mkPos 0 8)) = Ok true) /\
  run_iteration ChessGame_init "a1 a9"%string = Ok ChessGame_init /\
  ChessPosition_from_string "ax"%string = Raise ValueError /\
  MoveCommand_from_string "a1 ax"%string = Raise ValueError /\
  run_iteration ChessGame_init "a1 ax"%string = Raise ValueError.
Proof.
  do 3 (split; [vm_compute; reflexivity|]).
  split.
  - eexists. split; [vm_compute; reflexivity|].
    split; vm_compute; reflexivity.
  - repeat split; vm_compute; reflexivity.
Qed.

(** ** The ray scan *)

Lemma ray_square_succ start dx dy n :
  mkPos (x_coord (ray_square start dx dy n) + dx)
        (y_coord (ray_square start dx dy n) + dy)
  = ray_square start dx dy (S n).
Proof.
  unfold ray_square, probe_square. cbn [x_coord y_coord].
  rewrite Nat2Z.inj_succ. f_equal; lia.
Qed.

(** Partial correctness of the loop: when it returns, it has appended the
    maximal run of free in-bounds squares from the [n]-th on, then the
    stopping square if an enemy stands there. *)
Lemma beam_loop_ok b own dx dy start :
  forall fuel n acc res,
    beam_loop fuel b own dx dy
      (x_coord (ray_square start dx dy n))
      (y_coord (ray_square start dx dy n)) acc = Ok res ->
    exists k,
      (n <= k)%nat /\
      (forall i, (n <= i < k)%nat -> free_square b (ray_square start dx dy i)) /\
      (square_in_bounds b (ray_square start dx dy k) = true ->
       get_piece b (ray_square start dx dy k) <> None) /\
      res = acc ++ map (ray_square start dx dy) (seq n (k - n))
                ++ (if square_in_bounds b (ray_square start dx dy k)
                    then ray_stop b own (ray_square start dx dy k)
                    else []).
Proof.
  induction fuel as [|fuel IH]; intros n acc res; [discriminate|].
  cbn [beam_loop].
  set (sq := ray_square start dx dy n).
  change (in_bounds b (x_coord sq) (y_coord sq)) with (square_in_bounds b sq).
  assert (Hsq : mkPos (x_coord sq) (y_coord sq) = sq) by reflexivity.
  rewrite Hsq.
  destruct (square_in_bounds b sq) eqn:Hin.
  - destruct (get_piece b sq) as [occupant|] eqn:Hocc.
    + intros Hres. exists n. split; [|split; [|split]].
      * lia.
      * intros i Hi. lia.
      * fold sq. rewrite Hocc. discriminate.
      * fold sq. rewrite Hin, Nat.sub_diag. cbn [seq map app].
        unfold ray_stop. rewrite Hocc.
        destruct (negb (color_eqb (color occupant) own));
          injection Hres as <-; [reflexivity | symmetry; apply app_nil_r].
    + intros Hres.
      pose proof (ray_square_succ start dx dy n) as Hnext. fold sq in Hnext.
      assert (Hx : x_coord sq + dx = x_coord (ray_square start dx dy (S n)))
        by (rewrite <- Hnext; reflexivity).
      assert (Hy : y_coord sq + dy = y_coord (ray_square start dx dy (S n)))
        by (rewrite <- Hnext; reflexivity).
      rewrite Hx, Hy in Hres.
      destruct (IH _ _ _ Hres) as [k [Hle [Hfree [Hstop Heq]]]].
      exists k. split; [|split; [|split]].
      * lia.
      * intros i Hi. destruct (Nat.eq_dec i n) as [->|Hne].
        -- split; assumption.
        -- apply Hfree. lia.
      * exact Hstop.
      * rewrite Heq, <- app_assoc.
        replace (k - n)%nat with (S (k - S n)) by lia.
        reflexivity.
  - intros Hres. injection Hres as <-. exists n. split; [|split; [|split]].
    + lia.
    + intros i Hi. lia.
    + fold sq. rewrite Hin. discriminate.
    + fold sq. rewrite Hin, Nat.sub_diag. cbn [seq map app].
      symmetry. apply app_nil_r.
Qed.

(** Termination of the loop under a measure that is positive on the board
    and decreases with every step. *)
Lemma beam_loop_terminates b own dx dy (mu : Z -> Z -> Z) :
  (forall x y, in_bounds b x y = true ->
     0 < mu x y /\ mu (x + dx) (y + dy) < mu x y) ->
  forall fuel x y acc,
    (0 < fuel)%nat ->
    (in_bounds b x y = true -> mu x y < Z.of_nat fuel) ->
    exists res, beam_loop fuel b own dx dy x y acc = Ok res.
Proof.
  intros Hmu. induction fuel as [|fuel IH]; intros x y acc Hpos Hfuel; [lia|].
  cbn [beam_loop]. destruct (in_bounds b x y) eqn:Hin; [|eauto].
  destruct (get_piece b (mkPos x y)) as [occupant|].
  - destruct (negb (color_eqb (color occupant) own)); eauto.
  - destruct (Hmu x y Hin) as [Hlow Hdec]. specialize (Hfuel eq_refl).
    apply IH; [lia|]. intros _. lia.
Qed.

Lemma in_bounds_range b x y :
  in_bounds b x y = true <-> 0 <= x < size b /\ 0 <= y < size b.
Proof.
  unfold in_bounds. rewrite !andb_true_iff, !Z.geb_le, !Z.ltb_lt. lia.
Qed.

(** A walk in a nonzero direction returns. *)
Lemma beam_search_threat_total b start own dx dy :
  dx <> 0 \/ dy <> 0 ->
  exists res, beam_search_threat b start own dx dy = Ok res.
Proof.
  intros Hdir. unfold beam_search_threat.
  assert (Hfuel : forall x y, in_bounds b x y = true ->
            Z.of_nat (S (Z.to_nat (size b))) = size b + 1).
  { intros x y Hin. apply in_bounds_range in Hin. lia. }
  destruct (Z.lt_trichotomy dx 0) as [Hdx|[Hdx|Hdx]].
  - apply beam_loop_terminates with (mu := fun x _ => x + 1); [|lia|].
    + intros x y Hin. apply in_bounds_range in Hin. lia.
    + intros Hin. rewrite (Hfuel _ _ Hin). apply in_bounds_range in Hin. lia.
  - destruct (Z.lt_trichotomy dy 0) as [Hdy|[Hdy|Hdy]]; [| lia |].
    + apply beam_loop_terminates with (mu := fun _ y => y + 1); [|lia|].
      * intros x y Hin. apply in_bounds_range in Hin. lia.
      * intros Hin. rewrite (Hfuel _ _ Hin). apply in_bounds_range in Hin. lia.
    + apply beam_loop_terminates with (mu := fun _ y => size b - y); [|lia|].
      * intros x y Hin. apply in_bounds_range in Hin. lia.
      * intros Hin. rewrite (Hfuel _ _ Hin). apply in_bounds_range in Hin. lia.
  - apply beam_loop_terminates with (mu := fun x _ => size b - x); [|lia|].
    + intros x y Hin. apply in_bounds_range in Hin. lia.
    + intros Hin. rewrite (Hfuel _ _ Hin). apply in_bounds_range in Hin. lia.
Qed.

(** With the zero direction the loop stays on the start square for ever
    when that square is on the board and empty. *)
Lemma beam_loop_zero_direction b own x y :
  in_bounds b x y = true -> get_piece b (mkPos x y) = None ->
  forall fuel acc, beam_loop fuel b own 0 0 x y acc = Diverge.
Proof.
  intros Hin Hocc. induction fuel as [|fuel IH]; intros acc; [reflexivity|].
  cbn [beam_loop]. rewrite Hin, Hocc, !Z.add_0_r. apply IH.
Qed.

(** The scan fails to return in exactly one situation: the direction is
    zero and the start square is a free square of the board. *)
Lemma beam_search_threat_diverges b start own dx dy :
  beam_search_threat b start own dx dy = Diverge <->
  dx = 0 /\ dy = 0 /\ free_square b start.
Proof.
  split.
  - intros Hdiv.
    destruct (Z.eq_dec dx 0) as [->|Hdx].
    2:{ destruct (beam_search_threat_total b start own dx dy (or_introl Hdx))
          as [res Hres]. congruence. }
    destruct (Z.eq_dec dy 0) as [->|Hdy].
    2:{ destruct (beam_search_threat_total b start own 0 dy (or_intror Hdy))
          as [res Hres]. congruence. }
    split; [reflexivity|]. split; [reflexivity|].
    destruct start as [x y]. unfold beam_search_threat in Hdiv.
    cbn [beam_loop x_coord y_coord] in Hdiv. rewrite !Z.add_0_r in Hdiv.
    unfold free_square, square_in_bounds. cbn [x_coord y_coord].
    destruct (in_bounds b x y); [|discriminate].
    destruct (get_piece b (mkPos x y)) as [occupant|]; [|auto].
    destruct (negb _); discriminate.
  - intros [-> [-> [Hin Hocc]]]. destruct start as [x y].
    unfold beam_search_threat. cbn [x_coord y_coord]. rewrite !Z.add_0_r.
    apply beam_loop_zero_direction; assumption.
Qed.

Lemma ray_square_coords start dx dy i :
  x_coord (ray_square start dx dy i) = x_coord start + Z.of_nat i * dx /\
  y_coord (ray_square start dx dy i) = y_coord start + Z.of_nat i * dy.
Proof. split; reflexivity. Qed.

(** On a ray that leaves the board at its [j]-th square, coming from a
    square of the board, every later square is off the board as well. *)
Lemma ray_leaves_for_good b start dx dy j i :
  square_in_bounds b start = true ->
  square_in_bounds b (ray_square start dx dy j) = false ->
  (j <= i)%nat ->
  square_in_bounds b (ray_square start dx dy i) = false.
Proof.
  unfold square_in_bounds. intros Hstart Hout Hle.
  apply in_bounds_range in Hstart.
  destruct (in_bounds b (x_coord (ray_square start dx dy i)) _) eqn:Hin;
    [|reflexivity].
  exfalso. apply in_bounds_range in Hin.
  assert (Hnot : ~ (0 <= x_coord (ray_square start dx dy j) < size b /\
                    0 <= y_coord (ray_square start dx dy j) < size b)).
  { rewrite <- in_bounds_range, Hout. discriminate. }
  destruct (ray_square_coords start dx dy i) as [Hxi Hyi].
  destruct (ray_square_coords start dx dy j) as [Hxj Hyj].
  rewrite Hxi, Hyi in Hin. rewrite Hxj, Hyj in Hnot.
  apply Hnot. clear Hnot Hxi Hyi Hxj Hyj Hout.
  assert (Hij : 0 <= Z.of_nat j <= Z.of_nat i) by lia.
  destruct (Z.lt_trichotomy dx 0) as [Hdx|[Hdx|Hdx]];
    destruct (Z.lt_trichotomy dy 0) as [Hdy|[Hdy|Hdy]]; nia.
Qed.

(** C6. In a nonzero direction the ray scan returns.  Its result lists, in
    order, the squares start + i (dx, dy) for i = 1 .. k, all of them on the
    board and free, where the square number k + 1 is either off the board or
    occupied; an occupied one is appended when its occupant is not of the
    own colour and left out otherwise.  When no piece stands on the ray, the
    result is the squares 1 .. k alone, square k + 1 is off the board, and
    from a start square on the board these are exactly the squares of the
    ray that lie on the board. *)
Theorem beam_search_threat_spec :
  forall b start own dx dy,
    dx <> 0 \/ dy <> 0 ->
    let ray := ray_square start dx dy in
    exists k res,
      beam_search_threat b start own dx dy = Ok res /\
      (forall i, (1 <= i <= k)%nat -> free_square b (ray i)) /\
      ((square_in_bounds b (ray (S k)) = false /\ res = map ray (seq 1 k)) \/
       (exists occupant,
          square_in_bounds b (ray (S k)) = true /\
          get_piece b (ray (S k)) = Some occupant /\
          color occupant <> own /\
          res = map ray (seq 1 k) ++ [ray (S k)]) \/
       (exists occupant,
          square_in_bounds b (ray (S k)) = true /\
          get_piece b (ray (S k)) = Some occupant /\
          color occupant = own /\
          res = map ray (seq 1 k))) /\
      ((forall i, (1 <= i)%nat -> get_piece b (ray i) = None) ->
       res = map ray (seq 1 k) /\
       square_in_bounds b (ray (S k)) = false /\
       (square_in_bounds b start = true ->
        forall i, (1 <= i)%nat ->
          (square_in_bounds b (ray i) = true <-> (i <= k)%nat))).
Proof.
  intros b start own dx dy Hdir ray.
  destruct (beam_search_threat_total b start own dx dy Hdir) as [res Hres].
  assert (Hloop := Hres). unfold beam_search_threat in Hloop.
  replace (x_coord start + dx) with (x_coord (ray_square start dx dy 1))
    in Hloop by (unfold ray_square, probe_square; cbn [x_coord]; lia).
  replace (y_coord start + dy) with (y_coord (ray_square start dx dy 1))
    in Hloop by (unfold ray_square, probe_square; cbn [y_coord]; lia).
  apply beam_loop_ok in Hloop.
  destruct Hloop as [k' [Hle [Hfree [Hstop Heq]]]].
  fold ray in Hfree, Hstop, Heq. cbn [app] in Heq.
  exists (k' - 1)%nat, res.
  replace (S (k' - 1)) with k' by lia.
  assert (Hcases :
    (square_in_bounds b (ray k') = false /\ res = map ray (seq 1 (k' - 1))) \/
    (exists occupant,
       square_in_bounds b (ray k') = true /\
       get_piece b (ray k') = Some occupant /\
       color occupant <> own /\
       res = map ray (seq 1 (k' - 1)) ++ [ray k']) \/
    (exists occupant,
       square_in_bounds b (ray k') = true /\
       get_piece b (ray k') = Some occupant /\
       color occupant = own /\
       res = map ray (seq 1 (k' - 1)))).
  { destruct (square_in_bounds b (ray k')) eqn:Hin.
    - right. unfold ray_stop in Heq.
      destruct (get_piece b (ray k')) as [occupant|] eqn:Hocc;
        [|exfalso; exact (Hstop eq_refl eq_refl)].
      destruct (color_eqb (color occupant) own) eqn:Hcol; cbn [negb] in Heq.
      + right. exists occupant. apply color_eqb_eq in Hcol.
        rewrite app_nil_r in Heq. auto.
      + left. exists occupant. apply color_eqb_neq in Hcol. auto.
    - left. rewrite app_nil_r in Heq. auto. }
  split; [exact Hres|]. split; [|split; [exact Hcases|]].
  - intros i Hi. apply Hfree. lia.
  - intros Hempty.
    assert (Hout : square_in_bounds b (ray k') = false).
    { destruct Hcases as [[H _]|[[o [_ [H _]]]|[o [_ [H _]]]]];
        [exact H | |]; rewrite (Hempty k' Hle) in H; discriminate. }
    split; [|split; [exact Hout|]].
    + destruct Hcases as [[_ H]|[[o [H _]]|[o [H _]]]];
        [exact H | |]; rewrite Hout in H; discriminate.
    + intros Hstart i Hi. split.
      * intros Hin. destruct (le_lt_dec k' i) as [Hge|Hlt]; [|lia].
        unfold ray in Hin, Hout.
        rewrite (ray_leaves_for_good b start dx dy k' i Hstart Hout Hge) in Hin.
        discriminate.
      * intros Hik. apply Hfree. lia.
Qed.

Lemma beam_search_threat_spec_witness :
  (1 <> 0 \/ 0 <> 0) /\
  exists res,
    beam_search_threat (board ChessGame_init) (mkPos 3 3) WHITE 1 0 = Ok res /\
    List.length res = 4%nat.
Proof.
  assert (Hdir : 1 <> 0 \/ 0 <> 0) by (left; discriminate).
  split; [exact Hdir|].
  destruct (beam_search_threat_spec (board ChessGame_init) (mkPos 3 3)
              WHITE 1 0 Hdir) as [k [res [Hres _]]].
  exists res. split; [exact Hres|].
  vm_compute in Hres. injection Hres as <-. reflexivity.
Defined.

(** ** The piece rules always return *)

Lemma beam_scan_total b p increments :
  Forall (fun increment => fst increment <> 0 \/ snd increment <> 0)
         increments ->
  exists l, beam_scan b p increments = Ok l.
Proof.
  induction 1 as [|increment rest Hdir _ IH]; cbn [beam_scan]; [eauto|].
  destruct (beam_search_threat_total b (position p) (color p) _ _ Hdir)
    as [ray ->].
  destruct IH as [l ->]. cbn [bind]. eauto.
Qed.

Ltac nonzero_increments :=
  repeat constructor; cbn [fst snd]; lia.

Lemma get_threatened_positions_total p b :
  exists l, get_threatened_positions p b = Ok l.
Proof.
  unfold get_threatened_positions. destruct (kind p).
  - eexists. reflexivity.
  - apply beam_scan_total. unfold Queen_BEAM_INCREMENTS. nonzero_increments.
  - eexists. reflexivity.
  - apply beam_scan_total. unfold Rook_BEAM_INCREMENTS. nonzero_increments.
  - apply beam_scan_total. unfold Bishop_BEAM_INCREMENTS. nonzero_increments.
  - eexists. reflexivity.
Qed.

Lemma get_moveable_positions_total p b :
  exists l, get_moveable_positions p b = Ok l.
Proof.
  unfold get_moveable_positions.
  destruct (kind p) eqn:Hkind;
    try (destruct (get_threatened_positions_total p b) as [l Hl];
         exists l; unfold get_threatened_positions in *; rewrite Hkind in *;
         exact Hl).
  eexists. reflexivity.
Qed.

(** ** Validation *)

Lemma wrong_color_side st side c :
  side_to_move st = Some side ->
  wrong_color st c = negb (color_eqb c side).
Proof. destruct st, c; simpl; intros H; inversion H; reflexivity. Qed.

Lemma position_in_some k l :
  position_in (Some k) l = Ok (existsb (fun q => pos_eqb q k) l).
Proof. reflexivity. Qed.

(** The scan of [_try_move] answers [false] when some piece of the list
    threatens the square of the mover's king. *)
Lemma king_scan_hit st sim side king attacker th :
  side_to_move st = Some side ->
  king_position sim side = Some king ->
  get_threatened_positions attacker sim = Ok th ->
  In king th ->
  forall l, In attacker l -> king_scan st sim l = Ok false.
Proof.
  intros Hside Hking Hth Hhit. induction l as [|piece rest IH]; [intros []|].
  intros Hin. cbn [king_scan].
  destruct (get_threatened_positions_total piece sim) as [th' Hth'].
  assert (Hstep :
    (threatened <- get_threatened_positions piece sim ;;
     hit <- position_in (king_position sim side) threatened ;;
     if hit then Ok false else king_scan st sim rest) = Ok false).
  { rewrite Hth', Hking. cbn [bind]. rewrite position_in_some. cbn [bind].
    destruct (existsb _ th') eqn:Hex; [reflexivity|].
    destruct Hin as [->|Hin]; [|exact (IH Hin)].
    exfalso. apply existsb_pos_In in Hhit. congruence. }
  destruct st; cbn in Hside; inversion Hside; subst side; exact Hstep.
Qed.

(** The scan answers [true] only when no piece of the list threatens the
    square of the mover's king. *)
Lemma king_scan_true st sim side :
  side_to_move st = Some side ->
  forall l, king_scan st sim l = Ok true ->
  forall q th king,
    In q l -> get_threatened_positions q sim = Ok th ->
    king_position sim side = Some king -> ~ In king th.
Proof.
  intros Hside. induction l as [|piece rest IH]; [intros _ q th king []|].
  intros Hscan q th king Hin Hth Hking Hhit.
  assert (Hstep :
    (threatened <- get_threatened_positions piece sim ;;
     hit <- position_in (king_position sim side) threatened ;;
     if hit then Ok false else king_scan st sim rest) = Ok true).
  { destruct st; cbn in Hside; inversion Hside; subst side; exact Hscan. }
  destruct (get_threatened_positions_total piece sim) as [th' Hth'].
  rewrite Hth', Hking in Hstep. cbn [bind] in Hstep.
  rewrite position_in_some in Hstep. cbn [bind] in Hstep.
  destruct (existsb _ th') eqn:Hex; [discriminate|].
  destruct Hin as [->|Hin].
  - apply existsb_pos_In in Hhit. congruence.
  - exact (IH Hstep q th king Hin Hth Hking Hhit).
Qed.

Lemma dst_unreachable_false p b c :
  (exists l, get_moveable_positions p b = Ok l /\ In (dst c) l) \/
  (exists l, get_threatened_positions p b = Ok l /\ In (dst c) l) ->
  dst_unreachable p b c = Ok false.
Proof.
  unfold dst_unreachable.
  destruct (get_moveable_positions_total p b) as [mv Hmv].
  destruct (get_threatened_positions_total p b) as [th Hth].
  rewrite Hmv. cbn [bind].
  destruct (existsb _ mv) eqn:Hex; cbn [negb]; [reflexivity|].
  rewrite Hth. cbn [bind].
  intros [[l [Hl Hin]]|[l [Hl Hin]]].
  - apply existsb_pos_In in Hin. congruence.
  - apply existsb_pos_In in Hin. replace th with l by congruence.
    rewrite Hin. reflexivity.
Qed.

Lemma dst_unreachable_true p b c mv th :
  get_moveable_positions p b = Ok mv ->
  get_threatened_positions p b = Ok th ->
  ~ In (dst c) mv -> ~ In (dst c) th ->
  dst_unreachable p b c = Ok true.
Proof.
  intros Hmv Hth Hnmv Hnth. unfold dst_unreachable. rewrite Hmv. cbn [bind].
  destruct (existsb _ mv) eqn:Hex.
  - apply existsb_pos_In in Hex. contradiction.
  - cbn [negb]. rewrite Hth. cbn [bind].
    destruct (existsb _ th) eqn:Hex'; [|reflexivity].
    apply existsb_pos_In in Hex'. contradiction.
Qed.

Lemma dst_unreachable_inv p b c :
  dst_unreachable p b c = Ok false ->
  (exists l, get_moveable_positions p b = Ok l /\ In (dst c) l) \/
  (exists l, get_threatened_positions p b = Ok l /\ In (dst c) l).
Proof.
  unfold dst_unreachable.
  destruct (get_moveable_positions_total p b) as [mv Hmv].
  destruct (get_threatened_positions_total p b) as [th Hth].
  rewrite Hmv. cbn [bind].
  destruct (existsb _ mv) eqn:Hex; cbn [negb].
  - intros _. left. exists mv. split; [reflexivity|].
    apply existsb_pos_In. exact Hex.
  - rewrite Hth. cbn [bind].
    destruct (existsb _ th) eqn:Hex'; cbn [negb]; [|discriminate].
    intros _. right. exists th. split; [reflexivity|].
    apply existsb_pos_In. exact Hex'.
Qed.

(** The facts that an accepted request has passed. *)
Lemma try_move_true_inv g c :
  try_move g c = Ok true ->
  exists src_piece sim,
    get_piece (board g) (src c) = Some src_piece /\
    wrong_color (status g) (color src_piece) = false /\
    dst_unreachable src_piece (board g) c = Ok false /\
    execute_move (board g) c = Ok sim /\
    king_scan (status g) sim (pieces sim) = Ok true.
Proof.
  unfold try_move, deepcopy.
  destruct (get_piece (board g) (src c)) as [sp|]; [|discriminate].
  destruct (wrong_color (status g) (color sp)) eqn:Hcol; [discriminate|].
  destruct (dst_unreachable sp (board g) c) as [[|]| |] eqn:Hdst;
    cbn [bind]; try discriminate.
  destruct (execute_move (board g) c) as [sim| |] eqn:Hex;
    cbn [bind]; try discriminate.
  intros Hscan. exists sp, sim. auto.
Qed.

(** A request that would leave the mover's king threatened is refused. *)
Lemma try_move_self_check g c src_piece sim side king attacker th :
  get_piece (deepcopy (board g)) (src c) = Some src_piece ->
  side_to_move (status g) = Some side ->
  execute_move (deepcopy (board g)) c = Ok sim ->
  king_position sim side = Some king ->
  In attacker (pieces sim) ->
  get_threatened_positions attacker sim = Ok th ->
  In king th ->
  try_move g c = Ok false.
Proof.
  unfold deepcopy. intros Hsrc Hside Hex Hking Hatt Hth Hhit.
  unfold try_move, deepcopy. rewrite Hsrc.
  destruct (wrong_color (status g) (color src_piece)); [reflexivity|].
  destruct (dst_unreachable src_piece (board g) c) as [[|]| |] eqn:Hdst;
    cbn [bind]; try reflexivity.
  - rewrite Hex. cbn [bind].
    exact (king_scan_hit _ _ _ _ _ _ Hside Hking Hth Hhit _ Hatt).
  - unfold dst_unreachable in Hdst.
    destruct (get_moveable_positions_total src_piece (board g)) as [mv Hmv].
    destruct (get_threatened_positions_total src_piece (board g)) as [t Ht].
    rewrite Hmv in Hdst. cbn [bind] in Hdst.
    destruct (negb _); [rewrite Ht in Hdst|]; discriminate.
  - unfold dst_unreachable in Hdst.
    destruct (get_moveable_positions_total src_piece (board g)) as [mv Hmv].
    destruct (get_threatened_positions_total src_piece (board g)) as [t Ht].
    rewrite Hmv in Hdst. cbn [bind] in Hdst.
    destruct (negb _); [rewrite Ht in Hdst|]; discriminate.
Qed.

Lemma run_command_rejected g c :
  try_move g c = Ok false -> run_command g (Some c) = Ok g.
Proof. intros H. unfold run_command. rewrite H. reflexivity. Qed.

(** A round that returns either leaves the game as it was or has validated
    the request and executed it once on the live board. *)
Lemma run_command_inv g command g' :
  run_command g command = Ok g' ->
  g' = g \/
  exists c moved_board,
    command = Some c /\
    try_move g c = Ok true /\
    execute_move (board g) c = Ok moved_board /\
    g' = mkGame (finished g) moved_board (next_status (status g)).
Proof.
  unfold run_command. destruct command as [c|].
  - destruct (try_move g c) as [[|]| |] eqn:Htry; cbn [bind negb];
      try discriminate.
    + destruct (execute_move (board g) c) as [moved_board| |] eqn:Hex;
        cbn [bind]; try discriminate.
      intros H. injection H as <-. right. exists c, moved_board. auto.
    + intros H. injection H as <-. auto.
  - intros H. injection H as <-. auto.
Qed.

Lemma reachable_side g :
  reachable g -> exists side, side_to_move (status g) = Some side.
Proof.
  induction 1 as [|g command g' _ [side Hside] Hrun].
  - exists WHITE. reflexivity.
  - apply run_command_inv in Hrun.
    destruct Hrun as [->|[c [mb [_ [_ [_ ->]]]]]]; [eauto|].
    cbn [status]. destruct (status g); try discriminate; cbn; eauto.
Qed.

(** The rounds of [run] on lines of input stay within [reachable]. *)
Lemma run_reachable lines :
  forall g g', reachable g -> run g lines = Ok g' -> reachable g'.
Proof.
  induction lines as [|input_ rest IH]; intros g g' Hg; cbn [run].
  - intros H. injection H as <-. exact Hg.
  - unfold run_iteration.
    destruct (MoveCommand_from_string input_) as [command| |]; cbn [bind];
      try discriminate.
    destruct (run_command g command) as [g1| |] eqn:Hrun; cbn [bind];
      try discriminate.
    apply IH. exact (reachable_step g command g1 Hg Hrun).
Qed.

Ltac in_list := vm_compute; repeat (first [left; reflexivity | right]).

(** C1. Take a request whose source piece exists on the simulation copy and
    has the colour of the side to move, and whose destination is among the
    piece's moveable or threatened squares.  If on the copy, after the move,
    some piece's threatened squares contain the square recorded for the
    mover's king, validation answers no and the round leaves the game,
    live board included, as it was. *)
Theorem self_check_rejected :
  forall g c src_piece side sim king attacker th,
    get_piece (deepcopy (board g)) (src c) = Some src_piece ->
    side_to_move (status g) = Some side ->
    color src_piece = side ->
    ((exists l, get_moveable_positions src_piece (deepcopy (board g)) = Ok l
                /\ In (dst c) l) \/
     (exists l, get_threatened_positions src_piece (deepcopy (board g)) = Ok l
                /\ In (dst c) l)) ->
    execute_move (deepcopy (board g)) c = Ok sim ->
    king_position sim side = Some king ->
    In attacker (pieces sim) ->
    get_threatened_positions attacker sim = Ok th ->
    In king th ->
    try_move g c = Ok false /\ run_command g (Some c) = Ok g.
Proof.
  intros g c src_piece side sim king attacker th
         Hsrc Hside _ _ Hex Hking Hatt Hth Hhit.
  assert (Htry : try_move g c = Ok false)
    by (eapply try_move_self_check; eassumption).
  split; [exact Htry | exact (run_command_rejected g c Htry)].
Qed.

Lemma self_check_rejected_witness :
  exists g,
    run ChessGame_init ["e2 d3"%string; "e7 d6"%string] = Ok g /\
    try_move g (mkMove (mkPos 0 1) (mkPos 0 2)) = Ok false /\
    run_command g (Some (mkMove (mkPos 0 1) (mkPos 0 2))) = Ok g.
Proof.
  eexists. split; [vm_compute; reflexivity|].
  eapply (self_check_rejected _ (mkMove (mkPos 0 1) (mkPos 0 2))
            (mkPiece PAWN (mkPos 0 1) WHITE false) WHITE _ (mkPos 4 0)
            (mkPiece QUEEN (mkPos 4 7) BLACK false)).
  - vm_compute. reflexivity.
  - vm_compute. reflexivity.
  - reflexivity.
  - left. eexists. split; [vm_compute; reflexivity|]. in_list.
  - vm_compute. reflexivity.
  - vm_compute. reflexivity.
  - in_list.
  - vm_compute. reflexivity.
  - in_list.
Defined.

(** ** The placement invariant *)

Lemma delete_first_at_positions d l x :
  In x (map position (delete_first_at d l)) -> In x (map position l).
Proof.
  rewrite !in_map_iff. intros [q [Hq Hin]]. exists q. split; [exact Hq|].
  eapply delete_first_at_incl; eassumption.
Qed.

Lemma delete_first_at_NoDup d l :
  NoDup (map position l) ->
  NoDup (map position (delete_first_at d l)) /\
  ~ In d (map position (delete_first_at d l)).
Proof.
  induction l as [|a l IH]; cbn [delete_first_at map]; intros Hnd.
  - split; [constructor | intros []].
  - inversion Hnd as [|x xs Hnotin Hnd']; subst.
    destruct (pos_eqb (position a) d) eqn:Had.
    + apply pos_eqb_eq in Had. subst d. auto.
    + apply pos_eqb_neq in Had. destruct (IH Hnd') as [IH1 IH2].
      cbn [map]. split.
      * constructor; [|exact IH1]. intros Hin. apply Hnotin.
        eapply delete_first_at_positions; eassumption.
      * intros [Heq|Hin]; [exact (Had Heq) | exact (IH2 Hin)].
Qed.

Lemma update_first_at_positions s d l x :
  In x (map position (update_first_at s (fun piece => move piece d) l)) ->
  In x (map position l) \/ x = d.
Proof.
  induction l as [|a l IH]; cbn [update_first_at map]; [tauto|].
  destruct (pos_eqb (position a) s); cbn [map In].
  - cbn [move position]. intuition.
  - intuition.
Qed.

Lemma update_first_at_NoDup s d l :
  NoDup (map position l) -> ~ In d (map position l) ->
  NoDup (map position (update_first_at s (fun piece => move piece d) l)).
Proof.
  induction l as [|a l IH]; cbn [update_first_at map]; intros Hnd Hd.
  - constructor.
  - inversion Hnd as [|x xs Hnotin Hnd']; subst.
    cbn [In] in Hd.
    destruct (pos_eqb (position a) s); cbn [map].
    + cbn [move position]. constructor; [tauto | exact Hnd'].
    + constructor; [|apply IH; tauto].
      intros Hin. apply update_first_at_positions in Hin.
      destruct Hin as [Hin|Heq]; [exact (Hnotin Hin) | tauto].
Qed.

(** A move that returns keeps the squares of the pieces distinct. *)
Lemma execute_move_NoDup b c b' :
  execute_move b c = Ok b' ->
  NoDup (map position (pieces b)) -> NoDup (map position (pieces b')).
Proof.
  intros Hex Hnd.
  destruct (execute_move_pieces b c b' Hex) as [sp [_ ->]].
  destruct (delete_first_at_NoDup (dst c) (pieces b) Hnd) as [H1 H2].
  destruct (pos_eqb (src c) (dst c)); [exact H1|].
  apply update_first_at_NoDup; assumption.
Qed.

Lemma NoDup_positions_occupants l sq :
  NoDup (map position l) ->
  (List.length (filter (fun piece => pos_eqb (position piece) sq) l) <= 1)%nat.
Proof.
  induction l as [|a l IH]; cbn [map filter]; intros Hnd; [cbn; lia|].
  inversion Hnd as [|x xs Hnotin Hnd']; subst.
  destruct (pos_eqb (position a) sq) eqn:Ha; [|exact (IH Hnd')].
  apply pos_eqb_eq in Ha. subst sq.
  assert (Hnone : filter (fun piece => pos_eqb (position piece) (position a)) l
                  = []).
  { destruct (filter _ l) as [|q qs] eqn:Hf; [reflexivity|]. exfalso.
    assert (Hq : In q (filter
                  (fun piece => pos_eqb (position piece) (position a)) l))
      by (rewrite Hf; left; reflexivity).
    apply filter_In in Hq. destruct Hq as [Hq Heq].
    apply pos_eqb_eq in Heq. apply Hnotin. rewrite <- Heq.
    apply in_map. exact Hq. }
  rewrite Hnone. cbn. lia.
Qed.

Lemma ChessGame_init_NoDup :
  NoDup (map position (pieces (board ChessGame_init))).
Proof.
  vm_compute.
  repeat (constructor;
          [cbn [In]; intros H;
           repeat (destruct H as [H|H]; [discriminate H|]); exact H|]).
  constructor.
Qed.

Lemma reachable_NoDup g :
  reachable g -> NoDup (map position (pieces (board g))).
Proof.
  induction 1 as [|g command g' _ IH Hrun].
  - exact ChessGame_init_NoDup.
  - apply run_command_inv in Hrun.
    destruct Hrun as [->|[c [mb [_ [_ [Hex ->]]]]]]; [exact IH|].
    cbn [board]. exact (execute_move_NoDup (board g) c mb Hex IH).
Qed.

(** C4. In every game reachable from the opening position no square holds
    two pieces: the squares of the pieces on the board are pairwise
    distinct. *)
Theorem reachable_one_piece_per_square :
  forall g,
    reachable g ->
    one_piece_per_square (board g) /\
    NoDup (map position (pieces (board g))).
Proof.
  intros g Hreach. pose proof (reachable_NoDup g Hreach) as Hnd.
  split; [|exact Hnd].
  intros sq. unfold occupants. apply NoDup_positions_occupants. exact Hnd.
Qed.

Lemma reachable_one_piece_per_square_witness :
  exists g,
    run ChessGame_init ["e2 e4"%string; "d7 d5"%string; "e4 d5"%string]
      = Ok g /\
    List.length (pieces (board g)) = 31%nat /\
    one_piece_per_square (board g).
Proof.
  eexists. split; [vm_compute; reflexivity|]. split; [reflexivity|].
  apply reachable_one_piece_per_square.
  apply (run_reachable ["e2 e4"%string; "d7 d5"%string; "e4 d5"%string]
           ChessGame_init); [constructor|].
  vm_compute. reflexivity.
Defined.

(** ** Squares that a piece threatens are never held by its own side *)

Lemma beam_search_threat_ok b start own dx dy res :
  beam_search_threat b start own dx dy = Ok res ->
  forall q, In q res ->
    free_square b q \/
    exists occupant, get_piece b q = Some occupant /\ color occupant <> own.
Proof.
  unfold beam_search_threat. intros Hloop.
  replace (x_coord start + dx) with (x_coord (ray_square start dx dy 1))
    in Hloop by (unfold ray_square, probe_square; cbn [x_coord]; lia).
  replace (y_coord start + dy) with (y_coord (ray_square start dx dy 1))
    in Hloop by (unfold ray_square, probe_square; cbn [y_coord]; lia).
  apply beam_loop_ok in Hloop.
  destruct Hloop as [k [_ [Hfree [_ ->]]]]. cbn [app].
  intros q Hq. apply in_app_or in Hq. destruct Hq as [Hq|Hq].
  - apply in_map_iff in Hq. destruct Hq as [i [<- Hi]].
    apply in_seq in Hi. left. apply Hfree. lia.
  - right. destruct (square_in_bounds b _); [|destruct Hq].
    unfold ray_stop in Hq.
    destruct (get_piece b (ray_square start dx dy k)) as [occupant|] eqn:Hocc;
      [|destruct Hq].
    destruct (color_eqb (color occupant) own) eqn:Hcol; cbn [negb] in Hq;
      [destruct Hq|].
    destruct Hq as [<-|[]]. exists occupant. apply color_eqb_neq in Hcol. auto.
Qed.

Lemma beam_scan_in b p increments :
  forall l q,
    beam_scan b p increments = Ok l -> In q l ->
    free_square b q \/
    exists occupant,
      get_piece b q = Some occupant /\ color occupant <> color p.
Proof.
  induction increments as [|increment rest IH]; cbn [beam_scan]; intros l q.
  - intros H. injection H as <-. intros [].
  - destruct (beam_search_threat b (position p) (color p) _ _)
      as [ray| |] eqn:Hray; cbn [bind]; try discriminate.
    destruct (beam_scan b p rest) as [l'| |]; cbn [bind]; try discriminate.
    intros H. injection H as <-. intros Hq. apply in_app_or in Hq.
    destruct Hq as [Hq|Hq].
    + exact (beam_search_threat_ok _ _ _ _ _ _ Hray q Hq).
    + exact (IH l' q eq_refl Hq).
Qed.

Lemma spot_scan_in b p increments q :
  In q (drop_none (spot_scan b p increments)) ->
  free_square b q \/
  exists occupant, get_piece b q = Some occupant /\ color occupant <> color p.
Proof.
  rewrite in_drop_none. unfold spot_scan. rewrite in_map_iff.
  intros [increment [Hq _]]. apply spot_search_threat_some in Hq.
  destruct Hq as [_ [Hin Hocc]]. unfold free_square.
  destruct (get_piece b q) as [occupant|]; [right | left; auto].
  exists occupant. tauto.
Qed.

Lemma pawn_scan_in b p increments threat_only free_only q :
  In q (drop_none (pawn_scan b p increments threat_only free_only)) ->
  free_square b q \/
  exists occupant, get_piece b q = Some occupant /\ color occupant <> color p.
Proof.
  rewrite in_drop_none. unfold pawn_scan. rewrite in_map_iff.
  intros [increment [Hq _]]. apply spot_search_threat_some in Hq.
  destruct Hq as [_ [Hin Hocc]]. unfold free_square.
  destruct (get_piece b q) as [occupant|]; [right | left; auto].
  exists occupant. tauto.
Qed.

(** A threatened square is free or held by the other side. *)
Lemma threatened_not_own p b th q :
  get_threatened_positions p b = Ok th -> In q th ->
  free_square b q \/
  exists occupant, get_piece b q = Some occupant /\ color occupant <> color p.
Proof.
  unfold get_threatened_positions.
  destruct (kind p); intros Hth Hq.
  - apply Ok_inj in Hth. subst th. exact (spot_scan_in _ _ _ _ Hq).
  - exact (beam_scan_in _ _ _ _ _ Hth Hq).
  - apply Ok_inj in Hth. subst th. exact (spot_scan_in _ _ _ _ Hq).
  - exact (beam_scan_in _ _ _ _ _ Hth Hq).
  - exact (beam_scan_in _ _ _ _ _ Hth Hq).
  - apply Ok_inj in Hth. subst th. exact (pawn_scan_in _ _ _ _ _ _ Hq).
Qed.

(** An occupied moveable square is also a threatened square. *)
Lemma moveable_occupied_threatened p b mv q occupant :
  get_moveable_positions p b = Ok mv -> In q mv ->
  get_piece b q = Some occupant ->
  exists th, get_threatened_positions p b = Ok th /\ In q th.
Proof.
  unfold get_moveable_positions. intros Hmv Hq Hocc.
  destruct (kind p) eqn:Hkind; try (exists mv; split; assumption).
  apply Ok_inj in Hmv. subst mv. apply Pawn_moveable_in in Hq.
  unfold get_threatened_positions. rewrite Hkind.
  eexists. split; [reflexivity|]. apply in_drop_none.
  unfold pawn_scan, Pawn_SPOT_INCREMENTS_TAKE. cbn [map In fst snd].
  rewrite !pawn_dy_forward.
  replace (forward (color p) * 1) with (forward (color p)) by lia.
  assert (Hfree : ~ free_square b q)
    by (intros [_ Hnone]; congruence).
  destruct Hq as [[_ Hf]|[[_ [_ Hf]]|[Hdiag [Hin [o [Ho Hcol]]]]]];
    try contradiction.
  assert (Hprobe : forall dx,
            q = probe_square (position p) dx (forward (color p)) ->
            spot_search_threat b (position p) (color p) dx
              (forward (color p)) false false = Some q).
  { intros dx Hdx. apply spot_search_threat_some.
    split; [exact Hdx|]. split; [exact Hin|]. rewrite Ho. auto. }
  destruct Hdiag as [Hd|Hd]; [left | right; left]; apply Hprobe; exact Hd.
Qed.

(** ** Pieces on a board with distinct squares *)

Lemma NoDup_positions_eq l p q :
  NoDup (map position l) -> In p l -> In q l ->
  position p = position q -> p = q.
Proof.
  induction l as [|a l IH]; cbn [map In]; [tauto|].
  intros Hnd Hp Hq Heq. inversion Hnd as [|x xs Hnotin Hnd']; subst.
  destruct Hp as [->|Hp], Hq as [->|Hq]; auto.
  - exfalso. apply Hnotin. rewrite Heq. apply in_map. exact Hq.
  - exfalso. apply Hnotin. rewrite <- Heq. apply in_map. exact Hp.
Qed.

Lemma get_piece_of_in b p :
  NoDup (map position (pieces b)) -> In p (pieces b) ->
  get_piece b (position p) = Some p.
Proof.
  intros Hnd Hin. destruct (get_piece b (position p)) as [q|] eqn:Hget.
  - destruct (get_piece_position b _ q Hget) as [Hpos Hq].
    f_equal. apply (NoDup_positions_eq (pieces b)); assumption.
  - exfalso. rewrite get_piece_none in Hget. exact (Hget p Hin eq_refl).
Qed.

Lemma delete_first_at_in_iff d l q :
  NoDup (map position l) ->
  (In q (delete_first_at d l) <-> In q l /\ position q <> d).
Proof.
  induction l as [|a l IH]; cbn [delete_first_at map In]; intros Hnd;
    [tauto|].
  inversion Hnd as [|x xs Hnotin Hnd']; subst.
  destruct (pos_eqb (position a) d) eqn:Had.
  - apply pos_eqb_eq in Had. subst d. split.
    + intros Hq. split; [auto|]. intros Heq. apply Hnotin.
      rewrite <- Heq. apply in_map. exact Hq.
    + intros [[->|Hq] Hne]; [congruence | exact Hq].
  - apply pos_eqb_neq in Had. cbn [In]. rewrite (IH Hnd'). split.
    + intros [->|[Hq Hne]]; auto.
    + intros [[->|Hq] Hne]; auto.
Qed.

Lemma update_first_at_in_iff s f l q :
  NoDup (map position l) ->
  (In q (update_first_at s f l) <->
   (In q l /\ position q <> s) \/
   (exists p, find (fun piece => pos_eqb (position piece) s) l = Some p /\
              q = f p)).
Proof.
  induction l as [|a l IH]; cbn [update_first_at map In find]; intros Hnd.
  - split; [tauto|]. intros [[H _]|[p [H _]]]; [destruct H | discriminate].
  - inversion Hnd as [|x xs Hnotin Hnd']; subst.
    destruct (pos_eqb (position a) s) eqn:Has.
    + apply pos_eqb_eq in Has. subst s. cbn [In]. split.
      * intros [<-|Hq]; [right; exists a; auto|].
        left. split; [auto|]. intros Heq. apply Hnotin.
        rewrite <- Heq. apply in_map. exact Hq.
      * intros [[[->|Hq] Hne]|[p [Hp ->]]]; [congruence | auto |].
        injection Hp as <-. auto.
    + apply pos_eqb_neq in Has. cbn [In]. rewrite (IH Hnd'). split.
      * intros [->|[[Hq Hne]|Hex]]; auto.
      * intros [[[->|Hq] Hne]|Hex]; auto.
Qed.

(** The pieces on the board after a move between two different squares:
    those that stood on neither square, and the relocated source piece. *)
Lemma execute_move_in_iff b c b' source_piece q :
  NoDup (map position (pieces b)) ->
  get_piece b (src c) = Some source_piece ->
  src c <> dst c ->
  execute_move b c = Ok b' ->
  (In q (pieces b') <->
   (In q (pieces b) /\ position q <> dst c /\ position q <> src c) \/
   q = move source_piece (dst c)).
Proof.
  intros Hnd Hsp Hsd Hex.
  destruct (execute_move_pieces b c b' Hex) as [sp [Hsp' ->]].
  replace sp with source_piece in * by congruence.
  apply pos_eqb_neq in Hsd. rewrite Hsd.
  destruct (delete_first_at_NoDup (dst c) (pieces b) Hnd) as [Hnd' _].
  rewrite (update_first_at_in_iff _ _ _ _ Hnd').
  rewrite (find_delete_first_at_other _ _ _ Hsd).
  rewrite (delete_first_at_in_iff _ _ _ Hnd).
  unfold get_piece in Hsp. rewrite Hsp. split.
  - intros [[[Hq Hd] Hs]|[p [Hp ->]]]; [left; auto|].
    right. congruence.
  - intros [[Hq [Hd Hs]]| ->]; [left; auto|].
    right. exists source_piece. auto.
Qed.

(** The king index after a move: the entry of the colour of a moved king
    becomes the destination, every other entry stays. *)
Lemma execute_move_king_position b c b' source_piece col :
  execute_move b c = Ok b' ->
  get_piece b (src c) = Some source_piece ->
  king_position b' col =
    if is_king (kind source_piece) && color_eqb (color source_piece) col
    then Some (dst c)
    else king_position b col.
Proof.
  unfold execute_move. intros Hex Hsp. rewrite Hsp in Hex.
  injection Hex as <-.
  destruct (is_king (kind source_piece)); cbn [andb]; [|reflexivity].
  destruct (color source_piece), col; reflexivity.
Qed.

(** ** The invariant of the game *)

Lemma other_involutive c : other (other c) = c.
Proof. destruct c; reflexivity. Qed.

Lemma other_of_neq c side : c <> side -> c = other side.
Proof. destruct c, side; simpl; congruence. Qed.

Lemma side_to_move_next st side :
  side_to_move st = Some side ->
  side_to_move (next_status st) = Some (other side).
Proof. destruct st; simpl; intros H; inversion H; reflexivity. Qed.

(** What validation has established about the destination square. *)
Lemma accepted_destination g c src_piece side :
  side_to_move (status g) = Some side ->
  get_piece (board g) (src c) = Some src_piece ->
  wrong_color (status g) (color src_piece) = false ->
  dst_unreachable src_piece (board g) c = Ok false ->
  color src_piece = side /\
  src c <> dst c /\
  forall occupant,
    get_piece (board g) (dst c) = Some occupant ->
    color occupant <> side /\
    exists th,
      get_threatened_positions src_piece (board g) = Ok th /\ In (dst c) th.
Proof.
  intros Hside Hsp Hwrong Hdst.
  assert (Hcol : color src_piece = side).
  { rewrite (wrong_color_side _ side _ Hside) in Hwrong.
    apply color_eqb_eq. destruct (color_eqb _ _); [reflexivity|discriminate]. }
  assert (Hocc : forall occupant,
            get_piece (board g) (dst c) = Some occupant ->
            color occupant <> side /\
            exists th,
              get_threatened_positions src_piece (board g) = Ok th /\
              In (dst c) th).
  { intros occupant Hoccupant.
    assert (Hth : exists th,
              get_threatened_positions src_piece (board g) = Ok th /\
              In (dst c) th).
    { apply dst_unreachable_inv in Hdst.
      destruct Hdst as [[mv [Hmv Hin]]|Hth]; [|exact Hth].
      exact (moveable_occupied_threatened _ _ _ _ _ Hmv Hin Hoccupant). }
    split; [|exact Hth]. destruct Hth as [th [Hth Hin]].
    destruct (threatened_not_own _ _ _ _ Hth Hin)
      as [[_ Hnone]|[o [Ho Hne]]]; congruence. }
  split; [exact Hcol|]. split; [|exact Hocc].
  intros Heq. rewrite <- Heq in Hocc.
  destruct (Hocc src_piece Hsp) as [Hne _]. exact (Hne Hcol).
Qed.

(** An accepted and executed request keeps the invariant. *)
Lemma game_inv_step g c moved_board :
  game_inv g ->
  try_move g c = Ok true ->
  execute_move (board g) c = Ok moved_board ->
  game_inv (mkGame (finished g) moved_board (next_status (status g))).
Proof.
  intros [side [Hside [Hnd [Hidx Hsafe]]]] Htry Hex.
  destruct (try_move_true_inv g c Htry)
    as [sp [sim [Hsp [Hwrong [Hdst [Hex' Hscan]]]]]].
  replace sim with moved_board in * by congruence. clear Hex'.
  destruct (get_piece_position _ _ _ Hsp) as [Hsp_pos Hsp_in].
  destruct (accepted_destination g c sp side Hside Hsp Hwrong Hdst)
    as [Hcol [Hsd Hocc]].
  pose proof (fun q => execute_move_in_iff (board g) c moved_board sp q
                         Hnd Hsp Hsd Hex) as Hmem.
  exists (other side). cbn [status board].
  split; [exact (side_to_move_next _ _ Hside)|].
  split; [exact (execute_move_NoDup _ _ _ Hex Hnd)|].
  split.
  - intros col.
    destruct (Hidx col) as [k [Hk_in [Hk_kind [Hk_col [Hk_idx Hk_uniq]]]]].
    unfold king_index_consistent.
    rewrite (execute_move_king_position _ _ _ sp col Hex Hsp).
    destruct (is_king (kind sp) && color_eqb (color sp) col) eqn:Hmoved.
    + apply andb_true_iff in Hmoved. destruct Hmoved as [Hking Hsame].
      apply color_eqb_eq in Hsame.
      assert (Hkind : kind sp = KING)
        by (destruct (kind sp); try discriminate; reflexivity).
      assert (Hsp_k : sp = k) by (apply Hk_uniq; assumption).
      exists (move sp (dst c)). split; [apply Hmem; auto|].
      split; [exact Hkind|]. split; [exact Hsame|]. split; [reflexivity|].
      intros k' Hin' Hkind' Hcol'. apply Hmem in Hin'.
      destruct Hin' as [[Hin' [_ Hns]]|Heq]; [|exact Heq].
      exfalso. apply Hns. rewrite (Hk_uniq k' Hin' Hkind' Hcol'), <- Hsp_k.
      exact Hsp_pos.
    + assert (Hnot_sp : ~ (kind sp = KING /\ color sp = col)).
      { intros [Hkind Hsame]. rewrite Hkind in Hmoved.
        apply color_eqb_eq in Hsame. rewrite Hsame in Hmoved. discriminate. }
      assert (Hns : position k <> src c).
      { intros Heq. apply Hnot_sp.
        assert (Hk_sp : k = sp)
          by (apply (NoDup_positions_eq (pieces (board g))); congruence).
        subst k. auto. }
      assert (Hnd' : position k <> dst c).
      { intros Heq.
        pose proof (get_piece_of_in (board g) k Hnd Hk_in) as Hget.
        rewrite Heq in Hget.
        destruct (Hocc k Hget) as [Hne [th [Hth Hin]]].
        assert (Hother : col = other side)
          by (apply other_of_neq; congruence).
        rewrite Hother in Hk_idx.
        apply (Hsafe sp th (position k) Hsp_in Hth Hk_idx).
        rewrite Heq. exact Hin. }
      exists k. split; [apply Hmem; auto|].
      split; [exact Hk_kind|]. split; [exact Hk_col|]. split; [exact Hk_idx|].
      intros k' Hin' Hkind' Hcol'. apply Hmem in Hin'.
      destruct Hin' as [[Hin' _]|Heq]; [exact (Hk_uniq k' Hin' Hkind' Hcol')|].
      exfalso. apply Hnot_sp. subst k'. cbn [move kind color] in *. auto.
  - rewrite other_involutive. intros q th k Hq Hth Hk.
    exact (king_scan_true (status g) moved_board side Hside
             (pieces moved_board) Hscan q th k Hq Hth Hk).
Qed.

Lemma singleton_unique {A : Type} (l : list A) (a x : A) :
  l = [a] -> In x l -> x = a.
Proof. intros -> [<-|[]]. reflexivity. Qed.

(** The index entry is right as soon as it holds the square of the only
    king of its colour that the list of pieces contains. *)
Lemma king_index_from_filter b c king :
  filter (fun piece => is_king (kind piece) && color_eqb (color piece) c)
         (pieces b) = [king] ->
  king_position b c = Some (position king) ->
  king_index_consistent b c.
Proof.
  intros Hfilter Hidx. exists king.
  assert (Hking : In king (filter
            (fun piece => is_king (kind piece) && color_eqb (color piece) c)
            (pieces b))) by (rewrite Hfilter; left; reflexivity).
  apply filter_In in Hking. destruct Hking as [Hin Hprop].
  apply andb_true_iff in Hprop. destruct Hprop as [Hkind Hcol].
  apply color_eqb_eq in Hcol.
  split; [exact Hin|].
  split; [destruct (kind king); try discriminate; reflexivity|].
  split; [exact Hcol|]. split; [exact Hidx|].
  intros k' Hin' Hkind' Hcol'. apply (singleton_unique _ _ _ Hfilter).
  apply filter_In. split; [exact Hin'|].
  rewrite Hkind'. cbn [is_king andb]. apply color_eqb_eq. exact Hcol'.
Qed.

Lemma ChessGame_init_king_index c :
  king_index_consistent (board ChessGame_init) c.
Proof.
  destruct c.
  - apply (king_index_from_filter _ _ (mkPiece KING (mkPos 4 0) WHITE false));
      vm_compute; reflexivity.
  - apply (king_index_from_filter _ _ (mkPiece KING (mkPos 3 7) BLACK false));
      vm_compute; reflexivity.
Qed.

Lemma ChessGame_init_inv : game_inv ChessGame_init.
Proof.
  exists WHITE. split; [reflexivity|]. split; [exact ChessGame_init_NoDup|].
  split; [exact ChessGame_init_king_index|].
  intros q th k Hq Hth Hk.
  apply (king_scan_true STATUS_BLACK_MOVE (board ChessGame_init) BLACK
           eq_refl (pieces (board ChessGame_init))) with (q := q);
    try assumption.
  vm_compute. reflexivity.
Qed.

Lemma reachable_inv g : reachable g -> game_inv g.
Proof.
  induction 1 as [|g command g' _ IH Hrun].
  - exact ChessGame_init_inv.
  - apply run_command_inv in Hrun.
    destruct Hrun as [->|[c [mb [_ [Htry [Hex ->]]]]]]; [exact IH|].
    exact (game_inv_step g c mb IH Htry Hex).
Qed.

(** C5. In every reachable game the king index of each colour holds the
    square of the one king of that colour on the board.  The entries are
    written when [_initialize_pieces] constructs the two kings and by no
    other piece type; a move changes the entry of a colour exactly when the
    moved piece is the king of that colour, and then to the destination. *)
Theorem king_index_tracks_king :
  forall g,
    reachable g ->
    (forall c, king_index_consistent (board g) c) /\
    (forall b x y,
       king_position (initialize_piece b (KING, x, y)) WHITE
       = Some (mkPos x y) /\
       king_position (initialize_piece b (KING, x, y)) BLACK
       = Some (mkPos (size b - x - 1) (size b - y - 1))) /\
    (forall b t x y c,
       t <> KING ->
       king_position (initialize_piece b (t, x, y)) c = king_position b c) /\
    (forall c moved_board source_piece col,
       execute_move (board g) c = Ok moved_board ->
       get_piece (board g) (src c) = Some source_piece ->
       king_position moved_board col =
         if is_king (kind source_piece) && color_eqb (color source_piece) col
         then Some (dst c)
         else king_position (board g) col).
Proof.
  intros g Hreach. split; [|split; [|split]].
  - destruct (reachable_inv g Hreach) as [side [_ [_ [Hidx _]]]]. exact Hidx.
  - intros b x y. split; reflexivity.
  - intros b t x y c Ht. destruct t; try congruence; destruct c; reflexivity.
  - intros c mb sp col Hex Hsp.
    exact (execute_move_king_position _ _ _ sp col Hex Hsp).
Qed.

Lemma king_index_tracks_king_witness :
  exists g,
    run ChessGame_init ["e2 e4"%string; "e7 e5"%string; "e1 e2"%string]
      = Ok g /\
    king_position (board g) WHITE = Some (mkPos 4 1) /\
    king_index_consistent (board g) WHITE.
Proof.
  eexists. split; [vm_compute; reflexivity|]. split; [reflexivity|].
  apply king_index_tracks_king.
  apply (run_reachable ["e2 e4"%string; "e7 e5"%string; "e1 e2"%string]
           ChessGame_init); [constructor|].
  vm_compute. reflexivity.
Defined.

(** ** Validation always answers on a game that satisfies the invariant *)

Lemma king_scan_total st sim side king :
  side_to_move st = Some side ->
  king_position sim side = Some king ->
  forall l, exists verdict, king_scan st sim l = Ok verdict.
Proof.
  intros Hside Hking. induction l as [|piece rest [verdict IH]];
    cbn [king_scan]; [eauto|].
  destruct (get_threatened_positions_total piece sim) as [th Hth].
  assert (Hstep : exists v,
    (threatened <- get_threatened_positions piece sim ;;
     hit <- position_in (king_position sim side) threatened ;;
     if hit then Ok false else king_scan st sim rest) = Ok v).
  { rewrite Hth, Hking. cbn [bind]. rewrite position_in_some. cbn [bind].
    destruct (existsb _ th); eauto. }
  destruct st; cbn in Hside; inversion Hside; subst side; exact Hstep.
Qed.

Lemma dst_unreachable_total p b c :
  exists verdict, dst_unreachable p b c = Ok verdict.
Proof.
  unfold dst_unreachable.
  destruct (get_moveable_positions_total p b) as [mv ->].
  destruct (get_threatened_positions_total p b) as [th ->].
  cbn [bind]. destruct (negb _); cbn [bind]; eauto.
Qed.

Lemma try_move_total g c :
  game_inv g -> exists verdict, try_move g c = Ok verdict.
Proof.
  intros [side [Hside [_ [Hidx _]]]]. unfold try_move, deepcopy.
  destruct (get_piece (board g) (src c)) as [sp|] eqn:Hsp; [|eauto].
  destruct (wrong_color (status g) (color sp)); [eauto|].
  destruct (dst_unreachable_total sp (board g) c) as [[|] ->]; cbn [bind];
    [eauto|].
  destruct (execute_move (board g) c) as [sim| |] eqn:Hex;
    try (unfold execute_move in Hex; rewrite Hsp in Hex; discriminate).
  cbn [bind].
  destruct (Hidx side) as [k [_ [_ [_ [Hk _]]]]].
  assert (Hking : exists king, king_position sim side = Some king).
  { rewrite (execute_move_king_position _ _ _ sp side Hex Hsp).
    destruct (_ && _); eauto. }
  destruct Hking as [king Hking].
  exact (king_scan_total (status g) sim side king Hside Hking (pieces sim)).
Qed.

Lemma run_command_total g c :
  game_inv g -> exists g', run_command g (Some c) = Ok g'.
Proof.
  intros Hinv. unfold run_command.
  destruct (try_move_total g c Hinv) as [[|] Htry]; rewrite Htry;
    cbn [bind negb]; [|eauto].
  destruct (try_move_true_inv g c Htry) as [sp [sim [_ [_ [_ [Hex _]]]]]].
  rewrite Hex. cbn [bind]. eauto.
Qed.

(** ** The scenarios of the specification, run on the opening position *)

(** Scenario A: e2 e4 is accepted, Black is to move, the pawn stands on e4
    and e2 is empty. *)
Example scenario_double_step :
  exists g,
    run ChessGame_init ["e2 e4"%string] = Ok g /\
    status g = STATUS_BLACK_MOVE /\
    get_piece (board g) (mkPos 4 3)
    = Some (mkPiece PAWN (mkPos 4 3) WHITE true) /\
    get_piece (board g) (mkPos 4 1) = None.
Proof.
  eexists. split; [vm_compute; reflexivity|]. repeat split.
Qed.

(** Scenario B: e7 e5 while White is to move is refused. *)
Example scenario_wrong_color :
  run ChessGame_init ["e7 e5"%string] = Ok ChessGame_init.
Proof. vm_compute. reflexivity. Qed.

(** * Further properties of the code *)

(** ** Text of positions and commands *)

Lemma ord_ascii_of_nat n :
  0 <= n < 256 -> ord (ascii_of_nat (Z.to_nat n)) = n.
Proof.
  intros Hn. unfold ord. rewrite nat_ascii_embedding by lia. lia.
Qed.

Lemma ord_digit_char d : 0 <= d < 10 -> ord (digit_char d) = 48 + d.
Proof. intros Hd. unfold digit_char. apply ord_ascii_of_nat. lia. Qed.

Lemma digit_value_digit_char d :
  0 <= d < 10 -> digit_value (digit_char d) = Some d.
Proof.
  intros Hd. unfold digit_value. rewrite (ord_digit_char d Hd).
  replace ((48 <=? 48 + d) && (48 + d <=? 57)) with true
    by (symmetry; apply andb_true_iff; split; apply Z.leb_le; lia).
  f_equal. lia.
Qed.

Lemma int_digits_digit d rest acc :
  0 <= d < 10 ->
  int_digits (String (digit_char d) rest) acc
  = int_digits rest (acc * 10 + d).
Proof.
  intros Hd. cbn [int_digits]. rewrite (digit_value_digit_char d Hd).
  reflexivity.
Qed.

(** Reading back the digits that [str_digits] writes. *)
Lemma str_digits_parse :
  forall fuel n tail acc,
    (0 < fuel)%nat -> 0 <= n < 2 ^ Z.of_nat fuel ->
    exists m,
      int_digits (str_digits fuel n tail) acc = int_digits tail (acc * m + n).
Proof.
  induction fuel as [|fuel IH]; intros n tail acc Hfuel Hn; [lia|].
  cbn [str_digits]. destruct (n <? 10) eqn:Hsmall.
  - apply Z.ltb_lt in Hsmall. exists 10. apply int_digits_digit. lia.
  - apply Z.ltb_ge in Hsmall.
    rewrite Nat2Z.inj_succ, Z.pow_succ_r in Hn by lia.
    assert (Hpos : (0 < fuel)%nat).
    { destruct fuel; [cbn in Hn; lia | lia]. }
    assert (Hdiv : 0 <= n / 10 < 2 ^ Z.of_nat fuel).
    { split; [apply Z.div_pos; lia|].
      apply Z.div_lt_upper_bound; lia. }
    destruct (IH (n / 10) (String (digit_char (n mod 10)) tail) acc Hpos Hdiv)
      as [m Hm].
    exists (m * 10). rewrite Hm.
    pose proof (Z.mod_pos_bound n 10 ltac:(lia)) as Hmod.
    rewrite (int_digits_digit (n mod 10) tail _ Hmod). f_equal.
    pose proof (Z_div_mod_eq_full n 10). lia.
Qed.

Lemma str_digits_head :
  forall fuel n tail,
    0 <= n ->
    (0 < fuel)%nat \/
    (exists d rest, 0 <= d < 10 /\ tail = String (digit_char d) rest) ->
    exists d rest,
      0 <= d < 10 /\ str_digits fuel n tail = String (digit_char d) rest.
Proof.
  induction fuel as [|fuel IH]; intros n tail Hn Hhead.
  - destruct Hhead as [Hfuel|Hhead]; [lia | exact Hhead].
  - cbn [str_digits]. destruct (n <? 10) eqn:Hsmall.
    + apply Z.ltb_lt in Hsmall. exists n, tail. split; [lia | reflexivity].
    + apply IH; [apply Z.div_pos; lia|]. right.
      exists (n mod 10), tail. split; [|reflexivity].
      apply Z.mod_pos_bound. lia.
Qed.

Lemma count_space_str_digits :
  forall fuel n tail,
    0 <= n -> count_space (str_digits fuel n tail) = count_space tail.
Proof.
  induction fuel as [|fuel IH]; intros n tail Hn; [reflexivity|].
  cbn [str_digits]. destruct (n <? 10) eqn:Hsmall.
  - apply Z.ltb_lt in Hsmall. cbn [count_space].
    rewrite ord_digit_char by lia.
    destruct (48 + n =? 32) eqn:E; [apply Z.eqb_eq in E; lia | reflexivity].
  - rewrite IH by (apply Z.div_pos; lia). cbn [count_space].
    pose proof (Z.mod_pos_bound n 10 ltac:(lia)) as Hmod.
    rewrite ord_digit_char by lia.
    destruct (48 + n mod 10 =? 32) eqn:E;
      [apply Z.eqb_eq in E; lia | reflexivity].
Qed.

Lemma log2_fuel n : 0 <= n -> 0 <= n < 2 ^ Z.of_nat (S (Z.to_nat (Z.log2 n))).
Proof.
  intros Hn. split; [exact Hn|].
  rewrite Nat2Z.inj_succ, Z2Nat.id by apply Z.log2_nonneg.
  destruct (Z.eq_dec n 0) as [->|Hne]; [reflexivity|].
  apply Z.log2_spec. lia.
Qed.

Lemma is_space_digit_char d :
  0 <= d < 10 -> is_space (digit_char d) = false.
Proof.
  intros Hd. unfold is_space. rewrite (ord_digit_char d Hd).
  destruct (9 <=? 48 + d) eqn:E1, (48 + d <=? 13) eqn:E2,
           (48 + d =? 32) eqn:E3, (48 + d =? 133) eqn:E4,
           (48 + d =? 160) eqn:E5; try reflexivity; exfalso;
    rewrite ?Z.leb_le, ?Z.eqb_eq in *; lia.
Qed.

Lemma int_of_digits fuel n :
  0 <= n -> (0 < fuel)%nat -> n < 2 ^ Z.of_nat fuel ->
  lstrip (str_digits fuel n EmptyString) = str_digits fuel n EmptyString /\
  int_unsigned (str_digits fuel n EmptyString) = Some n /\
  exists d rest,
    0 <= d < 10 /\ str_digits fuel n EmptyString = String (digit_char d) rest.
Proof.
  intros Hn Hfuel Hlt.
  destruct (str_digits_head fuel n EmptyString Hn (or_introl Hfuel))
    as [d [rest [Hd Hhead]]].
  destruct (str_digits_parse fuel n EmptyString 0 Hfuel (conj Hn Hlt))
    as [m Hm].
  split; [|split; [|eauto]].
  - rewrite Hhead. cbn [lstrip]. rewrite (is_space_digit_char d Hd).
    reflexivity.
  - rewrite Hhead in Hm |- *. unfold int_unsigned.
    rewrite (int_digits_digit d rest 0 Hd) in Hm.
    rewrite (digit_value_digit_char d Hd).
    cbn [int_digits] in Hm. exact Hm.
Qed.

Lemma count_digits_nonneg s : 0 <= count_digits s.
Proof.
  induction s as [|c rest IH]; cbn [count_digits]; [lia|].
  destruct (digit_value c); lia.
Qed.

(** A number below 10 ^ k is written with at most k digits. *)
Lemma count_digits_str_digits :
  forall fuel n tail k,
    1 <= k -> 0 <= n < 10 ^ k ->
    count_digits (str_digits fuel n tail) <= k + count_digits tail.
Proof.
  induction fuel as [|fuel IH]; intros n tail k Hk Hn; cbn [str_digits];
    [lia|].
  destruct (n <? 10) eqn:Hsmall.
  - apply Z.ltb_lt in Hsmall. cbn [count_digits].
    rewrite digit_value_digit_char by lia. lia.
  - apply Z.ltb_ge in Hsmall.
    assert (Hk2 : 2 <= k).
    { destruct (Z.eq_dec k 1) as [->|Hne]; [|lia]. cbn in Hn. lia. }
    assert (Hpow : 10 ^ k = 10 * 10 ^ (k - 1)).
    { replace k with (Z.succ (k - 1)) at 1 by lia.
      apply Z.pow_succ_r. lia. }
    assert (Hdiv : 0 <= n / 10 < 10 ^ (k - 1)).
    { split; [apply Z.div_pos; lia|].
      apply Z.div_lt_upper_bound; lia. }
    pose proof (IH (n / 10) (String (digit_char (n mod 10)) tail) (k - 1)
                  ltac:(lia) Hdiv) as Hcount.
    cbn [count_digits] in Hcount.
    rewrite digit_value_digit_char in Hcount
      by (apply Z.mod_pos_bound; lia).
    lia.
Qed.

Lemma max_str_digits_positive : 1 <= int_max_str_digits.
Proof. unfold int_max_str_digits. lia. Qed.

Lemma int_minus rest :
  int (String "-" rest)
  = match option_map Z.opp (int_unsigned rest) with
    | Some n =>
        if int_max_str_digits <? count_digits rest then Raise ValueError
        else Ok n
    | None => Raise ValueError
    end.
Proof. reflexivity. Qed.

(** [int] reads back the decimal text of every integer that is below the
    digit limit. *)
Lemma int_decimal n :
  Z.abs n < 10 ^ int_max_str_digits -> int (decimal n) = Ok n.
Proof.
  intros Hlimit. unfold decimal. destruct (n <? 0) eqn:Hneg.
  - apply Z.ltb_lt in Hneg.
    destruct (log2_fuel (- n) ltac:(lia)) as [Hn Hlt].
    destruct (int_of_digits (S (Z.to_nat (Z.log2 (- n)))) (- n) Hn
                ltac:(lia) Hlt) as [_ [Hint _]].
    rewrite int_minus, Hint. cbn [option_map].
    pose proof (count_digits_str_digits (S (Z.to_nat (Z.log2 (- n)))) (- n)
                  EmptyString int_max_str_digits max_str_digits_positive
                  ltac:(lia)) as Hcount.
    cbn [count_digits] in Hcount.
    destruct (int_max_str_digits <? _) eqn:E;
      [apply Z.ltb_lt in E; lia|].
    f_equal. lia.
  - apply Z.ltb_ge in Hneg.
    destruct (log2_fuel n Hneg) as [Hn Hlt].
    destruct (int_of_digits (S (Z.to_nat (Z.log2 n))) n Hn ltac:(lia) Hlt)
      as [Hstrip [Hint [d [rest [Hd Hhead]]]]].
    pose proof (count_digits_str_digits (S (Z.to_nat (Z.log2 n))) n
                  EmptyString int_max_str_digits max_str_digits_positive
                  ltac:(lia)) as Hcount.
    cbn [count_digits] in Hcount.
    unfold int. rewrite Hstrip. rewrite Hhead in Hint, Hcount |- *.
    rewrite (ord_digit_char d Hd).
    destruct (48 + d =? 43) eqn:E1; [apply Z.eqb_eq in E1; lia|].
    destruct (48 + d =? 45) eqn:E2; [apply Z.eqb_eq in E2; lia|].
    rewrite Hint.
    destruct (int_max_str_digits <? _) eqn:E;
      [apply Z.ltb_lt in E; lia | reflexivity].
Qed.

Lemma str_cases n :
  (Z.abs n < 10 ^ int_max_str_digits /\ str n = Ok (decimal n)) \/
  (10 ^ int_max_str_digits <= Z.abs n /\ str n = Raise ValueError).
Proof.
  unfold str. destruct (10 ^ int_max_str_digits <=? Z.abs n) eqn:E.
  - right. apply Z.leb_le in E. auto.
  - left. apply Z.leb_gt in E. auto.
Qed.

(** [int] reads back what [str] writes. *)
Lemma int_str n s : str n = Ok s -> int s = Ok n.
Proof.
  destruct (str_cases n) as [[Hlimit ->]|[_ ->]]; [|discriminate].
  intros H. apply Ok_inj in H. subst s. exact (int_decimal n Hlimit).
Qed.

Lemma count_space_decimal n : count_space (decimal n) = O.
Proof.
  unfold decimal. destruct (n <? 0) eqn:Hneg.
  - apply Z.ltb_lt in Hneg. cbn [count_space].
    rewrite count_space_str_digits by lia. reflexivity.
  - apply Z.ltb_ge in Hneg. rewrite count_space_str_digits by lia.
    reflexivity.
Qed.

Lemma chr_letter n :
  0 <= n < 256 -> chr n = Ok (Some (ascii_of_nat (Z.to_nat n))).
Proof.
  intros Hn. unfold chr.
  replace ((n <? -2147483648) || (2147483647 <? n)) with false
    by (symmetry; apply orb_false_iff; split; apply Z.ltb_ge; lia).
  replace ((n <? 0) || (1114111 <? n)) with false
    by (symmetry; apply orb_false_iff; split; apply Z.ltb_ge; lia).
  replace (n <? 256) with true by (symmetry; apply Z.ltb_lt; lia).
  reflexivity.
Qed.

Lemma chr_some n c : chr n = Ok (Some c) -> ord c = n.
Proof.
  unfold chr.
  destruct ((n <? -2147483648) || (2147483647 <? n)); [discriminate|].
  destruct ((n <? 0) || (1114111 <? n)) eqn:Hrange; [discriminate|].
  destruct (n <? 256) eqn:Hsmall; [|discriminate].
  intros H. apply Ok_inj in H. injection H as <-.
  apply orb_false_iff in Hrange. destruct Hrange as [Hlow _].
  apply Z.ltb_ge in Hlow. apply Z.ltb_lt in Hsmall.
  apply ord_ascii_of_nat. lia.
Qed.

Lemma ChessPosition_str_inv p s :
  ChessPosition_str p = Ok (Some s) ->
  exists c,
    s = String c (decimal (y_coord p + 1)) /\
    ord c = 97 + x_coord p /\
    Z.abs (y_coord p + 1) < 10 ^ int_max_str_digits.
Proof.
  unfold ChessPosition_str. change (ord "a") with 97.
  destruct (chr (97 + x_coord p)) as [[c|]| |] eqn:Hchr; cbn [bind];
    try discriminate.
  - destruct (str_cases (y_coord p + 1)) as [[Hlimit ->]|[_ ->]];
      cbn [bind option_map]; [|discriminate].
    intros H. apply Ok_inj in H. injection H as <-.
    exists c. split; [reflexivity|]. split; [|exact Hlimit].
    exact (chr_some _ c Hchr).
  - destruct (str (y_coord p + 1)); cbn [bind option_map]; discriminate.
Qed.

Lemma ChessPosition_from_string_decimal p c :
  ord c = 97 + x_coord p ->
  Z.abs (y_coord p + 1) < 10 ^ int_max_str_digits ->
  ChessPosition_from_string (String c (decimal (y_coord p + 1))) = Ok p.
Proof.
  intros Hc Hlimit. cbn [ChessPosition_from_string].
  rewrite (int_decimal _ Hlimit). cbn [bind].
  change (ord "a") with 97. rewrite Hc. destruct p as [x y].
  cbn [x_coord y_coord]. f_equal. f_equal; lia.
Qed.

(** X1. Take a position whose column letter is a character of the text
    model (columns -97 to 158, which contains every board up to 159
    columns).  When its row number has at most [int_max_str_digits] digits,
    [__str__] returns a text and [from_string] parses that text back to the
    same position; when the row number has more digits, [__str__] raises
    [ValueError]. *)
Theorem position_text_round_trip :
  forall p,
    -97 <= x_coord p < 159 ->
    (Z.abs (y_coord p + 1) < 10 ^ int_max_str_digits ->
     exists s,
       ChessPosition_str p = Ok (Some s) /\
       ChessPosition_from_string s = Ok p) /\
    (10 ^ int_max_str_digits <= Z.abs (y_coord p + 1) ->
     ChessPosition_str p = Raise ValueError).
Proof.
  intros p Hx.
  assert (Hchr : chr (97 + x_coord p)
                 = Ok (Some (ascii_of_nat (Z.to_nat (97 + x_coord p)))))
    by (apply chr_letter; lia).
  split.
  - intros Hlimit.
    exists (String (ascii_of_nat (Z.to_nat (97 + x_coord p)))
                   (decimal (y_coord p + 1))).
    split.
    + unfold ChessPosition_str. change (ord "a") with 97. rewrite Hchr.
      cbn [bind].
      destruct (str_cases (y_coord p + 1)) as [[_ ->]|[Hbig _]]; [|lia].
      reflexivity.
    + apply ChessPosition_from_string_decimal; [|exact Hlimit].
      apply ord_ascii_of_nat. lia.
  - intros Hbig. unfold ChessPosition_str. change (ord "a") with 97.
    rewrite Hchr. cbn [bind].
    destruct (str_cases (y_coord p + 1)) as [[Hlimit _]|[_ ->]]; [lia|].
    reflexivity.
Qed.

Lemma position_text_round_trip_witness :
  ChessPosition_str (mkPos 4 3) = Ok (Some "e4"%string) /\
  exists s,
    ChessPosition_str (mkPos 4 3) = Ok (Some s) /\
    ChessPosition_from_string s = Ok (mkPos 4 3).
Proof.
  split; [vm_compute; reflexivity|].
  apply (position_text_round_trip (mkPos 4 3)).
  - cbn [x_coord]. lia.
  - apply Z.ltb_lt. vm_compute. reflexivity.
Defined.

Lemma split_space_no_space s :
  count_space s = O -> split_space s = [s].
Proof.
  induction s as [|c rest IH]; cbn [count_space split_space]; [reflexivity|].
  destruct (ord c =? 32); [discriminate|].
  intros H. rewrite (IH H). reflexivity.
Qed.

Lemma split_space_append s1 s2 :
  count_space s1 = O ->
  split_space (String.append s1 (String " " s2)) = s1 :: split_space s2.
Proof.
  induction s1 as [|c rest IH]; cbn [count_space String.append].
  - intros _. reflexivity.
  - cbn [split_space]. destruct (ord c =? 32); [discriminate|].
    intros H. rewrite (IH H). reflexivity.
Qed.

Lemma length_split_space s :
  List.length (split_space s) = S (count_space s).
Proof.
  induction s as [|c rest IH]; cbn [count_space split_space]; [reflexivity|].
  destruct (ord c =? 32); cbn [List.length]; [rewrite IH; reflexivity|].
  destruct (split_space rest) as [|token tokens]; [discriminate IH|].
  exact IH.
Qed.

(** X2. The text of two positions joined by one space parses to the command
    between them, provided neither column letter is itself the space
    character (column -65). *)
Theorem command_text_round_trip :
  forall a b sa sb,
    ChessPosition_str a = Ok (Some sa) ->
    ChessPosition_str b = Ok (Some sb) ->
    x_coord a <> -65 -> x_coord b <> -65 ->
    MoveCommand_from_string (String.append sa (String " " sb))
    = Ok (Some (mkMove a b)).
Proof.
  intros a b sa sb Ha Hb Hxa Hxb.
  destruct (ChessPosition_str_inv a sa Ha) as [ca [-> [Hca Hla]]].
  destruct (ChessPosition_str_inv b sb Hb) as [cb [-> [Hcb Hlb]]].
  assert (Hspace : forall c n, ord c <> 32 ->
            count_space (String c (decimal n)) = O).
  { intros c n Hc. cbn [count_space].
    destruct (ord c =? 32) eqn:E; [apply Z.eqb_eq in E; contradiction|].
    apply count_space_decimal. }
  unfold MoveCommand_from_string.
  rewrite split_space_append by (apply Hspace; lia).
  rewrite split_space_no_space by (apply Hspace; lia).
  rewrite (ChessPosition_from_string_decimal a ca Hca Hla).
  rewrite (ChessPosition_from_string_decimal b cb Hcb Hlb).
  reflexivity.
Qed.

Lemma command_text_round_trip_witness :
  MoveCommand_from_string "e2 e4"%string
  = Ok (Some (mkMove (mkPos 4 1) (mkPos 4 3))).
Proof.
  apply (command_text_round_trip (mkPos 4 1) (mkPos 4 3)
           "e2"%string "e4"%string);
    try (vm_compute; reflexivity); cbn [x_coord]; lia.
Defined.

Lemma int_outcomes text :
  (exists n, int text = Ok n) \/ int text = Raise ValueError.
Proof.
  unfold int. destruct (match lstrip text with
                        | EmptyString => None
                        | String c rest => _
                        end) as [n|]; [|auto].
  destruct (int_max_str_digits <? count_digits text); eauto.
Qed.

Lemma ChessPosition_from_string_outcomes s :
  (exists p, ChessPosition_from_string s = Ok p) \/
  ChessPosition_from_string s = Raise IndexError \/
  ChessPosition_from_string s = Raise ValueError.
Proof.
  destruct s as [|c rest]; cbn [ChessPosition_from_string]; [auto|].
  destruct (int_outcomes rest) as [[n ->]| ->]; cbn [bind]; eauto.
Qed.

(** What [MoveCommand.from_string] can answer, by the number of spaces. *)
Lemma MoveCommand_from_string_cases s :
  (MoveCommand_from_string s = Ok None <-> count_space s <> 1%nat) /\
  (count_space s = 1%nat ->
   (exists command, MoveCommand_from_string s = Ok (Some command)) \/
   MoveCommand_from_string s = Raise IndexError \/
   MoveCommand_from_string s = Raise ValueError).
Proof.
  pose proof (length_split_space s) as Hlen.
  unfold MoveCommand_from_string.
  destruct (split_space s) as [|t0 [|t1 [|t2 ts]]]; cbn [List.length] in Hlen.
  - discriminate.
  - split; [split; [lia | reflexivity] | lia].
  - assert (Hparse :
      (exists command,
         (src_pos <- ChessPosition_from_string t0 ;;
          dst_pos <- ChessPosition_from_string t1 ;;
          Ok (Some (mkMove src_pos dst_pos))) = Ok (Some command)) \/
      (src_pos <- ChessPosition_from_string t0 ;;
       dst_pos <- ChessPosition_from_string t1 ;;
       Ok (Some (mkMove src_pos dst_pos))) = Raise IndexError \/
      (src_pos <- ChessPosition_from_string t0 ;;
       dst_pos <- ChessPosition_from_string t1 ;;
       Ok (Some (mkMove src_pos dst_pos))) = Raise ValueError).
    { destruct (ChessPosition_from_string_outcomes t0) as [[p0 ->]|[-> | ->]];
        cbn [bind]; auto.
      destruct (ChessPosition_from_string_outcomes t1) as [[p1 ->]|[-> | ->]];
        cbn [bind]; eauto. }
    split; [|intros _; exact Hparse].
    split; [|lia].
    intros Hnone. exfalso.
    destruct Hparse as [[command H]|[H|H]]; rewrite H in Hnone; discriminate.
  - split; [split; [lia | reflexivity] | lia].
Qed.

Lemma ord_space c : ord c = 32 -> c = " "%char.
Proof.
  unfold ord. intros H. rewrite <- (ascii_nat_embedding c).
  replace (nat_of_ascii c) with 32%nat by lia. reflexivity.
Qed.

(** A line with exactly one space is its two tokens around that space. *)
Lemma split_one_space s :
  count_space s = 1%nat ->
  exists t0 t1,
    split_space s = [t0; t1] /\
    s = String.append t0 (String " " t1) /\
    count_space t0 = O /\ count_space t1 = O.
Proof.
  induction s as [|c rest IH]; cbn [count_space split_space]; [discriminate|].
  destruct (ord c =? 32) eqn:Hc.
  - intros Hcount. apply Z.eqb_eq, ord_space in Hc. subst c.
    assert (Hrest : count_space rest = O) by lia.
    exists EmptyString, rest. rewrite (split_space_no_space rest Hrest).
    cbn [String.append]. auto.
  - intros Hcount. destruct (IH Hcount) as [t0 [t1 [Hsplit [-> [H0 H1]]]]].
    exists (String c t0), t1. rewrite Hsplit. cbn [String.append count_space].
    rewrite Hc. auto.
Qed.

(** How [ChessPosition.from_string] comes to each of its answers. *)
Lemma ChessPosition_from_string_inv s :
  (forall p,
     ChessPosition_from_string s = Ok p <->
     exists c row n,
       s = String c row /\ int row = Ok n /\
       p = mkPos (ord c - 97) (n - 1)) /\
  (ChessPosition_from_string s = Raise IndexError <-> s = EmptyString) /\
  (ChessPosition_from_string s = Raise ValueError <->
   exists c row, s = String c row /\ int row = Raise ValueError).
Proof.
  destruct s as [|c row]; cbn [ChessPosition_from_string].
  - split; [|split].
    + intros p. split; [discriminate|]. intros [c [row [n [H _]]]].
      discriminate.
    + tauto.
    + split; [discriminate|]. intros [c [row [H _]]]. discriminate.
  - change (ord "a") with 97.
    destruct (int_outcomes row) as [[n Hn]|Hn]; rewrite Hn; cbn [bind].
    + split; [|split].
      * intros p. split.
        -- intros H. apply Ok_inj in H. subst p. exists c, row, n. auto.
        -- intros [c' [row' [n' [Hs [Hint ->]]]]]. injection Hs as <- <-.
           rewrite Hn in Hint. apply Ok_inj in Hint. subst n'. reflexivity.
      * split; discriminate.
      * split; [discriminate|]. intros [c' [row' [Hs Hint]]].
        injection Hs as <- <-. rewrite Hn in Hint. discriminate.
    + split; [|split].
      * intros p. split; [discriminate|].
        intros [c' [row' [n' [Hs [Hint _]]]]]. injection Hs as <- <-.
        rewrite Hn in Hint. discriminate.
      * split; discriminate.
      * split; [|reflexivity]. intros _. exists c, row. auto.
Qed.

(** X3. A line yields no command exactly when it does not hold exactly one
    space.  A line with exactly one space is a source token and a
    destination token around that space, neither holding a space, and they
    are parsed in that order.  The parser returns a command exactly when
    each token is a character followed by a row text that [int] accepts,
    and the command then holds the two positions (code of the character
    minus 97, row number minus 1).  It raises [IndexError] exactly when the
    source token is empty, or the source token parses and the destination
    token is empty.  It raises [ValueError] exactly when [int] refuses the
    row text of the source token, or the source token parses and [int]
    refuses the row text of the destination token. *)
Theorem MoveCommand_from_string_outcomes :
  forall s,
    (MoveCommand_from_string s = Ok None <-> count_space s <> 1%nat) /\
    (count_space s = 1%nat ->
     exists t0 t1,
       s = String.append t0 (String " " t1) /\
       count_space t0 = O /\ count_space t1 = O /\
       (forall command,
          MoveCommand_from_string s = Ok (Some command) <->
          exists c0 row0 n0 c1 row1 n1,
            t0 = String c0 row0 /\ int row0 = Ok n0 /\
            t1 = String c1 row1 /\ int row1 = Ok n1 /\
            command = mkMove (mkPos (ord c0 - 97) (n0 - 1))
                             (mkPos (ord c1 - 97) (n1 - 1))) /\
       (MoveCommand_from_string s = Raise IndexError <->
        t0 = EmptyString \/
        ((exists p, ChessPosition_from_string t0 = Ok p) /\
         t1 = EmptyString)) /\
       (MoveCommand_from_string s = Raise ValueError <->
        (exists c row, t0 = String c row /\ int row = Raise ValueError) \/
        ((exists p, ChessPosition_from_string t0 = Ok p) /\
         exists c row, t1 = String c row /\ int row = Raise ValueError))).
Proof.
  intros s. split; [exact (proj1 (MoveCommand_from_string_cases s))|].
  intros Hcount.
  destruct (split_one_space s Hcount) as [t0 [t1 [Hsplit [Hs [H0 H1]]]]].
  exists t0, t1. split; [exact Hs|]. split; [exact H0|]. split; [exact H1|].
  unfold MoveCommand_from_string. rewrite Hsplit.
  destruct (ChessPosition_from_string_inv t0) as [Hok0 [Hidx0 Hval0]].
  destruct (ChessPosition_from_string_inv t1) as [Hok1 [Hidx1 Hval1]].
  destruct (ChessPosition_from_string t0) as [p0|e0|] eqn:E0; cbn [bind].
  - destruct (ChessPosition_from_string t1) as [p1|e1|] eqn:E1; cbn [bind].
    + split; [|split].
      * intros command. split.
        -- intros H. apply Ok_inj in H. injection H as <-.
           destruct (proj1 (Hok0 p0) eq_refl) as [c0 [row0 [n0 [-> [Hn0 ->]]]]].
           destruct (proj1 (Hok1 p1) eq_refl) as [c1 [row1 [n1 [-> [Hn1 ->]]]]].
           exists c0, row0, n0, c1, row1, n1. auto.
        -- intros [c0 [row0 [n0 [c1 [row1 [n1 [Ht0 [Hn0 [Ht1 [Hn1 ->]]]]]]]]]].
           assert (Hp0 : Ok p0 = Ok (mkPos (ord c0 - 97) (n0 - 1)))
             by (apply Hok0; exists c0, row0, n0; auto).
           assert (Hp1 : Ok p1 = Ok (mkPos (ord c1 - 97) (n1 - 1)))
             by (apply Hok1; exists c1, row1, n1; auto).
           apply Ok_inj in Hp0, Hp1. subst p0 p1. reflexivity.
      * split; [discriminate|].
        intros [Ht0|[_ Ht1]].
        -- apply Hidx0 in Ht0. discriminate.
        -- apply Hidx1 in Ht1. discriminate.
      * split; [discriminate|].
        intros [Ht0|[_ Ht1]].
        -- apply Hval0 in Ht0. discriminate.
        -- apply Hval1 in Ht1. discriminate.
    + split; [|split].
      * intros command. split; [discriminate|].
        intros [c0 [row0 [n0 [c1 [row1 [n1 [_ [_ [Ht1 [Hn1 _]]]]]]]]]].
        assert (Hp1 : Raise e1 = Ok (mkPos (ord c1 - 97) (n1 - 1)))
          by (apply Hok1; exists c1, row1, n1; auto).
        discriminate.
      * split.
        -- intros H. injection H as ->. right. split; [eauto|].
           apply Hidx1. reflexivity.
        -- intros [Ht0|[_ Ht1]].
           ++ apply Hidx0 in Ht0. discriminate.
           ++ apply Hidx1 in Ht1. injection Ht1 as ->. reflexivity.
      * split.
        -- intros H. injection H as ->. right. split; [eauto|].
           apply Hval1. reflexivity.
        -- intros [Ht0|[_ Ht1]].
           ++ apply Hval0 in Ht0. discriminate.
           ++ apply Hval1 in Ht1. injection Ht1 as ->. reflexivity.
    + exfalso.
      destruct (ChessPosition_from_string_outcomes t1) as [[p H]|[H|H]];
        rewrite H in E1; discriminate.
  - split; [|split].
    + intros command. split; [discriminate|].
      intros [c0 [row0 [n0 [c1 [row1 [n1 [Ht0 [Hn0 _]]]]]]]].
      assert (Hp0 : Raise e0 = Ok (mkPos (ord c0 - 97) (n0 - 1)))
        by (apply Hok0; exists c0, row0, n0; auto).
      discriminate.
    + split.
      * intros H. injection H as ->. left. apply Hidx0. reflexivity.
      * intros [Ht0|[[p Hp] _]]; [|discriminate].
        apply Hidx0 in Ht0. injection Ht0 as ->. reflexivity.
    + split.
      * intros H. injection H as ->. left. apply Hval0. reflexivity.
      * intros [Ht0|[[p Hp] _]]; [|discriminate].
        apply Hval0 in Ht0. injection Ht0 as ->. reflexivity.
  - exfalso.
    destruct (ChessPosition_from_string_outcomes t0) as [[p H]|[H|H]];
      rewrite H in E0; discriminate.
Qed.

(** X4. A round of [run] on a reachable game either returns a reachable
    game or raises what parsing the line raises, [IndexError] or
    [ValueError]; validation and execution never raise and never loop. *)
Theorem run_iteration_outcomes :
  forall g line,
    reachable g ->
    (exists g', run_iteration g line = Ok g' /\ reachable g') \/
    (exists e,
       (e = IndexError \/ e = ValueError) /\
       MoveCommand_from_string line = Raise e /\
       run_iteration g line = Raise e).
Proof.
  intros g line Hreach. unfold run_iteration.
  destruct (MoveCommand_from_string_cases line) as [Hnone Hone].
  destruct (Nat.eq_dec (count_space line) 1) as [Hcount|Hcount].
  - destruct (Hone Hcount) as [[command Hc]|[He|He]]; rewrite ?Hc, ?He;
      cbn [bind].
    + left.
      destruct (run_command_total g command (reachable_inv g Hreach))
        as [g' Hg']. exists g'. split; [exact Hg'|].
      exact (reachable_step g (Some command) g' Hreach Hg').
    + right. exists IndexError. auto.
    + right. exists ValueError. auto.
  - apply Hnone in Hcount. rewrite Hcount. cbn [bind]. left.
    exists g. split; [reflexivity | exact Hreach].
Qed.

Lemma run_iteration_outcomes_witness :
  (exists g', run_iteration ChessGame_init "e2 e4"%string = Ok g' /\
              reachable g') \/
  (exists e,
     (e = IndexError \/ e = ValueError) /\
     MoveCommand_from_string "e2 e4"%string = Raise e /\
     run_iteration ChessGame_init "e2 e4"%string = Raise e).
Proof.
  apply (run_iteration_outcomes ChessGame_init "e2 e4"%string).
  constructor.
Defined.

(** ** Where the pieces can go *)

Lemma free_square_landing b own q : free_square b q -> landing b own q.
Proof. intros [Hin Hnone]. split; [exact Hin|]. congruence. Qed.

Lemma beam_search_threat_shape b start own dx dy res :
  beam_search_threat b start own dx dy = Ok res ->
  exists k,
    (1 <= k)%nat /\
    (forall i, (1 <= i < k)%nat -> free_square b (ray_square start dx dy i)) /\
    (square_in_bounds b (ray_square start dx dy k) = true ->
     get_piece b (ray_square start dx dy k) <> None) /\
    res = map (ray_square start dx dy) (seq 1 (k - 1))
          ++ (if square_in_bounds b (ray_square start dx dy k)
              then ray_stop b own (ray_square start dx dy k)
              else []).
Proof.
  unfold beam_search_threat. intros Hloop.
  replace (x_coord start + dx) with (x_coord (ray_square start dx dy 1))
    in Hloop by (unfold ray_square, probe_square; cbn [x_coord]; lia).
  replace (y_coord start + dy) with (y_coord (ray_square start dx dy 1))
    in Hloop by (unfold ray_square, probe_square; cbn [y_coord]; lia).
  apply beam_loop_ok in Hloop. exact Hloop.
Qed.

(** The squares of one ray scan: reached over free squares, and fit to
    land on. *)
Lemma beam_search_threat_in_iff b start own dx dy res q :
  beam_search_threat b start own dx dy = Ok res ->
  (In q res <->
   exists k,
     (1 <= k)%nat /\ q = ray_square start dx dy k /\
     (forall i, (1 <= i < k)%nat ->
        free_square b (ray_square start dx dy i)) /\
     landing b own q).
Proof.
  intros Hres.
  destruct (beam_search_threat_shape b start own dx dy res Hres)
    as [k' [Hle [Hfree [Hstop ->]]]].
  rewrite in_app_iff, in_map_iff. split.
  - intros [[i [<- Hi]]|Hq].
    + apply in_seq in Hi. exists i. split; [lia|]. split; [reflexivity|].
      split; [intros j Hj; apply Hfree; lia|].
      apply free_square_landing. apply Hfree. lia.
    + destruct (square_in_bounds b (ray_square start dx dy k')) eqn:Hin;
        [|destruct Hq].
      unfold ray_stop in Hq.
      destruct (get_piece b (ray_square start dx dy k')) as [occupant|]
        eqn:Hocc; [|destruct Hq].
      destruct (color_eqb (color occupant) own) eqn:Hcol; cbn [negb] in Hq;
        [destruct Hq|].
      destruct Hq as [<-|[]]. exists k'. split; [exact Hle|].
      split; [reflexivity|]. split; [exact Hfree|].
      split; [exact Hin|]. intros o Ho. rewrite Hocc in Ho.
      injection Ho as <-. apply color_eqb_neq. exact Hcol.
  - intros [k [Hk [-> [Hclear [Hin Hland]]]]].
    destruct (lt_eq_lt_dec k k') as [[Hlt|Heq]|Hgt].
    + left. exists k. split; [reflexivity|]. apply in_seq. lia.
    + subst k'. right. rewrite Hin. unfold ray_stop.
      destruct (get_piece b (ray_square start dx dy k)) as [occupant|] eqn:Hocc;
        [|exfalso; exact (Hstop Hin eq_refl)].
      pose proof (Hland occupant eq_refl) as Hne.
      apply color_eqb_neq in Hne. rewrite Hne. left. reflexivity.
    + exfalso. destruct (Hclear k' (conj Hle Hgt)) as [Hin' Hnone].
      exact (Hstop Hin' Hnone).
Qed.

Lemma beam_scan_in_iff b p increments :
  forall l q,
    beam_scan b p increments = Ok l ->
    (In q l <-> slides_to b p increments q).
Proof.
  unfold slides_to.
  induction increments as [|increment rest IH]; cbn [beam_scan]; intros l q.
  - intros H. apply Ok_inj in H. subst l. split; [intros []|].
    intros [inc [k [[] _]]].
  - destruct (beam_search_threat b (position p) (color p) _ _)
      as [ray| |] eqn:Hray; cbn [bind]; try discriminate.
    destruct (beam_scan b p rest) as [l'| |]; cbn [bind]; try discriminate.
    intros H. apply Ok_inj in H. subst l. rewrite in_app_iff.
    rewrite (beam_search_threat_in_iff _ _ _ _ _ _ q Hray).
    rewrite (IH l' q eq_refl). split.
    + intros [[k Hk]|[inc [k [Hin Hk]]]].
      * exists increment, k. split; [left; reflexivity | exact Hk].
      * exists inc, k. split; [right; exact Hin | exact Hk].
    + intros [inc [k [[<-|Hin] Hk]]].
      * left. exists k. exact Hk.
      * right. exists inc, k. split; [exact Hin | exact Hk].
Qed.

(** X5. A queen, rook or bishop threatens exactly the squares that lie some
    number of steps away in one of its directions, with every square in
    between free, and that are on the board and free or held by the other
    colour; its moveable squares are the same list. *)
Theorem sliding_pieces_reach :
  forall p b,
    kind p = QUEEN \/ kind p = ROOK \/ kind p = BISHOP ->
    exists th,
      get_threatened_positions p b = Ok th /\
      get_moveable_positions p b = Ok th /\
      forall q, In q th <-> slides_to b p (beam_increments (kind p)) q.
Proof.
  intros p b Hkind.
  destruct (get_threatened_positions_total p b) as [th Hth].
  exists th. split; [exact Hth|].
  unfold get_moveable_positions, get_threatened_positions, beam_increments
    in *.
  destruct Hkind as [Hk|[Hk|Hk]]; rewrite Hk in *;
    (split; [exact Hth|]); intros q; apply beam_scan_in_iff; exact Hth.
Qed.

Lemma sliding_pieces_reach_witness :
  exists th,
    get_threatened_positions (mkPiece ROOK (mkPos 0 0) WHITE false)
      (mkBoard 8 [mkPiece ROOK (mkPos 0 0) WHITE false;
                  mkPiece PAWN (mkPos 0 2) BLACK false] None None) = Ok th /\
    In (mkPos 0 2) th /\ ~ In (mkPos 0 3) th.
Proof.
  destruct (sliding_pieces_reach
              (mkPiece ROOK (mkPos 0 0) WHITE false)
              (mkBoard 8 [mkPiece ROOK (mkPos 0 0) WHITE false;
                          mkPiece PAWN (mkPos 0 2) BLACK false] None None)
              (or_intror (or_introl eq_refl))) as [th [Hth _]].
  exists th. split; [exact Hth|].
  vm_compute in Hth. apply Ok_inj in Hth. subst th. split.
  - cbn. tauto.
  - cbn. intros H.
    repeat (destruct H as [H|H]; [discriminate H|]). exact H.
Defined.

(** X6. Every threatened square of a rook shares its row or its column
    with the rook's square, every threatened square of a bishop lies on one
    of its diagonals, every threatened square of a queen on one of the
    two; none of them is the piece's own square. *)
Theorem sliding_pieces_geometry :
  forall p b th q,
    get_threatened_positions p b = Ok th -> In q th ->
    let dx := x_coord q - x_coord (position p) in
    let dy := y_coord q - y_coord (position p) in
    (kind p = ROOK -> (dx = 0 \/ dy = 0) /\ q <> position p) /\
    (kind p = BISHOP -> Z.abs dx = Z.abs dy /\ q <> position p) /\
    (kind p = QUEEN ->
     (dx = 0 \/ dy = 0 \/ Z.abs dx = Z.abs dy) /\ q <> position p).
Proof.
  intros p b th q Hth Hq dx dy. subst dx dy.
  unfold get_threatened_positions in Hth.
  split; [|split]; intros Hk; rewrite Hk in Hth;
    apply (beam_scan_in_iff _ _ _ _ q Hth) in Hq;
    destruct Hq as [inc [k [Hinc [Hk1 [-> _]]]]];
    destruct (ray_square_coords (position p) (fst inc) (snd inc) k)
      as [Hx Hy];
    rewrite Hx, Hy;
    (assert (Hne : forall a c : Z,
               a <> 0 \/ c <> 0 ->
               x_coord (ray_square (position p) (fst inc) (snd inc) k)
                 = x_coord (position p) + a ->
               y_coord (ray_square (position p) (fst inc) (snd inc) k)
                 = y_coord (position p) + c ->
               ray_square (position p) (fst inc) (snd inc) k <> position p)
       by (intros a c Hac Hxa Hyc Heq; rewrite Heq in Hxa, Hyc; lia));
    cbn [In] in Hinc;
    repeat (destruct Hinc as [<-|Hinc];
            [cbn [fst snd] in *;
             (split; [lia | eapply Hne; [|exact Hx|exact Hy]; lia])|]);
    destruct Hinc.
Qed.

Lemma sliding_pieces_geometry_witness :
  x_coord (mkPos 0 2) - 0 = 0 \/ y_coord (mkPos 0 2) - 0 = 0.
Proof.
  refine (proj1 (proj1 (sliding_pieces_geometry
            (mkPiece ROOK (mkPos 0 0) WHITE false)
            (mkBoard 8 [mkPiece ROOK (mkPos 0 0) WHITE false;
                        mkPiece PAWN (mkPos 0 2) BLACK false] None None)
            _ (mkPos 0 2) _ _) eq_refl)).
  - vm_compute. reflexivity.
  - cbn. tauto.
Defined.

Lemma normal_probe_landing b start own dx dy r :
  spot_search_threat b start own dx dy false false = Some r <->
  r = probe_square start dx dy /\ landing b own r.
Proof.
  rewrite spot_search_threat_some. unfold landing.
  destruct (get_piece b r) as [occupant|].
  - split.
    + intros [Hr [Hin [_ Hcol]]]. split; [exact Hr|]. split; [exact Hin|].
      intros o Ho. injection Ho as <-. exact Hcol.
    + intros [Hr [Hin Hcol]]. auto.
  - split.
    + intros [Hr [Hin _]]. split; [exact Hr|]. split; [exact Hin|].
      intros o Ho. discriminate.
    + intros [Hr [Hin _]]. auto.
Qed.

Lemma spot_scan_in_iff b p increments q :
  In q (drop_none (spot_scan b p increments)) <-> steps_to b p increments q.
Proof.
  rewrite in_drop_none. unfold spot_scan, steps_to. rewrite in_map_iff.
  split.
  - intros [inc [Hq Hin]]. apply normal_probe_landing in Hq.
    exists inc. tauto.
  - intros [inc [Hin [Hq Hland]]]. exists inc. split; [|exact Hin].
    apply normal_probe_landing. auto.
Qed.

Lemma probe_square_delta p q :
  q = probe_square p (x_coord q - x_coord p) (y_coord q - y_coord p).
Proof.
  destruct q as [x y]. unfold probe_square. cbn [x_coord y_coord].
  f_equal; lia.
Qed.

Lemma probe_square_coords start dx dy :
  x_coord (probe_square start dx dy) - x_coord start = dx /\
  y_coord (probe_square start dx dy) - y_coord start = dy.
Proof. unfold probe_square. cbn [x_coord y_coord]. lia. Qed.

Ltac pick_increment :=
  cbn [In]; repeat (first [left; reflexivity | right]).

(** X7. A king threatens exactly the squares next to its own, in any of
    the eight directions, that are on the board and free or held by the
    other colour; a knight exactly the squares one column and two rows, or
    two columns and one row, away that are so.  For both the moveable
    squares are the same list. *)
Theorem king_and_knight_reach :
  forall p b q,
    let dx := x_coord q - x_coord (position p) in
    let dy := y_coord q - y_coord (position p) in
    (kind p = KING ->
     exists th,
       get_threatened_positions p b = Ok th /\
       get_moveable_positions p b = Ok th /\
       (In q th <->
        Z.max (Z.abs dx) (Z.abs dy) = 1 /\ landing b (color p) q)) /\
    (kind p = KNIGHT ->
     exists th,
       get_threatened_positions p b = Ok th /\
       get_moveable_positions p b = Ok th /\
       (In q th <->
        (Z.abs dx = 1 /\ Z.abs dy = 2 \/ Z.abs dx = 2 /\ Z.abs dy = 1) /\
        landing b (color p) q)).
Proof.
  intros p b q dx dy.
  unfold get_moveable_positions, get_threatened_positions.
  split; intros Hk; rewrite Hk; eexists;
    (split; [reflexivity|]); (split; [reflexivity|]);
    rewrite spot_scan_in_iff; unfold steps_to; split.
  - intros [inc [Hinc [Hq Hland]]]. split; [|exact Hland].
    destruct (probe_square_coords (position p) (fst inc) (snd inc))
      as [Hx Hy].
    rewrite <- Hq in Hx, Hy. subst dx dy. rewrite Hx, Hy.
    unfold King_SPOT_INCREMENTS in Hinc. cbn [In] in Hinc.
    repeat (destruct Hinc as [<-|Hinc]; [cbn [fst snd]; lia|]).
    destruct Hinc.
  - intros [Hgeo Hland].
    assert (Hdx : dx = -1 \/ dx = 0 \/ dx = 1) by lia.
    assert (Hdy : dy = -1 \/ dy = 0 \/ dy = 1) by lia.
    exists (dx, dy). cbn [fst snd].
    split; [|split; [apply probe_square_delta | exact Hland]].
    unfold King_SPOT_INCREMENTS.
    destruct Hdx as [Hx|[Hx|Hx]], Hdy as [Hy|[Hy|Hy]]; rewrite Hx, Hy in *;
      try (exfalso; lia); pick_increment.
  - intros [inc [Hinc [Hq Hland]]]. split; [|exact Hland].
    destruct (probe_square_coords (position p) (fst inc) (snd inc))
      as [Hx Hy].
    rewrite <- Hq in Hx, Hy. subst dx dy. rewrite Hx, Hy.
    unfold Knight_SPOT_INCREMENTS in Hinc. cbn [In] in Hinc.
    repeat (destruct Hinc as [<-|Hinc]; [cbn [fst snd]; lia|]).
    destruct Hinc.
  - intros [Hgeo Hland].
    assert (Hdx : dx = -2 \/ dx = -1 \/ dx = 1 \/ dx = 2) by lia.
    assert (Hdy : dy = -2 \/ dy = -1 \/ dy = 1 \/ dy = 2) by lia.
    exists (dx, dy). cbn [fst snd].
    split; [|split; [apply probe_square_delta | exact Hland]].
    unfold Knight_SPOT_INCREMENTS.
    destruct Hdx as [Hx|[Hx|[Hx|Hx]]], Hdy as [Hy|[Hy|[Hy|Hy]]];
      rewrite Hx, Hy in *; try (exfalso; lia); pick_increment.
Qed.

(** X8. A pawn threatens exactly its two forward-diagonal squares that are
    on the board and free or held by the other colour.  Every moveable
    square of a pawn lies one row forward in the same or a neighbouring
    column, or two rows forward in the same column for a pawn that has not
    moved: a pawn never goes sideways or backwards. *)
Theorem Pawn_reach :
  forall p b,
    kind p = PAWN ->
    (exists th,
       get_threatened_positions p b = Ok th /\
       forall q,
         In q th <->
         (q = probe_square (position p) (-1) (forward (color p)) \/
          q = probe_square (position p) 1 (forward (color p))) /\
         landing b (color p) q) /\
    (forall mv q,
       get_moveable_positions p b = Ok mv -> In q mv ->
       let dx := x_coord q - x_coord (position p) in
       let dy := y_coord q - y_coord (position p) in
       (dy = forward (color p) /\ -1 <= dx <= 1) \/
       (dy = 2 * forward (color p) /\ dx = 0 /\ moved p = false)).
Proof.
  intros p b Hkind. split.
  - unfold get_threatened_positions. rewrite Hkind. eexists.
    split; [reflexivity|]. intros q. rewrite in_drop_none.
    unfold pawn_scan, Pawn_SPOT_INCREMENTS_TAKE. cbn [map In fst snd].
    rewrite !pawn_dy_forward.
    replace (forward (color p) * 1) with (forward (color p)) by lia.
    rewrite !normal_probe_landing. tauto.
  - intros mv q Hmv Hq dx dy. subst dx dy.
    unfold get_moveable_positions in Hmv. rewrite Hkind in Hmv.
    apply Ok_inj in Hmv. subst mv. apply Pawn_moveable_in in Hq.
    destruct Hq as [[-> _]|[[Hm [-> _]]|[[-> | ->] _]]];
      match goal with
      | |- context [probe_square ?s ?a ?c] =>
          destruct (probe_square_coords s a c) as [Hx Hy]; rewrite Hx, Hy
      end;
      first [ left; lia
            | right; split; [lia | split; [lia | assumption]] ].
Qed.

Lemma Pawn_reach_witness :
  exists th,
    get_threatened_positions (mkPiece PAWN (mkPos 4 1) WHITE false)
      (board ChessGame_init) = Ok th /\
    (In (mkPos 3 2) th <->
     (mkPos 3 2 = probe_square (mkPos 4 1) (-1) 1 \/
      mkPos 3 2 = probe_square (mkPos 4 1) 1 1) /\
     landing (board ChessGame_init) WHITE (mkPos 3 2)).
Proof.
  destruct (Pawn_reach (mkPiece PAWN (mkPos 4 1) WHITE false)
              (board ChessGame_init) eq_refl) as [[th [Hth Hiff]] _].
  exists th. split; [exact Hth | exact (Hiff (mkPos 3 2))].
Defined.

Lemma reach_landing p b l q :
  get_threatened_positions p b = Ok l \/ get_moveable_positions p b = Ok l ->
  In q l ->
  landing b (color p) q.
Proof.
  intros Hl Hq.
  assert (Hth : forall th,
            get_threatened_positions p b = Ok th -> In q th ->
            landing b (color p) q).
  { intros th Hth Hin. unfold get_threatened_positions in Hth.
    destruct (kind p) eqn:Hkind;
      try (apply (beam_scan_in_iff _ _ _ _ q Hth) in Hin;
           destruct Hin as [inc [k [_ [_ [_ [_ Hland]]]]]]; exact Hland);
      apply Ok_inj in Hth; subst th.
    - apply spot_scan_in_iff in Hin.
      destruct Hin as [inc [_ [_ Hland]]]. exact Hland.
    - apply spot_scan_in_iff in Hin.
      destruct Hin as [inc [_ [_ Hland]]]. exact Hland.
    - apply in_drop_none in Hin. unfold pawn_scan in Hin.
      apply in_map_iff in Hin. destruct Hin as [inc [Hprobe _]].
      apply normal_probe_landing in Hprobe. tauto. }
  destruct Hl as [Hl|Hl]; [exact (Hth l Hl Hq)|].
  unfold get_moveable_positions in Hl.
  destruct (kind p) eqn:Hkind; try exact (Hth l Hl Hq).
  apply Ok_inj in Hl. subst l. apply Pawn_moveable_in in Hq.
  destruct Hq as [[_ Hf]|[[_ [_ Hf]]|[_ [Hin [o [Ho Hcol]]]]]];
    try (apply free_square_landing; exact Hf).
  split; [exact Hin|]. intros o' Ho'. congruence.
Qed.

(** X9. Whatever the piece, each of its threatened squares and each of its
    moveable squares is on the board and is free or held by a piece of the
    other colour; so it is never a square on which a piece of the mover's
    own colour stands, the mover's own square included. *)
Theorem reach_lands_on_board :
  forall p b l q,
    get_threatened_positions p b = Ok l \/ get_moveable_positions p b = Ok l ->
    In q l ->
    landing b (color p) q /\
    (forall own, get_piece b q = Some own -> color own <> color p) /\
    (get_piece b (position p) = Some p -> q <> position p).
Proof.
  intros p b l q Hl Hq.
  destruct (reach_landing p b l q Hl Hq) as [Hin Hocc].
  split; [split; assumption|]. split; [exact Hocc|].
  intros Hself Heq. rewrite <- Heq in Hself. exact (Hocc p Hself eq_refl).
Qed.

Lemma reach_lands_on_board_witness :
  landing (board ChessGame_init) WHITE (mkPos 2 2).
Proof.
  apply (reach_lands_on_board
           (mkPiece KNIGHT (mkPos 1 0) WHITE false) (board ChessGame_init)
           [mkPos 2 2; mkPos 0 2] (mkPos 2 2)).
  - left. vm_compute. reflexivity.
  - left. reflexivity.
Defined.


(** ** Looking up the board after a move *)

Lemma execute_move_returns b c source_piece :
  get_piece b (src c) = Some source_piece ->
  exists b', execute_move b c = Ok b'.
Proof. intros H. unfold execute_move. rewrite H. eauto. Qed.

Lemma size_execute_move b c b' :
  execute_move b c = Ok b' -> size b' = size b.
Proof.
  unfold execute_move. destruct (get_piece b (src c)) as [sp|];
    [|discriminate].
  intros H. apply Ok_inj in H. subst b'.
  destruct (is_king (kind sp)); rewrite ?size_register_king_position;
    reflexivity.
Qed.

Lemma length_delete_first_at d l :
  (List.length (delete_first_at d l)
   + match find (fun piece => pos_eqb (position piece) d) l with
     | Some _ => 1
     | None => 0
     end
   = List.length l)%nat.
Proof.
  induction l as [|a l IH]; cbn [delete_first_at find List.length];
    [reflexivity|].
  destruct (pos_eqb (position a) d); cbn [List.length]; lia.
Qed.

Lemma length_update_first_at s f l :
  List.length (update_first_at s f l) = List.length l.
Proof.
  induction l as [|a l IH]; cbn [update_first_at List.length]; [reflexivity|].
  destruct (pos_eqb (position a) s); cbn [List.length]; lia.
Qed.

(** X10. On a board whose pieces stand on distinct squares, a move from an
    occupied square to a different square returns a board on which the
    destination holds the source piece relocated, the source square is
    empty and every other square holds what it held; the board keeps its
    size, and the number of pieces drops by one exactly when the
    destination was occupied. *)
Theorem execute_move_lookup :
  forall b c source_piece,
    NoDup (map position (pieces b)) ->
    get_piece b (src c) = Some source_piece ->
    src c <> dst c ->
    exists b',
      execute_move b c = Ok b' /\
      get_piece b' (dst c) = Some (move source_piece (dst c)) /\
      get_piece b' (src c) = None /\
      (forall q, q <> src c -> q <> dst c -> get_piece b' q = get_piece b q) /\
      size b' = size b /\
      (List.length (pieces b')
       + match get_piece b (dst c) with Some _ => 1 | None => 0 end
       = List.length (pieces b))%nat.
Proof.
  intros b c sp Hnd Hsp Hsd.
  destruct (execute_move_returns b c sp Hsp) as [b' Hex]. exists b'.
  pose proof (execute_move_NoDup b c b' Hex Hnd) as Hnd'.
  pose proof (fun q => execute_move_in_iff b c b' sp q Hnd Hsp Hsd Hex)
    as Hmem.
  split; [exact Hex|]. split; [|split; [|split; [|split]]].
  - apply (get_piece_of_in b' (move sp (dst c)) Hnd'). apply Hmem. auto.
  - apply get_piece_none. intros p Hp. apply Hmem in Hp.
    destruct Hp as [[_ [_ Hns]]| ->]; [exact Hns|].
    cbn [move position]. congruence.
  - intros q Hqs Hqd. destruct (get_piece b q) as [o|] eqn:Ho.
    + destruct (get_piece_position b q o Ho) as [Hpos Hin].
      rewrite <- Hpos. apply (get_piece_of_in b' o Hnd'). apply Hmem.
      left. rewrite Hpos. auto.
    + apply get_piece_none. intros p Hp. apply Hmem in Hp.
      rewrite get_piece_none in Ho.
      destruct Hp as [[Hp _]| ->]; [exact (Ho p Hp)|].
      cbn [move position]. congruence.
  - exact (size_execute_move b c b' Hex).
  - destruct (execute_move_pieces b c b' Hex) as [sp' [_ ->]].
    apply pos_eqb_neq in Hsd. rewrite Hsd, length_update_first_at.
    apply length_delete_first_at.
Qed.

Lemma execute_move_lookup_witness :
  exists b',
    execute_move (board ChessGame_init) (mkMove (mkPos 4 1) (mkPos 4 3))
      = Ok b' /\
    get_piece b' (mkPos 4 3) = Some (mkPiece PAWN (mkPos 4 3) WHITE true) /\
    get_piece b' (mkPos 4 1) = None.
Proof.
  destruct (execute_move_lookup (board ChessGame_init)
              (mkMove (mkPos 4 1) (mkPos 4 3))
              (mkPiece PAWN (mkPos 4 1) WHITE false)
              ChessGame_init_NoDup eq_refl)
    as [b' [Hex [Hdst [Hsrc _]]]].
  - cbn [src dst]. discriminate.
  - exists b'. auto.
Defined.

(** X11. A move whose source and destination are the same occupied square
    returns, and the piece is gone: the loop deletes it before it is
    moved.  The list of pieces is one shorter, on a board with distinct
    squares the square is then empty, and a king deleted in this way stays
    recorded in the king index. *)
Theorem execute_move_same_square :
  forall b pos source_piece,
    get_piece b pos = Some source_piece ->
    exists b',
      execute_move b (mkMove pos pos) = Ok b' /\
      pieces b' = delete_first_at pos (pieces b) /\
      S (List.length (pieces b')) = List.length (pieces b) /\
      (NoDup (map position (pieces b)) -> get_piece b' pos = None) /\
      (kind source_piece = KING ->
       king_position b' (color source_piece) = Some pos).
Proof.
  intros b pos sp Hsp.
  destruct (execute_move_returns b (mkMove pos pos) sp Hsp) as [b' Hex].
  exists b'. split; [exact Hex|].
  destruct (execute_move_pieces b _ b' Hex) as [sp' [_ Hpieces]].
  cbn [src dst] in Hpieces. rewrite pos_eqb_refl in Hpieces.
  split; [exact Hpieces|]. split; [|split].
  - rewrite Hpieces. pose proof (length_delete_first_at pos (pieces b)) as Hl.
    unfold get_piece in Hsp. rewrite Hsp in Hl. lia.
  - intros Hnd. apply get_piece_none. intros p Hp. rewrite Hpieces in Hp.
    apply (delete_first_at_in_iff pos (pieces b) p Hnd) in Hp. tauto.
  - intros Hking.
    rewrite (execute_move_king_position b _ b' sp (color sp) Hex Hsp).
    rewrite Hking. cbn [is_king andb src dst].
    replace (color_eqb (color sp) (color sp)) with true
      by (symmetry; apply color_eqb_eq; reflexivity).
    reflexivity.
Qed.

Lemma execute_move_same_square_witness :
  exists b',
    execute_move (board ChessGame_init) (mkMove (mkPos 4 0) (mkPos 4 0))
      = Ok b' /\
    List.length (pieces b') = 31%nat /\
    get_piece b' (mkPos 4 0) = None /\
    white_king_position b' = Some (mkPos 4 0).
Proof.
  destruct (execute_move_same_square (board ChessGame_init) (mkPos 4 0)
              (mkPiece KING (mkPos 4 0) WHITE false) eq_refl)
    as [b' [Hex [_ [Hlen [Hnone Hidx]]]]].
  exists b'. split; [exact Hex|]. split; [|split].
  - change (List.length (pieces (board ChessGame_init))) with 32%nat in Hlen.
    lia.
  - exact (Hnone ChessGame_init_NoDup).
  - exact (Hidx eq_refl).
Defined.

(** ** What holds in every reachable game *)

Ltac reach_by lines :=
  apply (run_reachable lines ChessGame_init);
  [exact reachable_init | vm_compute; reflexivity].

(** X12. In a reachable game the king of the side that is not to move, the
    side that has just moved, stands on no square that any piece on the
    board threatens. *)
Theorem mover_never_left_in_check :
  forall g,
    reachable g ->
    exists side,
      side_to_move (status g) = Some side /\
      forall king attacker th,
        In king (pieces (board g)) -> kind king = KING ->
        color king = other side ->
        In attacker (pieces (board g)) ->
        get_threatened_positions attacker (board g) = Ok th ->
        ~ In (position king) th.
Proof.
  intros g Hreach.
  destruct (reachable_inv g Hreach) as [side [Hside [_ [Hidx Hsafe]]]].
  exists side. split; [exact Hside|].
  intros king attacker th Hking Hkind Hcol Hatt Hth.
  destruct (Hidx (other side)) as [k [_ [_ [_ [Hk Huniq]]]]].
  rewrite (Huniq king Hking Hkind Hcol).
  exact (Hsafe attacker th (position k) Hatt Hth Hk).
Qed.

Lemma mover_never_left_in_check_witness :
  exists g,
    run ChessGame_init ["e2 d3"%string; "e7 d6"%string; "d1 e2"%string]
      = Ok g /\
    exists side, side_to_move (status g) = Some side.
Proof.
  eexists. split; [vm_compute; reflexivity|].
  lazymatch goal with
  | |- exists side, side_to_move (status ?g) = _ =>
      destruct (mover_never_left_in_check g) as [side [Hside _]];
      [reach_by ["e2 d3"%string; "e7 d6"%string; "d1 e2"%string]|]
  end.
  exists side. exact Hside.
Defined.

(** X13. An accepted request on a reachable game moves a piece of the side
    to move between two different squares.  What stood on the destination,
    if anything, is a piece of the other colour and not a king, and it is
    the only piece that leaves the board: afterwards the board holds the
    relocated mover and the pieces that stood on neither square. *)
Theorem accepted_move_effect :
  forall g c g',
    reachable g ->
    try_move g c = Ok true ->
    run_command g (Some c) = Ok g' ->
    exists mover,
      get_piece (board g) (src c) = Some mover /\
      side_to_move (status g) = Some (color mover) /\
      src c <> dst c /\
      (forall victim,
         get_piece (board g) (dst c) = Some victim ->
         color victim <> color mover /\ kind victim <> KING) /\
      (forall q,
         In q (pieces (board g')) <->
         (In q (pieces (board g)) /\
          position q <> dst c /\ position q <> src c) \/
         q = move mover (dst c)).
Proof.
  intros g c g' Hreach Htry Hrun.
  destruct (reachable_inv g Hreach) as [side [Hside [Hnd [Hidx Hsafe]]]].
  destruct (try_move_true_inv g c Htry)
    as [sp [sim [Hsp [Hwrong [Hdst [Hex _]]]]]].
  destruct (accepted_destination g c sp side Hside Hsp Hwrong Hdst)
    as [Hcol [Hsd Hocc]].
  unfold run_command in Hrun. rewrite Htry in Hrun. cbn [bind negb] in Hrun.
  rewrite Hex in Hrun. cbn [bind] in Hrun. apply Ok_inj in Hrun. subst g'.
  cbn [board].
  exists sp. split; [exact Hsp|]. split; [congruence|]. split; [exact Hsd|].
  split.
  - intros victim Hvictim. destruct (Hocc victim Hvictim) as [Hne [th [Hth Hin]]].
    split; [congruence|]. intros Hking.
    destruct (get_piece_position _ _ _ Hvictim) as [Hpos Hvin].
    destruct (get_piece_position _ _ _ Hsp) as [_ Hsp_in].
    destruct (Hidx (color victim)) as [k [_ [_ [_ [Hk Huniq]]]]].
    rewrite <- (Huniq victim Hvin Hking eq_refl), Hpos in Hk.
    rewrite (other_of_neq (color victim) side Hne) in Hk.
    exact (Hsafe sp th (dst c) Hsp_in Hth Hk Hin).
  - intros q. exact (execute_move_in_iff (board g) c sim sp q Hnd Hsp Hsd Hex).
Qed.

Lemma accepted_move_effect_witness :
  exists g g',
    run ChessGame_init ["e2 e4"%string; "d7 d5"%string] = Ok g /\
    run_command g (Some (mkMove (mkPos 4 3) (mkPos 3 4))) = Ok g' /\
    exists mover,
      get_piece (board g) (mkPos 4 3) = Some mover /\
      side_to_move (status g) = Some (color mover).
Proof.
  eexists. eexists. split; [vm_compute; reflexivity|].
  split; [vm_compute; reflexivity|].
  lazymatch goal with
  | |- exists mover, get_piece (board ?g) _ = _ /\ _ =>
      edestruct (accepted_move_effect g (mkMove (mkPos 4 3) (mkPos 3 4)))
        as [mover [Hmover [Hside _]]];
      [ reach_by ["e2 e4"%string; "d7 d5"%string]
      | vm_compute; reflexivity
      | vm_compute; reflexivity
      | ]
  end.
  exists mover. split; [exact Hmover | exact Hside].
Defined.

Lemma count_pieces_delete_first_at k c d l :
  (count_pieces k c (delete_first_at d l) <= count_pieces k c l)%nat.
Proof.
  unfold count_pieces.
  induction l as [|a l IH]; cbn [delete_first_at]; [lia|].
  destruct (pos_eqb (position a) d); cbn [filter];
    destruct (kind_eqb (kind a) k && color_eqb (color a) c);
    cbn [List.length]; lia.
Qed.

Lemma count_pieces_update_first_at k c s d l :
  count_pieces k c (update_first_at s (fun piece => move piece d) l)
  = count_pieces k c l.
Proof.
  unfold count_pieces.
  induction l as [|a l IH]; cbn [update_first_at]; [reflexivity|].
  destruct (pos_eqb (position a) s); cbn [filter move kind color].
  - destruct (kind_eqb (kind a) k && color_eqb (color a) c); reflexivity.
  - destruct (kind_eqb (kind a) k && color_eqb (color a) c);
      cbn [List.length]; rewrite IH; reflexivity.
Qed.

Lemma execute_move_count k c b m b' :
  execute_move b m = Ok b' ->
  (count_pieces k c (pieces b') <= count_pieces k c (pieces b))%nat.
Proof.
  intros Hex. destruct (execute_move_pieces b m b' Hex) as [sp [_ ->]].
  destruct (pos_eqb (src m) (dst m));
    rewrite ?count_pieces_update_first_at;
    apply count_pieces_delete_first_at.
Qed.

Lemma execute_move_length b m b' :
  execute_move b m = Ok b' ->
  (List.length (pieces b') <= List.length (pieces b))%nat.
Proof.
  intros Hex. destruct (execute_move_pieces b m b' Hex) as [sp [_ ->]].
  pose proof (length_delete_first_at (dst m) (pieces b)) as Hl.
  destruct (pos_eqb (src m) (dst m)); rewrite ?length_update_first_at; lia.
Qed.

(** X14. No piece is ever created or changed into another kind: in a
    reachable game the number of pieces of each kind and colour is at most
    what it is in the opening position, and the board holds at most 32
    pieces. *)
Theorem no_piece_is_created :
  forall g,
    reachable g ->
    (forall k c,
       (count_pieces k c (pieces (board g))
        <= count_pieces k c (pieces (board ChessGame_init)))%nat) /\
    (List.length (pieces (board g)) <= 32)%nat.
Proof.
  induction 1 as [|g command g' _ [IHc IHl] Hrun].
  - split; [intros k c; lia | vm_compute; lia].
  - apply run_command_inv in Hrun.
    destruct Hrun as [->|[m [mb [_ [_ [Hex ->]]]]]]; [auto|].
    cbn [board]. split.
    + intros k c. pose proof (execute_move_count k c _ _ _ Hex).
      specialize (IHc k c). lia.
    + pose proof (execute_move_length _ _ _ Hex). lia.
Qed.

Lemma no_piece_is_created_witness :
  exists g,
    run ChessGame_init ["e2 e4"%string; "d7 d5"%string; "e4 d5"%string]
      = Ok g /\
    (count_pieces QUEEN WHITE (pieces (board g)) <= 1)%nat.
Proof.
  eexists. split; [vm_compute; reflexivity|].
  apply no_piece_is_created.
  reach_by ["e2 e4"%string; "d7 d5"%string; "e4 d5"%string].
Defined.

Lemma initial_pawn_rows :
  forallb (fun p =>
             implb (is_pawn (kind p))
                   (y_coord (position p)
                    =? (if color_eqb (color p) WHITE then 1 else 6)))
          (pieces (board ChessGame_init)) = true.
Proof. vm_compute. reflexivity. Qed.

(** X15. In a reachable game a pawn whose has-moved flag is unset is a
    piece of the opening position, unchanged: it stands on its initial
    square, on row 1 if White and on row 6 if Black.  So the two-step
    advance is offered from the initial square only. *)
Theorem unmoved_pawn_on_initial_square :
  forall g p,
    reachable g ->
    In p (pieces (board g)) -> kind p = PAWN -> moved p = false ->
    In p (pieces (board ChessGame_init)) /\
    y_coord (position p) = (if color_eqb (color p) WHITE then 1 else 6).
Proof.
  intros g p Hreach Hin Hkind Hmoved.
  assert (Hinit : In p (pieces (board ChessGame_init))).
  { revert p Hin Hkind Hmoved.
    induction Hreach as [|g command g' _ IH Hrun]; intros p Hin Hkind Hmoved;
      [exact Hin|].
    apply run_command_inv in Hrun.
    destruct Hrun as [->|[m [mb [_ [_ [Hex ->]]]]]]; [auto|].
    cbn [board] in Hin.
    destruct (execute_move_in _ _ _ _ Hex Hin) as [Hold|[sp [_ ->]]];
      [auto|].
    exfalso. cbn [move kind moved] in Hkind, Hmoved.
    rewrite Hkind in Hmoved. discriminate. }
  split; [exact Hinit|].
  pose proof initial_pawn_rows as Hrows.
  rewrite forallb_forall in Hrows. specialize (Hrows p Hinit).
  rewrite Hkind in Hrows. cbn [is_pawn implb] in Hrows.
  apply Z.eqb_eq. exact Hrows.
Qed.

Lemma unmoved_pawn_on_initial_square_witness :
  exists g,
    run ChessGame_init ["e2 e4"%string; "d7 d5"%string] = Ok g /\
    In (mkPiece PAWN (mkPos 0 1) WHITE false) (pieces (board ChessGame_init)).
Proof.
  eexists. split; [vm_compute; reflexivity|].
  lazymatch goal with
  | |- In ?p _ =>
      lazymatch type of p with
      | Piece =>
          refine (proj1 (unmoved_pawn_on_initial_square
                           _ p _ _ eq_refl eq_refl))
      end
  end.
  - reach_by ["e2 e4"%string; "d7 d5"%string].
  - in_list.
Defined.

(** X16. [run] never sets its stop flag and never changes the size of the
    board: every reachable game is unfinished, on a board of the initial
    size, with White or Black to move, so the loop of [run] ends only by an
    exception. *)
Theorem run_never_finishes :
  forall g,
    reachable g ->
    finished g = false /\
    size (board g) = CHESS_BOARD_SIZE /\
    status g <> STATUS_WHITE_VICTORY /\
    status g <> STATUS_BLACK_VICTORY.
Proof.
  intros g Hreach. split; [|split].
  - induction Hreach as [|g command g' _ IH Hrun]; [reflexivity|].
    apply run_command_inv in Hrun.
    destruct Hrun as [->|[m [mb [_ [_ [_ ->]]]]]]; [exact IH|].
    cbn [finished]. exact IH.
  - induction Hreach as [|g command g' _ IH Hrun]; [reflexivity|].
    apply run_command_inv in Hrun.
    destruct Hrun as [->|[m [mb [_ [_ [Hex ->]]]]]]; [exact IH|].
    cbn [board]. rewrite (size_execute_move _ _ _ Hex). exact IH.
  - destruct (reachable_side g Hreach) as [side Hside].
    split; intros Hst; rewrite Hst in Hside; discriminate.
Qed.

Lemma run_never_finishes_witness :
  exists g,
    run ChessGame_init ["e2 e4"%string; "d7 d5"%string] = Ok g /\
    finished g = false.
Proof.
  eexists. split; [vm_compute; reflexivity|].
  apply run_never_finishes.
  reach_by ["e2 e4"%string; "d7 d5"%string].
Defined.

(** ** Setting up the board *)

Lemma initialize_piece_layout b piece_tuple :
  pieces (initialize_piece b piece_tuple)
  = pieces b ++ setup_pair (size b) piece_tuple /\
  size (initialize_piece b piece_tuple) = size b.
Proof.
  destruct piece_tuple as [[type x] y]. unfold initialize_piece, setup_pair.
  destruct (is_king type);
    cbn [set_board_handle register_king_position PieceFactory_create
         set_pieces pieces size color position];
    rewrite <- app_assoc; split; reflexivity.
Qed.

Lemma initialize_pieces_pieces :
  forall pieces_setup b,
    pieces (initialize_pieces b pieces_setup)
    = pieces b ++ flat_map (setup_pair (size b)) pieces_setup /\
    size (initialize_pieces b pieces_setup) = size b.
Proof.
  unfold initialize_pieces.
  induction pieces_setup as [|piece_tuple rest IH]; intros b;
    cbn [fold_left flat_map].
  - rewrite app_nil_r. split; reflexivity.
  - destruct (IH (initialize_piece b piece_tuple)) as [IHp IHs].
    destruct (initialize_piece_layout b piece_tuple) as [Hp Hs].
    rewrite IHp, IHs, Hp, Hs, <- app_assoc. split; reflexivity.
Qed.

(** X17. [_initialize_pieces] appends to the board, for each tuple of the
    setup in order, a white piece of that type on the given square and a
    black piece of the same type on the square mirrored through the centre
    of the board, none of them moved, and leaves the size alone.  On a
    board that was empty, White holds a type on a square exactly when the
    setup lists it, and exactly when Black holds that type on the mirrored
    square. *)
Theorem initialize_pieces_layout :
  forall pieces_setup b,
    pieces (initialize_pieces b pieces_setup)
    = pieces b ++ flat_map (setup_pair (size b)) pieces_setup /\
    size (initialize_pieces b pieces_setup) = size b /\
    (pieces b = [] ->
     forall t x y,
       (In (mkPiece t (mkPos x y) WHITE false)
           (pieces (initialize_pieces b pieces_setup))
        <-> In (t, x, y) pieces_setup) /\
       (In (mkPiece t (mkPos x y) WHITE false)
           (pieces (initialize_pieces b pieces_setup))
        <-> In (mkPiece t (mkPos (size b - x - 1) (size b - y - 1))
                  BLACK false)
               (pieces (initialize_pieces b pieces_setup)))).
Proof.
  intros pieces_setup b.
  destruct (initialize_pieces_pieces pieces_setup b) as [Hp Hs].
  split; [exact Hp|]. split; [exact Hs|].
  intros Hempty t x y. rewrite Hp, Hempty. cbn [app].
  assert (Hwhite :
    In (mkPiece t (mkPos x y) WHITE false)
       (flat_map (setup_pair (size b)) pieces_setup)
    <-> In (t, x, y) pieces_setup).
  { rewrite in_flat_map. split.
    - intros [[[t' x'] y'] [Hin Hpair]]. cbn [setup_pair In] in Hpair.
      destruct Hpair as [H|[H|[]]]; [|discriminate H].
      injection H as -> -> ->. exact Hin.
    - intros Hin. exists (t, x, y). split; [exact Hin|]. left. reflexivity. }
  assert (Hblack :
    In (mkPiece t (mkPos (size b - x - 1) (size b - y - 1)) BLACK false)
       (flat_map (setup_pair (size b)) pieces_setup)
    <-> In (t, x, y) pieces_setup).
  { rewrite in_flat_map. split.
    - intros [[[t' x'] y'] [Hin Hpair]]. cbn [setup_pair In] in Hpair.
      destruct Hpair as [H|[H|[]]]; [discriminate H|].
      assert (Ht : t' = t) by congruence.
      assert (Hx : size b - x' - 1 = size b - x - 1) by congruence.
      assert (Hy : size b - y' - 1 = size b - y - 1) by congruence.
      replace x with x' by lia. replace y with y' by lia. subst t'.
      exact Hin.
    - intros Hin. exists (t, x, y). split; [exact Hin|].
      right. left. reflexivity. }
  split; [exact Hwhite|]. rewrite Hwhite, Hblack. tauto.
Qed.

(** ** Drawing *)

Lemma square_contents_distinct l pos :
  NoDup (map position l) ->
  forall contents,
    square_contents l pos contents
    = match find (fun piece => pos_eqb (position piece) pos) l with
      | Some piece => symbol piece
      | None => contents
      end.
Proof.
  induction l as [|a l IH]; cbn [map square_contents find]; intros Hnd contents;
    [reflexivity|].
  inversion Hnd as [|x xs Hnotin Hnd']; subst.
  rewrite (IH Hnd'). rewrite (pos_eqb_sym pos (position a)).
  destruct (pos_eqb (position a) pos) eqn:Ha; [|reflexivity].
  apply pos_eqb_eq in Ha. subst pos.
  destruct (find _ l) as [q|] eqn:Hfind; [|reflexivity].
  exfalso. apply find_some in Hfind. destruct Hfind as [Hq Heq].
  apply pos_eqb_eq in Heq. apply Hnotin. rewrite <- Heq.
  apply in_map. exact Hq.
Qed.

Lemma find_app_piece (f : Piece -> bool) l1 l2 :
  find f (l1 ++ l2)
  = match find f l1 with Some p => Some p | None => find f l2 end.
Proof.
  induction l1 as [|a l1 IH]; cbn [app find]; [reflexivity|].
  destruct (f a); [reflexivity | exact IH].
Qed.

(** X18. The drawing loop shows on a square the symbol of the last piece of
    the list that stands there, and what the square held before when there
    is none; [get_piece] answers the first.  On a board whose pieces stand
    on distinct squares, every reachable board for one, the square drawn is
    the piece that [get_piece] finds. *)
Theorem square_contents_shows_piece :
  forall l pos contents,
    square_contents l pos contents
    = match find (fun piece => pos_eqb (position piece) pos) (rev l) with
      | Some piece => symbol piece
      | None => contents
      end /\
    (forall b,
       l = pieces b -> NoDup (map position (pieces b)) ->
       square_contents l pos contents
       = match get_piece b pos with
         | Some piece => symbol piece
         | None => contents
         end).
Proof.
  intros l pos contents. split.
  - revert contents.
    induction l as [|a l IH]; intros contents; cbn [square_contents rev];
      [reflexivity|].
    rewrite IH, find_app_piece. cbn [find].
    rewrite (pos_eqb_sym pos (position a)).
    destruct (find _ (rev l)); [reflexivity|].
    destruct (pos_eqb (position a) pos); reflexivity.
  - intros b -> Hnd. unfold get_piece.
    apply square_contents_distinct. exact Hnd.
Qed.

(** X19. The symbol of a piece tells its kind and its colour and nothing
    else: two pieces have the same symbol exactly when they are of the same
    kind and colour. *)
Theorem symbol_tells_kind_and_color :
  forall p q,
    symbol p = symbol q <-> kind p = kind q /\ color p = color q.
Proof.
  intros [pk ppos pc pm] [qk qpos qc qm]. unfold symbol.
  cbn [kind color]. split.
  - destruct pk, pc, qk, qc; cbn; intros H;
      first [split; reflexivity | discriminate H].
  - intros [-> ->]. reflexivity.
Qed.

(** ** More on reachable games *)

Lemma square_in_bounds_size b b' q :
  size b' = size b -> square_in_bounds b' q = square_in_bounds b q.
Proof. intros H. unfold square_in_bounds, in_bounds. rewrite H. reflexivity. Qed.

Lemma accepted_destination_in_bounds g c :
  try_move g c = Ok true -> square_in_bounds (board g) (dst c) = true.
Proof.
  intros Htry.
  destruct (try_move_true_inv g c Htry) as [sp [sim [_ [_ [Hdst _]]]]].
  apply dst_unreachable_inv in Hdst.
  destruct Hdst as [[l [Hl Hin]]|[l [Hl Hin]]].
  - exact (proj1 (reach_landing sp (board g) l (dst c) (or_intror Hl) Hin)).
  - exact (proj1 (reach_landing sp (board g) l (dst c) (or_introl Hl) Hin)).
Qed.

Lemma ChessGame_init_in_bounds :
  forallb (fun p => square_in_bounds (board ChessGame_init) (position p))
          (pieces (board ChessGame_init)) = true.
Proof. vm_compute. reflexivity. Qed.

Lemma reachable_in_bounds g :
  reachable g ->
  forall p, In p (pieces (board g)) ->
            square_in_bounds (board g) (position p) = true.
Proof.
  induction 1 as [|g command g' _ IH Hrun]; intros p Hin.
  - pose proof ChessGame_init_in_bounds as H.
    rewrite forallb_forall in H. exact (H p Hin).
  - apply run_command_inv in Hrun.
    destruct Hrun as [->|[m [mb [_ [Htry [Hex ->]]]]]]; [auto|].
    cbn [board] in *.
    rewrite (square_in_bounds_size (board g) mb _ (size_execute_move _ _ _ Hex)).
    destruct (execute_move_in _ _ _ _ Hex Hin) as [Hold|[sp [_ ->]]];
      [auto|].
    cbn [move position]. exact (accepted_destination_in_bounds g m Htry).
Qed.

(** X20. In a reachable game every piece stands on a square of the board:
    both coordinates are at least 0 and below the size of the board. *)
Theorem pieces_stay_on_board :
  forall g p,
    reachable g -> In p (pieces (board g)) ->
    0 <= x_coord (position p) < size (board g) /\
    0 <= y_coord (position p) < size (board g).
Proof.
  intros g p Hreach Hin. apply in_bounds_range.
  exact (reachable_in_bounds g Hreach p Hin).
Qed.

Lemma pieces_stay_on_board_witness :
  exists g,
    run ChessGame_init ["e2 e4"%string; "d7 d5"%string; "e4 d5"%string]
      = Ok g /\
    0 <= x_coord (mkPos 3 4) < size (board g) /\
    0 <= y_coord (mkPos 3 4) < size (board g).
Proof.
  eexists. split; [vm_compute; reflexivity|].
  apply (pieces_stay_on_board _ (mkPiece PAWN (mkPos 3 4) WHITE true)).
  - reach_by ["e2 e4"%string; "d7 d5"%string; "e4 d5"%string].
  - in_list.
Defined.

Lemma king_threatens_neighbour b p q :
  kind p = KING ->
  Z.max (Z.abs (x_coord q - x_coord (position p)))
        (Z.abs (y_coord q - y_coord (position p))) = 1 ->
  landing b (color p) q ->
  exists th, get_threatened_positions p b = Ok th /\ In q th.
Proof.
  intros Hkind Hgeo Hland. unfold get_threatened_positions. rewrite Hkind.
  eexists. split; [reflexivity|]. apply spot_scan_in_iff.
  set (dx := x_coord q - x_coord (position p)) in *.
  set (dy := y_coord q - y_coord (position p)) in *.
  assert (Hdx : dx = -1 \/ dx = 0 \/ dx = 1) by lia.
  assert (Hdy : dy = -1 \/ dy = 0 \/ dy = 1) by lia.
  exists (dx, dy). cbn [fst snd].
  split; [|split; [apply probe_square_delta | exact Hland]].
  unfold King_SPOT_INCREMENTS.
  destruct Hdx as [Hx|[Hx|Hx]], Hdy as [Hy|[Hy|Hy]]; rewrite Hx, Hy in *;
    try (exfalso; lia); pick_increment.
Qed.

(** X21. In a reachable game the two kings never stand on neighbouring
    squares. *)
Theorem kings_never_adjacent :
  forall g k1 k2,
    reachable g ->
    In k1 (pieces (board g)) -> In k2 (pieces (board g)) ->
    kind k1 = KING -> kind k2 = KING -> color k1 <> color k2 ->
    Z.max (Z.abs (x_coord (position k1) - x_coord (position k2)))
          (Z.abs (y_coord (position k1) - y_coord (position k2))) <> 1.
Proof.
  assert (Hmain : forall g attacker victim side,
    reachable g ->
    side_to_move (status g) = Some side ->
    In attacker (pieces (board g)) -> In victim (pieces (board g)) ->
    kind attacker = KING -> kind victim = KING ->
    color attacker = side -> color victim = other side ->
    Z.max (Z.abs (x_coord (position victim) - x_coord (position attacker)))
          (Z.abs (y_coord (position victim) - y_coord (position attacker)))
    <> 1).
  { intros g attacker victim side Hreach Hside Ha Hv Hka Hkv Hca Hcv Hgeo.
    destruct (reachable_inv g Hreach) as [side' [Hside' [Hnd [Hidx Hsafe]]]].
    replace side' with side in * by congruence.
    assert (Hland : landing (board g) (color attacker) (position victim)).
    { split; [exact (reachable_in_bounds g Hreach victim Hv)|].
      intros o Ho. rewrite (get_piece_of_in (board g) victim Hnd Hv) in Ho.
      injection Ho as <-. rewrite Hca, Hcv. destruct side; discriminate. }
    destruct (king_threatens_neighbour (board g) attacker (position victim)
                Hka Hgeo Hland) as [th [Hth Hin]].
    destruct (Hidx (other side)) as [k [_ [_ [_ [Hk Huniq]]]]].
    rewrite <- (Huniq victim Hv Hkv Hcv) in Hk.
    exact (Hsafe attacker th (position victim) Ha Hth Hk Hin). }
  intros g k1 k2 Hreach H1 H2 Hk1 Hk2 Hne.
  destruct (reachable_side g Hreach) as [side Hside].
  destruct (color_eqb (color k1) side) eqn:Hc.
  - apply color_eqb_eq in Hc.
    assert (Hc2 : color k2 = other side)
      by (apply other_of_neq; congruence).
    pose proof (Hmain g k1 k2 side Hreach Hside H1 H2 Hk1 Hk2 Hc Hc2). lia.
  - apply color_eqb_neq in Hc.
    assert (Hc1 : color k1 = other side) by (apply other_of_neq; exact Hc).
    assert (Hc2 : color k2 = side).
    { destruct (color k1), (color k2), side; simpl in *; congruence. }
    exact (Hmain g k2 k1 side Hreach Hside H2 H1 Hk2 Hk1 Hc2 Hc1).
Qed.

Lemma kings_never_adjacent_witness :
  exists g,
    run ChessGame_init ["e2 e4"%string; "d7 d5"%string] = Ok g /\
    Z.max (Z.abs (4 - 3)) (Z.abs (0 - 7)) <> 1.
Proof.
  eexists. split; [vm_compute; reflexivity|].
  refine (kings_never_adjacent
            _ (mkPiece KING (mkPos 4 0) WHITE false)
            (mkPiece KING (mkPos 3 7) BLACK false) _ _ _
            eq_refl eq_refl _).
  - reach_by ["e2 e4"%string; "d7 d5"%string].
  - in_list.
  - in_list.
  - discriminate.
Defined.

Lemma king_scan_safe st sim side king :
  side_to_move st = Some side ->
  king_position sim side = Some king ->
  forall l,
    (forall q th, In q l -> get_threatened_positions q sim = Ok th ->
                  ~ In king th) ->
    king_scan st sim l = Ok true.
Proof.
  intros Hside Hking. induction l as [|piece rest IH]; intros Hsafe;
    [reflexivity|].
  cbn [king_scan].
  destruct (get_threatened_positions_total piece sim) as [th Hth].
  assert (Hstep :
    (threatened <- get_threatened_positions piece sim ;;
     hit <- position_in (king_position sim side) threatened ;;
     if hit then Ok false else king_scan st sim rest) = Ok true).
  { rewrite Hth, Hking. cbn [bind]. rewrite position_in_some. cbn [bind].
    destruct (existsb _ th) eqn:Hex.
    - exfalso. apply existsb_pos_In in Hex.
      exact (Hsafe piece th (or_introl eq_refl) Hth Hex).
    - apply IH. intros q th' Hq. apply Hsafe. right. exact Hq. }
  destruct st; cbn in Hside; inversion Hside; subst side; exact Hstep.
Qed.

(** X22. On a reachable game validation accepts a request exactly when a
    piece of the side to move stands on the source square, the destination
    is among its moveable or its threatened squares, and on the board after
    the move no piece threatens the square recorded for the mover's king. *)
Theorem try_move_accepts_iff :
  forall g c,
    reachable g ->
    (try_move g c = Ok true <->
     exists mover sim,
       get_piece (board g) (src c) = Some mover /\
       side_to_move (status g) = Some (color mover) /\
       ((exists l, get_moveable_positions mover (board g) = Ok l /\
                   In (dst c) l) \/
        (exists l, get_threatened_positions mover (board g) = Ok l /\
                   In (dst c) l)) /\
       execute_move (board g) c = Ok sim /\
       king_safe sim (color mover)).
Proof.
  intros g c Hreach.
  destruct (reachable_inv g Hreach) as [side [Hside [_ [Hidx _]]]].
  split.
  - intros Htry.
    destruct (try_move_true_inv g c Htry)
      as [sp [sim [Hsp [Hwrong [Hdst [Hex Hscan]]]]]].
    destruct (accepted_destination g c sp side Hside Hsp Hwrong Hdst)
      as [Hcol _].
    exists sp, sim. split; [exact Hsp|]. split; [congruence|].
    split; [exact (dst_unreachable_inv sp (board g) c Hdst)|].
    split; [exact Hex|]. rewrite Hcol. intros q th k Hq Hth Hk.
    exact (king_scan_true (status g) sim side Hside (pieces sim) Hscan
             q th k Hq Hth Hk).
  - intros [sp [sim [Hsp [Hturn [Hdst [Hex Hsafe]]]]]].
    assert (Hcol : color sp = side) by congruence.
    unfold try_move, deepcopy. rewrite Hsp.
    rewrite (wrong_color_side (status g) side (color sp) Hside).
    replace (color_eqb (color sp) side) with true
      by (symmetry; apply color_eqb_eq; exact Hcol).
    cbn [negb]. rewrite (dst_unreachable_false sp (board g) c Hdst).
    cbn [bind]. rewrite Hex. cbn [bind].
    destruct (Hidx side) as [k [_ [_ [_ [Hk _]]]]].
    assert (Hking : exists king, king_position sim side = Some king).
    { rewrite (execute_move_king_position _ _ _ sp side Hex Hsp).
      destruct (_ && _); eauto. }
    destruct Hking as [king Hking].
    apply (king_scan_safe (status g) sim side king Hside Hking).
    intros q th Hq Hth. rewrite Hcol in Hsafe.
    exact (Hsafe q th king Hq Hth Hking).
Qed.

Lemma try_move_accepts_iff_witness :
  try_move ChessGame_init (mkMove (mkPos 4 1) (mkPos 4 3)) = Ok true <->
  exists mover sim,
    get_piece (board ChessGame_init) (mkPos 4 1) = Some mover /\
    side_to_move (status ChessGame_init) = Some (color mover) /\
    ((exists l, get_moveable_positions mover (board ChessGame_init) = Ok l /\
                In (mkPos 4 3) l) \/
     (exists l, get_threatened_positions mover (board ChessGame_init) = Ok l /\
                In (mkPos 4 3) l)) /\
    execute_move (board ChessGame_init) (mkMove (mkPos 4 1) (mkPos 4 3))
      = Ok sim /\
    king_safe sim (color mover).
Proof.
  exact (try_move_accepts_iff ChessGame_init
           (mkMove (mkPos 4 1) (mkPos 4 3)) reachable_init).
Defined.

(** ** The ray scan in the zero direction *)

(** X23. The ray scan fails to return only when it is given the direction
    (0, 0) from a free square of the board: the loop then stays on that
    square for ever.  With the direction (0, 0) from any other square it
    returns at once: nothing when the square is off the board or holds a
    piece of the own colour, the start square itself when an enemy stands
    on it. *)
Theorem beam_search_threat_zero_direction :
  forall b start own,
    (forall dx dy,
       beam_search_threat b start own dx dy = Diverge <->
       dx = 0 /\ dy = 0 /\ free_square b start) /\
    (square_in_bounds b start = false ->
     beam_search_threat b start own 0 0 = Ok []) /\
    (forall occupant,
       square_in_bounds b start = true ->
       get_piece b start = Some occupant ->
       beam_search_threat b start own 0 0
       = Ok (if color_eqb (color occupant) own then [] else [start])).
Proof.
  intros b [x y] own. split; [|split].
  - intros dx dy. apply beam_search_threat_diverges.
  - unfold square_in_bounds, beam_search_threat. cbn [x_coord y_coord].
    rewrite !Z.add_0_r. intros Hout. cbn [beam_loop]. rewrite Hout.
    reflexivity.
  - unfold square_in_bounds, beam_search_threat. cbn [x_coord y_coord].
    rewrite !Z.add_0_r. intros occupant Hin Hocc. cbn [beam_loop].
    rewrite Hin, Hocc. destruct (color_eqb (color occupant) own); reflexivity.
Qed.

(** ** A round of [run]: what is refused and what an accepted move does *)

(** The board after a move between two different squares, looked up square
    by square. *)
Lemma execute_move_effect b c b' source_piece :
  NoDup (map position (pieces b)) ->
  get_piece b (src c) = Some source_piece ->
  src c <> dst c ->
  execute_move b c = Ok b' ->
  get_piece b' (dst c) = Some (move source_piece (dst c)) /\
  get_piece b' (src c) = None /\
  (forall q, q <> src c -> q <> dst c -> get_piece b' q = get_piece b q).
Proof.
  intros Hnd Hsp Hsd Hex.
  pose proof (execute_move_NoDup b c b' Hex Hnd) as Hnd'.
  pose proof (fun q => execute_move_in_iff b c b' source_piece q
                         Hnd Hsp Hsd Hex) as Hmem.
  split; [|split].
  - apply (get_piece_of_in b' (move source_piece (dst c)) Hnd').
    apply Hmem. auto.
  - apply get_piece_none. intros p Hp. apply Hmem in Hp.
    destruct Hp as [[_ [_ Hns]]| ->]; [exact Hns|].
    cbn [move position]. congruence.
  - intros q Hqs Hqd. destruct (get_piece b q) as [o|] eqn:Ho.
    + destruct (get_piece_position b q o Ho) as [Hpos Hin].
      rewrite <- Hpos. apply (get_piece_of_in b' o Hnd'). apply Hmem.
      left. rewrite Hpos. auto.
    + apply get_piece_none. intros p Hp. apply Hmem in Hp.
      rewrite get_piece_none in Ho.
      destruct Hp as [[Hp _]| ->]; [exact (Ho p Hp)|].
      cbn [move position]. congruence.
Qed.

(** The scan answers [false] only when some piece of the list threatens the
    square recorded for the mover's king. *)
Lemma king_scan_false_inv st sim side :
  side_to_move st = Some side ->
  forall l,
    king_scan st sim l = Ok false ->
    exists king attacker th,
      king_position sim side = Some king /\
      In attacker l /\
      get_threatened_positions attacker sim = Ok th /\
      In king th.
Proof.
  intros Hside. induction l as [|piece rest IH]; [discriminate|].
  intros Hscan.
  assert (Hstep :
    (threatened <- get_threatened_positions piece sim ;;
     hit <- position_in (king_position sim side) threatened ;;
     if hit then Ok false else king_scan st sim rest) = Ok false).
  { destruct st; cbn in Hside; inversion Hside; subst side; exact Hscan. }
  destruct (get_threatened_positions_total piece sim) as [th Hth].
  rewrite Hth in Hstep. cbn [bind] in Hstep.
  destruct (king_position sim side) as [king|] eqn:Hking.
  - rewrite position_in_some in Hstep. cbn [bind] in Hstep.
    destruct (existsb _ th) eqn:Hex.
    + apply existsb_pos_In in Hex.
      exists king, piece, th. split; [reflexivity|].
      split; [left; reflexivity|]. auto.
    + destruct (IH Hstep) as [k [a [t [Hk [Ha [Ht Hin]]]]]].
      exists k, a, t. split; [exact Hk|]. split; [right; exact Ha|]. auto.
  - destruct th as [|sq th']; cbn [position_in bind] in Hstep;
      [|discriminate].
    destruct (IH Hstep) as [k [a [t [Hk _]]]]. discriminate.
Qed.

Lemma dst_unreachable_true_inv p b c :
  dst_unreachable p b c = Ok true ->
  exists mv th,
    get_moveable_positions p b = Ok mv /\
    get_threatened_positions p b = Ok th /\
    ~ In (dst c) mv /\ ~ In (dst c) th.
Proof.
  unfold dst_unreachable.
  destruct (get_moveable_positions_total p b) as [mv Hmv].
  destruct (get_threatened_positions_total p b) as [th Hth].
  rewrite Hmv. cbn [bind].
  destruct (existsb _ mv) eqn:Hex; cbn [negb]; [discriminate|].
  rewrite Hth. cbn [bind].
  destruct (existsb _ th) eqn:Hex'; cbn [negb]; [discriminate|].
  intros _. exists mv, th. split; [reflexivity|]. split; [reflexivity|].
  split; intros Hin; apply existsb_pos_In in Hin; congruence.
Qed.

(** Every refusal has one of the four reasons. *)
Lemma try_move_false_inv g c side :
  side_to_move (status g) = Some side ->
  try_move g c = Ok false ->
  get_piece (board g) (src c) = None \/
  exists p,
    get_piece (board g) (src c) = Some p /\
    (wrong_color (status g) (color p) = true \/
     (exists mv th,
        get_moveable_positions p (board g) = Ok mv /\
        get_threatened_positions p (board g) = Ok th /\
        ~ In (dst c) mv /\ ~ In (dst c) th) \/
     (exists sim king attacker th,
        execute_move (board g) c = Ok sim /\
        king_position sim side = Some king /\
        In attacker (pieces sim) /\
        get_threatened_positions attacker sim = Ok th /\
        In king th)).
Proof.
  intros Hside. unfold try_move, deepcopy.
  destruct (get_piece (board g) (src c)) as [sp|] eqn:Hsp; [|auto].
  intros Htry. right. exists sp. split; [reflexivity|].
  destruct (wrong_color (status g) (color sp)); [auto|].
  destruct (dst_unreachable sp (board g) c) as [[|]| |] eqn:Hdst;
    cbn [bind] in Htry; try discriminate.
  - right. left. exact (dst_unreachable_true_inv sp (board g) c Hdst).
  - right. right.
    destruct (execute_move (board g) c) as [sim| |]; cbn [bind] in Htry;
      try discriminate.
    destruct (king_scan_false_inv (status g) sim side Hside (pieces sim) Htry)
      as [king [attacker [th H]]].
    exists sim, king, attacker, th. split; [reflexivity | exact H].
Qed.

(** C2. A request that validation refuses leaves the game unchanged, board
    and status alike.  Validation refuses when no piece stands on the source
    square, when the piece there is of the wrong colour, when the
    destination is in neither its moveable nor its threatened squares, and
    when the move would leave the mover's king threatened; on a reachable
    game it refuses for no other reason.  A request that validation accepts
    is executed once on the live board: the mover then stands on the
    destination, the source square is empty, every other square holds what
    it held, the board holds the relocated mover and the pieces that stood
    on neither square, and the side to move passes to the other colour.  A
    reachable game always has White or Black to move, and on it validation
    and the round always return. *)
Theorem validation_guards_live_board :
  forall g c,
    run_command g None = Ok g /\
    (try_move g c = Ok false -> run_command g (Some c) = Ok g) /\
    (get_piece (board g) (src c) = None -> try_move g c = Ok false) /\
    (forall p, get_piece (board g) (src c) = Some p ->
       wrong_color (status g) (color p) = true -> try_move g c = Ok false) /\
    (forall p mv th,
       get_piece (board g) (src c) = Some p ->
       get_moveable_positions p (board g) = Ok mv ->
       get_threatened_positions p (board g) = Ok th ->
       ~ In (dst c) mv -> ~ In (dst c) th ->
       try_move g c = Ok false) /\
    (try_move g c = Ok true ->
     exists moved_board,
       execute_move (board g) c = Ok moved_board /\
       run_command g (Some c)
       = Ok (mkGame (finished g) moved_board (next_status (status g)))) /\
    next_status STATUS_WHITE_MOVE = STATUS_BLACK_MOVE /\
    next_status STATUS_BLACK_MOVE = STATUS_WHITE_MOVE /\
    (reachable g ->
     (status g = STATUS_WHITE_MOVE \/ status g = STATUS_BLACK_MOVE) /\
     (exists verdict, try_move g c = Ok verdict) /\
     (exists g', run_command g (Some c) = Ok g')) /\
    (forall p side sim king attacker th,
       get_piece (board g) (src c) = Some p ->
       side_to_move (status g) = Some side ->
       execute_move (board g) c = Ok sim ->
       king_position sim side = Some king ->
       In attacker (pieces sim) ->
       get_threatened_positions attacker sim = Ok th ->
       In king th ->
       try_move g c = Ok false) /\
    (reachable g ->
     try_move g c = Ok false ->
     exists side,
       side_to_move (status g) = Some side /\
       (get_piece (board g) (src c) = None \/
        exists p,
          get_piece (board g) (src c) = Some p /\
          (wrong_color (status g) (color p) = true \/
           (exists mv th,
              get_moveable_positions p (board g) = Ok mv /\
              get_threatened_positions p (board g) = Ok th /\
              ~ In (dst c) mv /\ ~ In (dst c) th) \/
           (exists sim king attacker th,
              execute_move (board g) c = Ok sim /\
              king_position sim side = Some king /\
              In attacker (pieces sim) /\
              get_threatened_positions attacker sim = Ok th /\
              In king th)))) /\
    (reachable g ->
     try_move g c = Ok true ->
     exists mover moved_board,
       get_piece (board g) (src c) = Some mover /\
       side_to_move (status g) = Some (color mover) /\
       src c <> dst c /\
       run_command g (Some c)
       = Ok (mkGame (finished g) moved_board (next_status (status g))) /\
       get_piece moved_board (dst c) = Some (move mover (dst c)) /\
       get_piece moved_board (src c) = None /\
       (forall q, q <> src c -> q <> dst c ->
          get_piece moved_board q = get_piece (board g) q) /\
       (forall q,
          In q (pieces moved_board) <->
          (In q (pieces (board g)) /\
           position q <> dst c /\ position q <> src c) \/
          q = move mover (dst c)) /\
       size moved_board = size (board g) /\
       side_to_move (next_status (status g)) = Some (other (color mover))).
Proof.
  intros g c. split; [reflexivity|]. split; [apply run_command_rejected|].
  split; [|split; [|split; [|split; [|split; [|split; [|split;
    [|split; [|split]]]]]]]].
  - intros Hsrc. unfold try_move, deepcopy. rewrite Hsrc. reflexivity.
  - intros p Hsrc Hcol. unfold try_move, deepcopy. rewrite Hsrc, Hcol.
    reflexivity.
  - intros p mv th Hsrc Hmv Hth Hnmv Hnth. unfold try_move, deepcopy.
    rewrite Hsrc. destruct (wrong_color _ _); [reflexivity|].
    rewrite (dst_unreachable_true p (board g) c mv th Hmv Hth Hnmv Hnth).
    reflexivity.
  - intros Htry.
    destruct (try_move_true_inv g c Htry) as [sp [sim [_ [_ [_ [Hex _]]]]]].
    exists sim. split; [exact Hex|]. unfold run_command.
    rewrite Htry. cbn [bind negb]. rewrite Hex. reflexivity.
  - reflexivity.
  - reflexivity.
  - intros Hreach. split; [|split].
    + destruct (reachable_side g Hreach) as [side Hside].
      destruct (status g); try discriminate; auto.
    + exact (try_move_total g c (reachable_inv g Hreach)).
    + exact (run_command_total g c (reachable_inv g Hreach)).
  - intros p side sim king attacker th Hsrc Hside Hex Hking Hatt Hth Hhit.
    exact (try_move_self_check g c p sim side king attacker th
             Hsrc Hside Hex Hking Hatt Hth Hhit).
  - intros Hreach Htry. destruct (reachable_side g Hreach) as [side Hside].
    exists side. split; [exact Hside|].
    exact (try_move_false_inv g c side Hside Htry).
  - intros Hreach Htry.
    destruct (reachable_inv g Hreach) as [side [Hside [Hnd _]]].
    destruct (try_move_true_inv g c Htry)
      as [sp [sim [Hsp [Hwrong [Hdst [Hex _]]]]]].
    destruct (accepted_destination g c sp side Hside Hsp Hwrong Hdst)
      as [Hcol [Hsd _]].
    destruct (execute_move_effect (board g) c sim sp Hnd Hsp Hsd Hex)
      as [Hat_dst [Hat_src Hother]].
    exists sp, sim. split; [exact Hsp|]. split; [congruence|].
    split; [exact Hsd|]. split.
    { unfold run_command. rewrite Htry. cbn [bind negb]. rewrite Hex.
      reflexivity. }
    split; [exact Hat_dst|]. split; [exact Hat_src|]. split; [exact Hother|].
    split.
    { intros q.
      exact (execute_move_in_iff (board g) c sim sp q Hnd Hsp Hsd Hex). }
    split; [exact (size_execute_move (board g) c sim Hex)|].
    rewrite Hcol. exact (side_to_move_next (status g) side Hside).
Qed.

Lemma validation_guards_live_board_witness :
  exists mover moved_board,
    get_piece (board ChessGame_init) (mkPos 4 1) = Some mover /\
    run_command ChessGame_init (Some (mkMove (mkPos 4 1) (mkPos 4 3)))
    = Ok (mkGame false moved_board STATUS_BLACK_MOVE) /\
    get_piece moved_board (mkPos 4 3) = Some (move mover (mkPos 4 3)) /\
    get_piece moved_board (mkPos 4 1) = None.
Proof.
  destruct (validation_guards_live_board ChessGame_init
              (mkMove (mkPos 4 1) (mkPos 4 3)))
    as [_ [_ [_ [_ [_ [_ [_ [_ [_ [_ [_ Haccept]]]]]]]]]]].
  destruct (Haccept reachable_init) as
    [mover [mb [Hm [_ [_ [Hrun [Hdst [Hsrc _]]]]]]]].
  - vm_compute. reflexivity.
  - exists mover, mb. auto.
Defined.
